(** * Checkers Studio: rules engine and search (src/app.ts)

    A shallow embedding of the move generator, the make/unmake mutator, the
    Zobrist hashing, the evaluators and the iterative-deepening search of
    [src/app.ts], and of the functions of the game around them (end of the
    game, move chosen by a click, board orientation, leaderboard score),
    followed by the properties of the engine.

    Conventions of the embedding.
    - JavaScript numbers that hold board coordinates, counters and scores are
      integers throughout the engine and are modelled as [Z]; [bigint] hashes
      are [Z] with [Z.lxor].
    - [Board] is the 8x8 [Array<Array<Piece | null>>]; a square holds
      [option Piece].  Every board the engine works on is produced by
      [createEmptyBoard]/[cloneBoard], so it has eight rows of eight squares
      ([wf_board]) and every square owns its piece object ([cloneBoard] copies
      each piece), which is why a square can hold the piece by value.
    - Mutation of [GameNode] is explicit state passing; [throw] is a result
      in the sum type [js].
    - [Date.now()] and [Math.random()] are oracles indexed by the number of
      calls made so far; what is proved holds for every oracle. *)

From stdpp Require Import gmap list.
From Stdlib Require Import ZArith QArith Qround Lia Bool.

Open Scope Z_scope.

(** ** Data model *)

Inductive Color := W | B.

Inductive Variant := Classic | Giveaway.

Inductive Difficulty := Easy | Medium | Hard.

Inductive Mode := ModeAi | ModeHint.

Record Piece := mkPiece { color : Color; king : bool }.

Record Coords := mkCoords { r : Z; c : Z }.

Record Move := mkMove { from : Coords; to : Coords; captures : list Coords }.

Abbreviation Board := (list (list (option Piece))).

Record GameNode := mkNode {
  board : Board;
  hash : Z;
  turn : Color;
  pendingCapture : option Coords
}.

#[global] Instance Color_eq_dec : EqDecision Color.
Proof. solve_decision. Defined.

#[global] Instance Piece_eq_dec : EqDecision Piece.
Proof. solve_decision. Defined.

#[global] Instance Coords_eq_dec : EqDecision Coords.
Proof. solve_decision. Defined.

#[global] Instance Move_eq_dec : EqDecision Move.
Proof. solve_decision. Defined.

Definition color_eqb (a b : Color) : bool := bool_decide (a = b).

Definition BOARD_SIZE : Z := 8.

Definition WIN_SCORE : Z := 1000000.

Definition DIRECTIONS : list (Z * Z) := [(-1, -1); (-1, 1); (1, -1); (1, 1)].

Definition opposite (color : Color) : Color :=
  match color with W => B | B => W end.

Definition isInside (r c : Z) : bool :=
  (0 <=? r) && (r <? BOARD_SIZE) && (0 <=? c) && (c <? BOARD_SIZE).

Definition isPlayableSquare (r c : Z) : bool := (r + c) mod 2 =? 1.

(** [board[r][c]] as a value.  Outside the grid JavaScript yields [undefined]
    (or throws on a missing row); every read of the move generator is guarded
    by [isInside], and the properties below are stated for squares of the
    grid. *)
Definition cell (board : Board) (r c : Z) : option Piece :=
  if (r <? 0) || (c <? 0) then None
  else match board !! Z.to_nat r with
       | Some row => match row !! Z.to_nat c with
                     | Some sq => sq
                     | None => None
                     end
       | None => None
       end.

(** [board[r][c] = v].  The engine only writes squares it has read from a
    move's coordinates; outside the grid the model leaves the board as it
    is. *)
Definition setCell (board : Board) (r c : Z) (v : option Piece) : Board :=
  if (r <? 0) || (c <? 0) then board
  else match board !! Z.to_nat r with
       | Some row => <[Z.to_nat r := <[Z.to_nat c := v]> row]> board
       | None => board
       end.

Definition wf_board (board : Board) : Prop :=
  length board = 8%nat ∧ Forall (λ row, length row = 8%nat) board.

Definition createEmptyBoard : Board := replicate 8 (replicate 8 None).

(** The squares in the order of the two nested [for] loops
    ([r] outer, [c] inner). *)
Definition indices : list Z := [0; 1; 2; 3; 4; 5; 6; 7].

Definition squares : list (Z * Z) :=
  r ← indices; c ← indices; [(r, c)].

Definition createInitialBoard : Board :=
  let fill (color : Color) (rows : list Z) (board : Board) :=
    foldl (λ b '(r, c),
             if bool_decide (r ∈ rows) && isPlayableSquare r c
             then setCell b r c (Some (mkPiece color false)) else b)
          board squares in
  fill W [5; 6; 7] (fill B [0; 1; 2] createEmptyBoard).

(** ** Move generator *)

(** The [while (isInside(nr, nc) && !board[nr][nc])] loop of a king's quiet
    moves along one direction.  The loop leaves the grid after at most
    [BOARD_SIZE] steps; [n] bounds the number of iterations. *)
Fixpoint slideMoves (n : nat) (board : Board) (r c dr dc nr nc : Z) : list Move :=
  match n with
  | O => []
  | S n' =>
      if isInside nr nc && negb (bool_decide (is_Some (cell board nr nc))) then
        mkMove (mkCoords r c) (mkCoords nr nc) []
          :: slideMoves n' board r c dr dc (nr + dr) (nc + dc)
      else []
  end.

Definition getSimpleMovesForPiece (board : Board) (r c : Z) (piece : Piece)
  : list Move :=
  if king piece then
    '(dr, dc) ← DIRECTIONS; slideMoves 8 board r c dr dc (r + dr) (c + dc)
  else
    let forward := match color piece with W => -1 | B => 1 end in
    dc ← [-1; 1];
    let nr := r + forward in
    let nc := c + dc in
    if isInside nr nc && negb (bool_decide (is_Some (cell board nr nc)))
    then [mkMove (mkCoords r c) (mkCoords nr nc) []]
    else [].

Definition getManCaptures (board : Board) (r c : Z) (piece : Piece)
  : list Move :=
  '(dr, dc) ← DIRECTIONS;
  let mr := r + dr in
  let mc := c + dc in
  let tr := r + dr * 2 in
  let tc := c + dc * 2 in
  if negb (isInside mr mc) || negb (isInside tr tc) then []
  else match cell board mr mc with
       | Some middle =>
           if negb (color_eqb (color middle) (color piece))
              && negb (bool_decide (is_Some (cell board tr tc)))
           then [mkMove (mkCoords r c) (mkCoords tr tc) [mkCoords mr mc]]
           else []
       | None => []
       end.

(** The [while (isInside(nr, nc))] loop of a king's captures along one
    direction, with the loop variable [enemySquare]. *)
Fixpoint kingRay (n : nat) (board : Board) (piece : Piece) (r c dr dc nr nc : Z)
  (enemySquare : option Coords) : list Move :=
  match n with
  | O => []
  | S n' =>
      if isInside nr nc then
        let current := cell board nr nc in
        match enemySquare with
        | None =>
            match current with
            | None => kingRay n' board piece r c dr dc (nr + dr) (nc + dc) None
            | Some cur =>
                if color_eqb (color cur) (color piece) then []
                else kingRay n' board piece r c dr dc (nr + dr) (nc + dc)
                       (Some (mkCoords nr nc))
            end
        | Some enemy =>
            match current with
            | Some _ => []
            | None =>
                mkMove (mkCoords r c) (mkCoords nr nc) [enemy]
                  :: kingRay n' board piece r c dr dc (nr + dr) (nc + dc)
                       enemySquare
            end
        end
      else []
  end.

Definition getKingCaptures (board : Board) (r c : Z) (piece : Piece)
  : list Move :=
  '(dr, dc) ← DIRECTIONS; kingRay 8 board piece r c dr dc (r + dr) (c + dc) None.

Definition getCaptureMovesForPiece (board : Board) (r c : Z) (piece : Piece)
  : list Move :=
  if king piece then getKingCaptures board r c piece
  else getManCaptures board r c piece.

(** State of the scan of [getLegalMoves]: [captureMoves], [quietMoves],
    [hasCaptures]. *)
Record Scan := mkScan {
  captureMoves : list Move;
  quietMoves : list Move;
  hasCaptures : bool
}.

Definition scanSquare (board : Board) (color0 : Color) (s : Scan) (sq : Z * Z)
  : Scan :=
  let '(r, c) := sq in
  match cell board r c with
  | None => s
  | Some piece =>
      if negb (color_eqb (color piece) color0) then s
      else
        let caps := getCaptureMovesForPiece board r c piece in
        if (0 <? Z.of_nat (length caps)) then
          mkScan (captureMoves s ++ caps) (quietMoves s) true
        else if negb (hasCaptures s) then
          mkScan (captureMoves s)
                 (quietMoves s ++ getSimpleMovesForPiece board r c piece)
                 (hasCaptures s)
        else s
  end.

Definition getLegalMoves (board : Board) (color0 : Color)
  (pendingCapture : option Coords) : list Move :=
  match pendingCapture with
  | Some pc =>
      match cell board (r pc) (c pc) with
      | None => []
      | Some piece =>
          if negb (color_eqb (color piece) color0) then []
          else getCaptureMovesForPiece board (r pc) (c pc) piece
      end
  | None =>
      let s := foldl (scanSquare board color0) (mkScan [] [] false) squares in
      if hasCaptures s then captureMoves s else quietMoves s
  end.

(** ** Position hasher *)

(** One step of the generator returned by [createXorShift32]; [value] is kept
    as an unsigned 32-bit number ([>>>= 0]). *)
Definition xorShift32 (value : Z) : Z :=
  let value := Z.lxor value (Z.shiftl value 13 mod 2 ^ 32) in
  let value := Z.lxor value (Z.shiftr value 17) in
  let value := Z.lxor value (Z.shiftl value 5 mod 2 ^ 32) in
  value.

(** [random64(next)]: two draws, the state after the second one. *)
Definition random64 (st : Z) : Z * Z :=
  let hi := xorShift32 st in
  let lo := xorShift32 hi in
  (Z.lxor (Z.shiftl hi 32) lo, lo).

Fixpoint randoms64 (n : nat) (st : Z) : list Z * Z :=
  match n with
  | O => ([], st)
  | S n' =>
      let '(x, st1) := random64 st in
      let '(xs, st2) := randoms64 n' st1 in
      (x :: xs, st2)
  end.

Fixpoint randomRows (n : nat) (st : Z) : list (list Z) * Z :=
  match n with
  | O => ([], st)
  | S n' =>
      let '(row, st1) := randoms64 4 st in
      let '(rows, st2) := randomRows n' st1 in
      (row :: rows, st2)
  end.

(** [0x9e3779b9 >>> 0 || 1] *)
Definition zobristSeed : Z := 2654435769.

Record Zobrist := mkZobrist {
  zPieces : list (list Z);
  zTurnWhite : Z;
  zTurnBlack : Z;
  zPending : list Z;
  zNoPending : Z;
  zVariantClassic : Z;
  zVariantGiveaway : Z
}.

(** The module-level constants, drawn in the order of their declarations. *)
Definition zobrist : Zobrist :=
  Eval vm_compute in
  let '(pieces, st) := randomRows 64 zobristSeed in
  let '(tw, st) := random64 st in
  let '(tb, st) := random64 st in
  let '(pending, st) := randoms64 64 st in
  let '(np, st) := random64 st in
  let '(vc, st) := random64 st in
  let '(vg, st) := random64 st in
  mkZobrist pieces tw tb pending np vc vg.

Definition ZOBRIST_PIECES : list (list Z) := zPieces zobrist.
Definition ZOBRIST_TURN_WHITE : Z := zTurnWhite zobrist.
Definition ZOBRIST_TURN_BLACK : Z := zTurnBlack zobrist.
Definition ZOBRIST_PENDING : list Z := zPending zobrist.
Definition ZOBRIST_NO_PENDING : Z := zNoPending zobrist.
Definition ZOBRIST_VARIANT_CLASSIC : Z := zVariantClassic zobrist.
Definition ZOBRIST_VARIANT_GIVEAWAY : Z := zVariantGiveaway zobrist.

Definition boardIndex (r c : Z) : Z := r * BOARD_SIZE + c.

Definition pieceHashIndex (piece : Piece) : nat :=
  match color piece with
  | W => if king piece then 1%nat else 0%nat
  | B => if king piece then 3%nat else 2%nat
  end.

(** [ZOBRIST_PIECES[boardIndex(r, c)][pieceHashIndex(piece)]] *)
Definition pieceTerm (r c : Z) (piece : Piece) : Z :=
  default 0 (ZOBRIST_PIECES !! Z.to_nat (boardIndex r c)
               ≫= (λ row, row !! pieceHashIndex piece)).

Definition squareTerm (board : Board) (sq : Z * Z) : Z :=
  match cell board sq.1 sq.2 with
  | None => 0
  | Some piece => pieceTerm sq.1 sq.2 piece
  end.

Definition computeBoardHash (board : Board) : Z :=
  foldl (λ hash sq, Z.lxor hash (squareTerm board sq)) 0 squares.

Definition pendingCaptureHash (pendingCapture : option Coords) : Z :=
  match pendingCapture with
  | None => ZOBRIST_NO_PENDING
  | Some pc => default 0 (ZOBRIST_PENDING !! Z.to_nat (boardIndex (r pc) (c pc)))
  end.

Definition variantHash (variant : Variant) : Z :=
  match variant with
  | Classic => ZOBRIST_VARIANT_CLASSIC
  | Giveaway => ZOBRIST_VARIANT_GIVEAWAY
  end.

Definition turnHash (turn : Color) : Z :=
  match turn with W => ZOBRIST_TURN_WHITE | B => ZOBRIST_TURN_BLACK end.

(** [nodeCacheKey]; [state.variant] is a parameter. *)
Definition nodeCacheKey (variant : Variant) (node : GameNode) : Z :=
  let key := hash node in
  let key := Z.lxor key (turnHash (turn node)) in
  let key := Z.lxor key (pendingCaptureHash (pendingCapture node)) in
  let key := Z.lxor key (variantHash variant) in
  key.

(** ** Mutator *)

Inductive JsError :=
| SourceEmptyError   (* new Error("Invalid move: source square is empty") *)
| TypeError          (* property read on null *)
| SearchTimeoutError.

Inductive js (A : Type) :=
| Ok (a : A)
| Throw (e : JsError).

Arguments Ok {A} a.
Arguments Throw {A} e.

Record CapturedPieceUndo := mkCaptured {
  capR : Z;
  capC : Z;
  capPiece : Piece
}.

Record AppliedMoveUndo := mkUndo {
  move : Move;
  movedPiece : Piece;
  wasKing : bool;
  captured : list CapturedPieceUndo;
  prevHash : Z;
  prevTurn : Color;
  prevPendingCapture : option Coords
}.

(** The promotion test shared by [executeMove] and [applyMoveMutable]:
    the piece object after [piece.king = true] where it applies. *)
Definition promoted (piece : Piece) (toR : Z) : Piece :=
  if negb (king piece) then
    if (color_eqb (color piece) W && (toR =? 0))
       || (color_eqb (color piece) B && (toR =? BOARD_SIZE - 1))
    then mkPiece (color piece) true
    else piece
  else piece.

(** [executeMove] on the game board: the board after the call, and whether
    the call returned.  With an empty source square the squares are cleared
    first and [piece.king] then throws. *)
Definition executeMove (board : Board) (move : Move) : js unit * Board :=
  let piece := cell board (r (from move)) (c (from move)) in
  let board := setCell board (r (from move)) (c (from move)) None in
  let board := foldl (λ b cap, setCell b (r cap) (c cap) None) board
                     (captures move) in
  match piece with
  | None =>
      (Throw TypeError, setCell board (r (to move)) (c (to move)) None)
  | Some piece =>
      (Ok (), setCell board (r (to move)) (c (to move))
                (Some (promoted piece (r (to move)))))
  end.

Definition nextTurnState (board : Board) (turn : Color) (move : Move)
  : js (Color * option Coords) :=
  if 0 <? Z.of_nat (length (captures move)) then
    match cell board (r (to move)) (c (to move)) with
    | None => Throw TypeError
    | Some movedPiece =>
        let followUps :=
          getCaptureMovesForPiece board (r (to move)) (c (to move)) movedPiece in
        if 0 <? Z.of_nat (length followUps)
        then Ok (turn, Some (mkCoords (r (to move)) (c (to move))))
        else Ok (opposite turn, None)
    end
  else Ok (opposite turn, None).

(** One iteration of the capture loop of [applyMoveMutable]:
    board, running hash and [undo.captured]. *)
Definition captureStep (st : Board * Z * list CapturedPieceUndo)
  (capturedSquare : Coords) : Board * Z * list CapturedPieceUndo :=
  let '(board, nextHash, caps) := st in
  match cell board (r capturedSquare) (c capturedSquare) with
  | None => st
  | Some capturedPiece =>
      (setCell board (r capturedSquare) (c capturedSquare) None,
       Z.lxor nextHash
         (pieceTerm (r capturedSquare) (c capturedSquare) capturedPiece),
       caps ++ [mkCaptured (r capturedSquare) (c capturedSquare) capturedPiece])
  end.

(** [applyMoveMutable]: the result (the undo token, or the exception) and the
    node as the call leaves it. *)
Definition applyMoveMutable (node : GameNode) (move : Move)
  : js AppliedMoveUndo * GameNode :=
  let fr := from move in
  let dest := to move in
  match cell (board node) (r fr) (c fr) with
  | None => (Throw SourceEmptyError, node)
  | Some movedPiece =>
      let nextHash := Z.lxor (hash node) (pieceTerm (r fr) (c fr) movedPiece) in
      let board1 := setCell (board node) (r fr) (c fr) None in
      let '(board2, nextHash, caps) :=
        foldl captureStep (board1, nextHash, []) (captures move) in
      let movedPiece' := promoted movedPiece (r dest) in
      let board3 := setCell board2 (r dest) (c dest) (Some movedPiece') in
      let nextHash := Z.lxor nextHash (pieceTerm (r dest) (c dest) movedPiece') in
      let undo := mkUndo move movedPiece' (king movedPiece) caps
                         (hash node) (turn node) (pendingCapture node) in
      match nextTurnState board3 (turn node) move with
      | Throw e =>
          (Throw e, mkNode board3 nextHash (turn node) (pendingCapture node))
      | Ok (turn', pending') =>
          (Ok undo, mkNode board3 nextHash turn' pending')
      end
  end.

Definition undoMoveMutable (node : GameNode) (undo : AppliedMoveUndo)
  : GameNode :=
  let mv := move undo in
  let board := setCell (board node) (r (to mv)) (c (to mv)) None in
  let piece := mkPiece (color (movedPiece undo)) (wasKing undo) in
  let board := setCell board (r (from mv)) (c (from mv)) (Some piece) in
  let board := foldl (λ b cap, setCell b (capR cap) (capC cap)
                                 (Some (capPiece cap)))
                     board (captured undo) in
  mkNode board (prevHash undo) (prevTurn undo) (prevPendingCapture undo).

(** ** Evaluator *)

Definition isGiveawayVariant (variant : Variant) : bool :=
  match variant with Giveaway => true | Classic => false end.

Definition terminalScore (variant : Variant) (sideToMove perspectiveColor : Color)
  (depth : Z) : Z :=
  let perspectiveWins :=
    if isGiveawayVariant variant
    then color_eqb sideToMove perspectiveColor
    else negb (color_eqb sideToMove perspectiveColor) in
  if perspectiveWins then WIN_SCORE - depth else - WIN_SCORE + depth.

(** The loop over [DIRECTIONS] returns [true] at the first direction that
    passes the three tests. *)
Definition isPotentialVictim (board : Board) (r c : Z) (victimColor : Color)
  : bool :=
  let attackerColor := opposite victimColor in
  existsb (λ '(dr, dc),
             let attackerR := r - dr in
             let attackerC := c - dc in
             let landingR := r + dr in
             let landingC := c + dc in
             if negb (isInside attackerR attackerC)
                || negb (isInside landingR landingC) then false
             else match cell board attackerR attackerC with
                  | None => false
                  | Some attacker =>
                      if negb (color_eqb (color attacker) attackerColor)
                      then false
                      else negb (bool_decide
                                   (is_Some (cell board landingR landingC)))
                  end)
          DIRECTIONS.

(** The counters of [evaluateGiveawayPosition]. *)
Record GiveawayCounts := mkCounts {
  myMen : Z;
  myKings : Z;
  oppMen : Z;
  oppKings : Z;
  myProgress : Z;
  oppProgress : Z;
  myVictims : Z;
  oppVictims : Z
}.

Definition giveawaySquare (board : Board) (perspectiveColor : Color)
  (k : GiveawayCounts) (sq : Z * Z) : GiveawayCounts :=
  let '(r, c) := sq in
  match cell board r c with
  | None => k
  | Some piece =>
      let isMine := color_eqb (color piece) perspectiveColor in
      let k :=
        if king piece then
          if isMine
          then mkCounts (myMen k) (myKings k + 1) (oppMen k) (oppKings k)
                        (myProgress k) (oppProgress k) (myVictims k)
                        (oppVictims k)
          else mkCounts (myMen k) (myKings k) (oppMen k) (oppKings k + 1)
                        (myProgress k) (oppProgress k) (myVictims k)
                        (oppVictims k)
        else
          let progress :=
            match color piece with W => BOARD_SIZE - 1 - r | B => r end in
          if isMine
          then mkCounts (myMen k + 1) (myKings k) (oppMen k) (oppKings k)
                        (myProgress k + progress) (oppProgress k)
                        (myVictims k) (oppVictims k)
          else mkCounts (myMen k) (myKings k) (oppMen k + 1) (oppKings k)
                        (myProgress k) (oppProgress k + progress)
                        (myVictims k) (oppVictims k) in
      if isPotentialVictim board r c (color piece) then
        if isMine
        then mkCounts (myMen k) (myKings k) (oppMen k) (oppKings k)
                      (myProgress k) (oppProgress k) (myVictims k + 1)
                      (oppVictims k)
        else mkCounts (myMen k) (myKings k) (oppMen k) (oppKings k)
                      (myProgress k) (oppProgress k) (myVictims k)
                      (oppVictims k + 1)
      else k
  end.

Definition evaluateGiveawayPosition (node : GameNode) (perspectiveColor : Color)
  (legalMoves : list Move) : Z :=
  let k := foldl (giveawaySquare (board node) perspectiveColor)
                 (mkCounts 0 0 0 0 0 0 0 0) squares in
  let myPieces := myMen k + myKings k in
  let oppPieces := oppMen k + oppKings k in
  if myPieces =? 0 then WIN_SCORE
  else if oppPieces =? 0 then - WIN_SCORE
  else
    let score := 0 in
    let score := score + (oppMen k - myMen k) * 170 in
    let score := score + (oppKings k - myKings k) * 300 in
    let score := score + (oppProgress k - myProgress k) * 8 in
    let score := score + (myVictims k - oppVictims k) * 52 in
    let score :=
      if (myMen k =? 0) && (0 <? myKings k) then score - myKings k * 34
      else score in
    let score :=
      if (oppMen k =? 0) && (0 <? oppKings k) then score + oppKings k * 34
      else score in
    let mobility := Z.of_nat (length legalMoves) * 4 in
    let score :=
      score + (if color_eqb (turn node) perspectiveColor
               then - mobility else mobility) in
    score.

(** [score], [myCount], [oppCount] of the classic evaluation. *)
Definition classicSquare (board : Board) (perspectiveColor : Color)
  (acc : Z * Z * Z) (sq : Z * Z) : Z * Z * Z :=
  let '(score, myCount, oppCount) := acc in
  let '(r, c) := sq in
  match cell board r c with
  | None => acc
  | Some piece =>
      let value := if king piece then 320 else 120 in
      let value :=
        if negb (king piece) then
          let progress :=
            match color piece with W => BOARD_SIZE - 1 - r | B => r end in
          let value := value + progress * 9 in
          let homeRow :=
            match color piece with W => BOARD_SIZE - 1 | B => 0 end in
          if r =? homeRow then value + 10 else value
        else if (r =? 0) || (r =? BOARD_SIZE - 1) || (c =? 0)
                || (c =? BOARD_SIZE - 1)
        then value - 8
        else value in
      let value :=
        if (2 <=? r) && (r <=? 5) && (2 <=? c) && (c <=? 5)
        then value + 10 else value in
      let supportRow := match color piece with W => r + 1 | B => r - 1 end in
      let sameColorAt (r' c' : Z) :=
        isInside r' c'
        && match cell board r' c' with
           | Some p => color_eqb (color p) (color piece)
           | None => false
           end in
      let value :=
        if sameColorAt supportRow (c - 1) || sameColorAt supportRow (c + 1)
        then value + 7 else value in
      if color_eqb (color piece) perspectiveColor
      then (score + value, myCount + 1, oppCount)
      else (score - value, myCount, oppCount + 1)
  end.

Definition evaluatePosition (variant : Variant) (node : GameNode)
  (perspectiveColor : Color) (legalMoves : option (list Move)) : Z :=
  let availableMoves :=
    match legalMoves with
    | Some moves => moves
    | None => getLegalMoves (board node) (turn node) (pendingCapture node)
    end in
  if Z.of_nat (length availableMoves) =? 0 then
    terminalScore variant (turn node) perspectiveColor 0
  else if isGiveawayVariant variant then
    evaluateGiveawayPosition node perspectiveColor availableMoves
  else
    let '(score, myCount, oppCount) :=
      foldl (classicSquare (board node) perspectiveColor) (0, 0, 0) squares in
    if myCount =? 0 then
      (if isGiveawayVariant variant then WIN_SCORE else - WIN_SCORE)
    else if oppCount =? 0 then
      (if isGiveawayVariant variant then - WIN_SCORE else WIN_SCORE)
    else
      let mobility := Z.of_nat (length availableMoves) * 3 in
      let score :=
        score + (if color_eqb (turn node) perspectiveColor
                 then mobility else - mobility) in
      if isGiveawayVariant variant then - score else score.

(** ** Search engine *)

(** The numbers that occur as scores and window bounds: integers and the two
    infinities. *)
Inductive Score := NegInf | Fin (z : Z) | PosInf.

Definition score_ltb (a b : Score) : bool :=
  match a, b with
  | NegInf, NegInf => false
  | NegInf, _ => true
  | Fin x, Fin y => x <? y
  | Fin _, PosInf => true
  | Fin _, NegInf => false
  | PosInf, _ => false
  end.

Definition score_leb (a b : Score) : bool := negb (score_ltb b a).

(** [Math.max] and [Math.min] *)
Definition score_max (a b : Score) : Score := if score_ltb a b then b else a.
Definition score_min (a b : Score) : Score := if score_ltb b a then b else a.

(** [score - n] for a finite [n] *)
Definition score_sub (a : Score) (n : Z) : Score :=
  match a with
  | Fin x => Fin (x - n)
  | _ => a
  end.

Record DifficultyConfig := mkConfig {
  maxDepth : nat;
  timeMs : Z;
  randomChance : Q;
  noise : Z;
  hintDepth : nat;
  hintTimeMs : Z
}.

Definition DIFFICULTIES (d : Difficulty) : DifficultyConfig :=
  match d with
  | Easy => mkConfig 4 260 (22 # 100) 120 6 900
  | Medium => mkConfig 6 750 (5 # 100) 24 8 1600
  | Hard => mkConfig 8 1500 0%Q 0 9 1500
  end.

Inductive TTFlag := Exact | Lower | Upper.

Record TTEntry := mkTT {
  ttDepth : nat;
  ttScore : Score;
  ttBestMove : option Move;
  ttFlag : TTFlag
}.

Record SearchResult := mkResult {
  resMove : option Move;
  resScore : Score;
  depthReached : nat
}.

(** What a search call works on: the node it mutates, the transposition
    table, [clock.nodes], and the number of [Date.now()] calls made. *)
Record SearchState := mkSearch {
  sNode : GameNode;
  sTable : gmap Z TTEntry;
  sNodes : Z;
  sTime : nat
}.

Definition setNode (st : SearchState) (node : GameNode) : SearchState :=
  mkSearch node (sTable st) (sNodes st) (sTime st).

(** The fields of [state] that the search reads ([state.variant] is a
    parameter of the section below). *)
Record GameState := mkState {
  state_board : Board;
  state_turn : Color;
  state_pendingCapture : option Coords;
  state_difficulty : Difficulty
}.

(** The numbers of calls of [Date.now()] and of [Math.random()] so far. *)
Record World := mkWorld {
  wTime : nat;
  wRandom : nat
}.

Definition sameMove (a b : Move) : bool :=
  if negb (r (from a) =? r (from b)) || negb (c (from a) =? c (from b))
     || negb (r (to a) =? r (to b)) || negb (c (to a) =? c (to b))
  then false
  else if negb (Z.of_nat (length (captures a)) =? Z.of_nat (length (captures b)))
  then false
  else forallb (λ '(x, y), (r x =? r y) && (c x =? c y))
               (zip (captures a) (captures b)).

(** [Math.abs(3.5 - r) + Math.abs(3.5 - c)] is a whole number for whole
    [r] and [c]; five times it is computed on the doubled distances. *)
Definition moveOrderingScore (board : Board) (move : Move) : Z :=
  let score := Z.of_nat (length (captures move)) * 1000 in
  match cell board (r (from move)) (c (from move)) with
  | None => score
  | Some piece =>
      let score :=
        if negb (king piece) then
          let promotionRow :=
            match color piece with W => 0 | B => BOARD_SIZE - 1 end in
          if r (to move) =? promotionRow then score + 700 else score
        else score + 70 in
      let centerDistance2 :=
        Z.abs (7 - 2 * r (to move)) + Z.abs (7 - 2 * c (to move)) in
      score + (40 - centerDistance2 * 5 / 2)
  end.

(** [Array.prototype.sort] is stable; with the comparator
    [right.score - left.score] an entry goes in front of the entries that
    followed it and do not score higher. *)
Fixpoint insertScored (x : Move * Z) (l : list (Move * Z)) : list (Move * Z) :=
  match l with
  | [] => [x]
  | y :: l' => if x.2 <? y.2 then y :: insertScored x l' else x :: y :: l'
  end.

Definition sortScored (l : list (Move * Z)) : list (Move * Z) :=
  foldr insertScored [] l.

Definition orderMoves (board : Board) (moves : list Move)
  (preferredMove : option Move) : list Move :=
  let scored :=
    map (λ move,
           let score := moveOrderingScore board move in
           let score :=
             match preferredMove with
             | Some preferred =>
                 if sameMove move preferred then score + 10000 else score
             | None => score
             end in
           (move, score))
        moves in
  map fst (sortScored scored).

(** The variables of the alpha-beta loop over the moves of a node. *)
Record LoopState := mkLoop {
  lAlpha : Score;
  lBeta : Score;
  lBestScore : Score;
  lBestMove : option Move
}.

(** The variables of one depth iteration at the root. *)
Record RootLoop := mkRoot {
  depthBestMove : option Move;
  depthBestScore : Score;
  depthScores : list (option Move * Score)
}.

(** The variables of the iterative deepening. *)
Record Deepening := mkDeepening {
  bestMove : option Move;
  bestScore : Score;
  deepReached : nat;
  scoredAtDepth : list (option Move * Score)
}.

Section Search.

(** [state.variant] *)
Variable variant : Variant.

(** The value returned by the [n]-th call of [Date.now()]. *)
Variable dateNow : nat → Z.

(** The outcome of the [n]-th call of [Math.random()] where it is used:
    whether it is below a chance, and the index
    [Math.floor(Math.random() * len)]. *)
Variable randomBelow : nat → Q → bool.
Variable randomIndex : nat → nat → nat.

Definition checkSearchDeadline (deadline : Z) (st : SearchState)
  : js unit * SearchState :=
  let nodes := sNodes st + 1 in
  let st := mkSearch (sNode st) (sTable st) nodes (sTime st) in
  if negb (Z.land nodes 63 =? 0) then (Ok (), st)
  else
    let now := dateNow (sTime st) in
    let st := mkSearch (sNode st) (sTable st) (sNodes st) (S (sTime st)) in
    if deadline <=? now then (Throw SearchTimeoutError, st) else (Ok (), st).

(** The loop [for (const move of ordered)] of [minimax]; [search] is the
    recursive call at [depth - 1].  The [finally] block undoes the move
    whether the call returned or threw. *)
Fixpoint minimaxMoves
  (search : Score → Score → SearchState → js Score * SearchState)
  (maximizing : bool) (moves : list Move) (ls : LoopState) (st : SearchState)
  : js LoopState * SearchState :=
  match moves with
  | [] => (Ok ls, st)
  | move :: rest =>
      match applyMoveMutable (sNode st) move with
      | (Throw e, node1) => (Throw e, setNode st node1)
      | (Ok undo, node1) =>
          let '(res, st1) := search (lAlpha ls) (lBeta ls) (setNode st node1) in
          let st2 := setNode st1 (undoMoveMutable (sNode st1) undo) in
          match res with
          | Throw e => (Throw e, st2)
          | Ok childScore =>
              let ls' :=
                if maximizing then
                  let better := score_ltb (lBestScore ls) childScore in
                  let bestScore :=
                    if better then childScore else lBestScore ls in
                  let bestMove :=
                    if better then Some move else lBestMove ls in
                  mkLoop (score_max (lAlpha ls) bestScore) (lBeta ls)
                         bestScore bestMove
                else
                  let better := score_ltb childScore (lBestScore ls) in
                  let bestScore :=
                    if better then childScore else lBestScore ls in
                  let bestMove :=
                    if better then Some move else lBestMove ls in
                  mkLoop (lAlpha ls) (score_min (lBeta ls) bestScore)
                         bestScore bestMove in
              if score_leb (lBeta ls') (lAlpha ls') then (Ok ls', st2)
              else minimaxMoves search maximizing rest ls' st2
          end
      end
  end.

Fixpoint minimax (rootColor : Color) (deadline : Z) (depth : nat)
  (alpha beta : Score) (st : SearchState) : js Score * SearchState :=
  match checkSearchDeadline deadline st with
  | (Throw e, st) => (Throw e, st)
  | (Ok _, st) =>
      let node := sNode st in
      let legalMoves :=
        getLegalMoves (board node) (turn node) (pendingCapture node) in
      if Z.of_nat (length legalMoves) =? 0 then
        (Ok (Fin (terminalScore variant (turn node) rootColor
                    (Z.of_nat depth))), st)
      else
        match depth with
        | O =>
            (Ok (Fin (evaluatePosition variant node rootColor
                        (Some legalMoves))), st)
        | S depth' =>
            let alphaOriginal := alpha in
            let betaOriginal := beta in
            let cacheKey := nodeCacheKey variant node in
            let cached := sTable st !! cacheKey in
            (* the transposition probe: a score to return at once, or the
               window and the preferred move to search with *)
            let probe : Score + (Score * Score * option Move) :=
              match cached with
              | Some entry =>
                  if (depth <=? ttDepth entry)%nat then
                    let preferredMove := ttBestMove entry in
                    match ttFlag entry with
                    | Exact => inl (ttScore entry)
                    | flag =>
                        let alpha :=
                          match flag with
                          | Lower => score_max alpha (ttScore entry)
                          | _ => alpha
                          end in
                        let beta :=
                          match flag with
                          | Upper => score_min beta (ttScore entry)
                          | _ => beta
                          end in
                        if score_leb beta alpha then inl (ttScore entry)
                        else inr (alpha, beta, preferredMove)
                    end
                  else inr (alpha, beta, ttBestMove entry)
              | None => inr (alpha, beta, None)
              end in
            match probe with
            | inl score => (Ok score, st)
            | inr (alpha, beta, preferredMove) =>
                let maximizing := color_eqb (turn node) rootColor in
                let ordered :=
                  orderMoves (board node) legalMoves preferredMove in
                let bestMove := head ordered in
                let bestScore := if maximizing then NegInf else PosInf in
                match minimaxMoves (minimax rootColor deadline depth')
                        maximizing ordered
                        (mkLoop alpha beta bestScore bestMove) st with
                | (Throw e, st') => (Throw e, st')
                | (Ok ls, st') =>
                    let bestScore := lBestScore ls in
                    let flag :=
                      if score_leb bestScore alphaOriginal then Upper
                      else if score_leb betaOriginal bestScore then Lower
                      else Exact in
                    (Ok bestScore,
                     mkSearch (sNode st')
                       (<[cacheKey := mkTT depth bestScore (lBestMove ls) flag]>
                          (sTable st'))
                       (sNodes st') (sTime st'))
                end
            end
        end
  end.

(** The loop [for (const move of orderedRootMoves)] of one depth
    iteration of [chooseBestMove]; [depth'] is [depth - 1]. *)
Fixpoint rootMoves (side : Color) (deadline : Z) (depth' : nat)
  (moves : list Move) (rl : RootLoop) (st : SearchState)
  : js RootLoop * SearchState :=
  match moves with
  | [] => (Ok rl, st)
  | move :: rest =>
      let now := dateNow (sTime st) in
      let st := mkSearch (sNode st) (sTable st) (sNodes st) (S (sTime st)) in
      if deadline <=? now then (Throw SearchTimeoutError, st)
      else
        match applyMoveMutable (sNode st) move with
        | (Throw e, node1) => (Throw e, setNode st node1)
        | (Ok undo, node1) =>
            let '(res, st1) :=
              minimax side deadline depth' NegInf PosInf (setNode st node1) in
            let st2 := setNode st1 (undoMoveMutable (sNode st1) undo) in
            match res with
            | Throw e => (Throw e, st2)
            | Ok score =>
                let better := score_ltb (depthBestScore rl) score in
                let rl' :=
                  mkRoot (if better then Some move else depthBestMove rl)
                         (if better then score else depthBestScore rl)
                         (depthScores rl ++ [(Some move, score)]) in
                rootMoves side deadline depth' rest rl' st2
            end
        end
  end.

(** One depth iteration: the body of the [try] block. *)
Definition searchDepth (side : Color) (deadline : Z) (legalMoves : list Move)
  (depth : nat) (hint : option Move) (st : SearchState)
  : js RootLoop * SearchState :=
  let orderedRootMoves := orderMoves (board (sNode st)) legalMoves hint in
  rootMoves side deadline (depth - 1) orderedRootMoves
            (mkRoot (head orderedRootMoves) NegInf []) st.

(** The loop [for (let depth = 1; depth <= maxDepth; depth += 1)];
    [depths] are the depths still to run.  A timeout thrown inside the
    [try] block is caught here and ends the loop; any other exception is
    thrown again. *)
Fixpoint deepen (side : Color) (deadline : Z) (legalMoves : list Move)
  (depths : list nat) (d : Deepening) (st : SearchState)
  : js Deepening * SearchState :=
  match depths with
  | [] => (Ok d, st)
  | depth :: rest =>
      let now := dateNow (sTime st) in
      let st := mkSearch (sNode st) (sTable st) (sNodes st) (S (sTime st)) in
      if deadline <=? now then (Ok d, st)
      else
        match searchDepth side deadline legalMoves depth (bestMove d) st with
        | (Ok rl, st') =>
            deepen side deadline legalMoves rest
                   (mkDeepening (depthBestMove rl) (depthBestScore rl) depth
                                (depthScores rl))
                   st'
        | (Throw SearchTimeoutError, st') => (Ok d, st')
        | (Throw e, st') => (Throw e, st')
        end
  end.

Definition chooseBestMove (state : GameState) (side : Color) (mode : Mode)
  (w : World) : js SearchResult * World :=
  let board0 := state_board state in   (* cloneBoard(state.board) *)
  let root := mkNode board0 (computeBoardHash board0) (state_turn state)
                     (state_pendingCapture state) in
  let legalMoves :=
    getLegalMoves (board root) (turn root) (pendingCapture root) in
  if Z.of_nat (length legalMoves) =? 0 then
    (Ok (mkResult None (Fin (terminalScore variant (turn root) side 0)) 0), w)
  else if negb (color_eqb (turn root) side) then
    (Ok (mkResult None (Fin (- WIN_SCORE)) 0), w)
  else
    let config :=
      match mode with
      | ModeHint => DIFFICULTIES Hard
      | ModeAi => DIFFICULTIES (state_difficulty state)
      end in
    let isAi := match mode with ModeAi => true | ModeHint => false end in
    let drawsChance := isAi && negb (Qle_bool (randomChance config) 0) in
    let shortCircuit :=
      drawsChance && randomBelow (wRandom w) (randomChance config) in
    let w := if drawsChance then mkWorld (wTime w) (S (wRandom w)) else w in
    if shortCircuit then
      (Ok (mkResult
             (legalMoves !! randomIndex (wRandom w) (length legalMoves))
             (Fin 0) 0),
       mkWorld (wTime w) (S (wRandom w)))
    else
      let maxDepth := if isAi then maxDepth config else hintDepth config in
      let timeMs := if isAi then timeMs config else hintTimeMs config in
      let deadline := dateNow (wTime w) + timeMs in
      let st := mkSearch root ∅ 0 (S (wTime w)) in
      let d0 := mkDeepening (head legalMoves) NegInf 0
                            [(head legalMoves, NegInf)] in
      match deepen side deadline legalMoves (seq 1 maxDepth) d0 st with
      | (Throw e, st') => (Throw e, mkWorld (sTime st') (wRandom w))
      | (Ok d, st') =>
          let w := mkWorld (sTime st') (wRandom w) in
          if isAi && (1 <? Z.of_nat (length (scoredAtDepth d)))
             && (0 <? noise config) then
            let candidates :=
              List.filter (λ entry, score_leb (score_sub (bestScore d)
                                                     (noise config))
                                              entry.2)
                          (scoredAtDepth d) in
            if 0 <? Z.of_nat (length candidates) then
              match candidates !! randomIndex (wRandom w) (length candidates)
              with
              | Some picked =>
                  (Ok (mkResult picked.1 picked.2 (deepReached d)),
                   mkWorld (wTime w) (S (wRandom w)))
              | None =>
                  (Throw TypeError, mkWorld (wTime w) (S (wRandom w)))
              end
            else
              (Ok (mkResult (bestMove d) (bestScore d) (deepReached d)), w)
          else
            (Ok (mkResult (bestMove d) (bestScore d) (deepReached d)), w)
      end.

End Search.

(** ** Notions used to state the properties *)

(** What every generated capture looks like: it starts on the piece's square,
    lands on an empty square of the grid and removes exactly one piece of the
    other colour. *)
Definition capture_shape (board : Board) (piece : Piece) (r0 c0 : Z) (m : Move)
  : Prop :=
  from m = mkCoords r0 c0
  ∧ isInside (r (to m)) (c (to m)) = true
  ∧ cell board (r (to m)) (c (to m)) = None
  ∧ ∃ cap q, captures m = [cap]
             ∧ isInside (r cap) (c cap) = true
             ∧ cell board (r cap) (c cap) = Some q
             ∧ color q ≠ color piece.

(** What every generated quiet move looks like. *)
Definition quiet_shape (board : Board) (r0 c0 : Z) (m : Move) : Prop :=
  from m = mkCoords r0 c0
  ∧ isInside (r (to m)) (c (to m)) = true
  ∧ cell board (r (to m)) (c (to m)) = None
  ∧ captures m = [].

(** The scan of [getLegalMoves], square by square. *)
Definition capturesAt (board : Board) (color0 : Color) (sq : Z * Z) : list Move :=
  match cell board sq.1 sq.2 with
  | Some piece =>
      if color_eqb (color piece) color0
      then getCaptureMovesForPiece board sq.1 sq.2 piece else []
  | None => []
  end.

Definition quietAt (board : Board) (color0 : Color) (sq : Z * Z) : list Move :=
  match cell board sq.1 sq.2 with
  | Some piece =>
      if color_eqb (color piece) color0
      then getSimpleMovesForPiece board sq.1 sq.2 piece else []
  | None => []
  end.

(** The union of the capture moves, and of the non-capturing moves, of all
    the pieces of a side, in scan order. *)
Definition allCaptureMoves (board : Board) (color0 : Color) : list Move :=
  sq ← squares; capturesAt board color0 sq.

Definition allQuietMoves (board : Board) (color0 : Color) : list Move :=
  sq ← squares; quietAt board color0 sq.

Definition nonEmpty {A} (l : list A) : bool := 0 <? Z.of_nat (length l).

(** A move that goes toward the opponent's back rank: the row decreases for
    white and increases for dark. *)
Definition goesForward (piece : Piece) (m : Move) : Prop :=
  match color piece with
  | W => r (to m) < r (from m)
  | B => r (from m) < r (to m)
  end.

Definition isDiagonal (m : Move) : Prop :=
  Z.abs (r (to m) - r (from m)) = Z.abs (c (to m) - c (from m)).

Definition whiteMan : Piece := mkPiece W false.
Definition darkMan : Piece := mkPiece B false.
Definition whiteKing : Piece := mkPiece W true.

(** Boards used as concrete inputs: a list of occupied squares placed on the
    empty board. *)
Definition place (pieces : list (Z * Z * Piece)) : Board :=
  foldl (λ b '(r, c, p), setCell b r c (Some p)) createEmptyBoard pieces.

(** A white man on (4,3) next to a dark man on (5,4), behind it. *)
Definition boardBackwardCapture : Board :=
  place [(4, 3, whiteMan); (5, 4, darkMan)].

(** A white man on (2,3) that captures the dark man on (1,4) and lands on the
    dark back rank, where it is promoted; a second dark man on (1,6). *)
Definition boardPromotion : Board :=
  place [(2, 3, whiteMan); (1, 4, darkMan); (1, 6, darkMan)].

(** After the specification's words: the hash of a position recomputed from
    scratch from the board, the side to move, the forced-continuation square
    and the variant.  The source has no function of that name; the four
    terms are those of [computeBoardHash] and of [nodeCacheKey], and the
    definition is there to be compared with the [hash] that the mutator
    maintains. *)
Definition recomputedPositionHash (variant : Variant) (board : Board)
  (turn : Color) (pendingCapture : option Coords) : Z :=
  Z.lxor (Z.lxor (Z.lxor (computeBoardHash board) (turnHash turn))
                 (pendingCaptureHash pendingCapture))
         (variantHash variant).

(** A make/unmake session on a node, as the search runs it: legal moves are
    applied, and the most recent move not yet taken back is undone with the
    token its application returned.  [Session n0 n stack] says that [n] is
    reached from [n0] with the tokens in [stack] still to be undone. *)
Inductive Session (n0 : GameNode) : GameNode → list AppliedMoveUndo → Prop :=
| session_start : Session n0 n0 []
| session_apply (n n' : GameNode) (stack : list AppliedMoveUndo) (m : Move)
    (undo : AppliedMoveUndo) :
    Session n0 n stack →
    m ∈ getLegalMoves (board n) (turn n) (pendingCapture n) →
    applyMoveMutable n m = (Ok undo, n') →
    Session n0 n' (undo :: stack)
| session_undo (n : GameNode) (stack : list AppliedMoveUndo)
    (undo : AppliedMoveUndo) :
    Session n0 n (undo :: stack) →
    Session n0 (undoMoveMutable n undo) stack.

(** The invariant of the search on its working node. *)
Definition node_ok (n : GameNode) : Prop :=
  wf_board (board n) ∧ hash n = computeBoardHash (board n).

(** Every token of the stack was returned by applying a legal move to a node
    that satisfied the invariant. *)
Fixpoint stack_ok (n : GameNode) (stack : list AppliedMoveUndo) : Prop :=
  match stack with
  | [] => True
  | undo :: stack' =>
      ∃ prev m,
        node_ok prev ∧ stack_ok prev stack'
        ∧ m ∈ getLegalMoves (board prev) (turn prev) (pendingCapture prev)
        ∧ applyMoveMutable prev m = (Ok undo, n)
  end.

Definition initialNode : GameNode :=
  mkNode createInitialBoard (computeBoardHash createInitialBoard) W None.

(** The number of pieces a side has on the board. *)
Definition countPieces (board : Board) (color0 : Color) : Z :=
  foldl (λ n sq, match cell board sq.1 sq.2 with
                 | Some piece => if color_eqb (color piece) color0
                                 then n + 1 else n
                 | None => n
                 end) 0 squares.

(** White's last man on (5,0), far from the dark man on (0,1). *)
Definition boardLastMan : Board := place [(5, 0, whiteMan); (0, 1, darkMan)].

(** A dark man on (5,0) facing white men on (7,0) and (7,2); white to move. *)
Definition boardTwoWins : Board :=
  place [(5, 0, darkMan); (7, 0, whiteMan); (7, 2, whiteMan)].

Definition stateTwoWins : GameState := mkState boardTwoWins W None Hard.

(** A clock that never reaches the deadline, and random draws that are never
    consulted at difficulty [Hard]. *)
Definition clockStopped : nat → Z := λ _, 0.
Definition neverBelow : nat → Q → bool := λ _ _, false.
Definition firstIndex : nat → nat → nat := λ _ _, 0%nat.

(** An exception that the iterative deepening absorbs. *)
Definition benign {A} (res : js A) : Prop :=
  match res with
  | Ok _ => True
  | Throw e => e = SearchTimeoutError
  end.

(** [(m, s)] is an entry of [scores] and no entry scores higher. *)
Definition isBestOf (scores : list (option Move * Score)) (m : option Move)
  (s : Score) : Prop :=
  (m, s) ∈ scores ∧ ∀ e, e ∈ scores → score_leb e.2 s = true.

(** What the search relies on at every call that works on the node: the call
    leaves the node as it found it, and if it throws, it throws the
    timeout. *)
Definition restores {A} (call : SearchState → js A * SearchState) : Prop :=
  ∀ st, wf_board (board (sNode st)) →
        sNode (call st).2 = sNode st ∧ benign (call st).1.

(** The invariant of the loop over the root moves of one depth: nothing has
    been scored yet, or the best move and score are the best of the entries
    scored so far. *)
Definition root_inv (rest : list Move) (rl : RootLoop) : Prop :=
  (depthScores rl = [] ∧ depthBestScore rl = NegInf
   ∧ depthBestMove rl = head rest)
  ∨ isBestOf (depthScores rl) (depthBestMove rl) (depthBestScore rl).

(** The positions [chooseBestMove] is given: a grid, and a forced-continuation
    square, if any, on it. *)
Definition wf_state (state : GameState) : Prop :=
  wf_board (state_board state)
  ∧ ∀ pc, state_pendingCapture state = Some pc →
          isInside (r pc) (c pc) = true.

(** The settings [chooseBestMove] searches with. *)
Definition searchConfig (state : GameState) (mode : Mode) : DifficultyConfig :=
  match mode with
  | ModeHint => DIFFICULTIES Hard
  | ModeAi => DIFFICULTIES (state_difficulty state)
  end.

Definition searchMaxDepth (state : GameState) (mode : Mode) : nat :=
  match mode with
  | ModeAi => maxDepth (searchConfig state mode)
  | ModeHint => hintDepth (searchConfig state mode)
  end.

Definition searchTimeMs (state : GameState) (mode : Mode) : Z :=
  match mode with
  | ModeAi => timeMs (searchConfig state mode)
  | ModeHint => hintTimeMs (searchConfig state mode)
  end.


Section SearchNotions.

Variable variant : Variant.
Variable dateNow : nat → Z.
Variable randomBelow : nat → Q → bool.

(** [chooseBestMove] returns a random legal move without searching. *)
Definition shortCircuits (state : GameState) (mode : Mode) (w : World) : bool :=
  match mode with
  | ModeAi =>
      negb (Qle_bool (randomChance (searchConfig state mode)) 0)
      && randomBelow (wRandom w) (randomChance (searchConfig state mode))
  | ModeHint => false
  end.

(** The variables of the deepening hold the outcome of a depth iteration
    that ran to its end: every legal move was scored by [minimax], and the
    best move and score are the best of these entries. *)
Definition completedDepth (side : Color) (deadline : Z)
  (legalMoves : list Move) (d : Deepening) : Prop :=
  (1 ≤ deepReached d)%nat
  ∧ (∃ hint st rl st',
        searchDepth variant dateNow side deadline legalMoves (deepReached d)
                    hint st = (Ok rl, st')
        ∧ bestMove d = depthBestMove rl
        ∧ bestScore d = depthBestScore rl
        ∧ scoredAtDepth d = depthScores rl)
  ∧ (scoredAtDepth d).*1 ≡ₚ Some <$> legalMoves
  ∧ isBestOf (scoredAtDepth d) (bestMove d) (bestScore d).

(** No depth iteration ran to its end: the variables hold their initial
    values, the first legal move with score [-Infinity]. *)
Definition noDepthCompleted (legalMoves : list Move) (d : Deepening) : Prop :=
  deepReached d = 0%nat
  ∧ bestMove d = head legalMoves
  ∧ bestScore d = NegInf
  ∧ scoredAtDepth d = [(head legalMoves, NegInf)].

Definition deep_inv (side : Color) (deadline : Z) (legalMoves : list Move)
  (d : Deepening) : Prop :=
  noDepthCompleted legalMoves d ∨ completedDepth side deadline legalMoves d.

(** The iteration after the one recorded in [d] did not run to its end:
    at some state of the search on [root] the deadline had passed before
    it started, or it was started with the best move of [d] as its hint
    and threw the timeout. *)
Definition interrupted (side : Color) (deadline : Z)
  (legalMoves : list Move) (root : GameNode) (d : Deepening) : Prop :=
  ∃ st, sNode st = root
    ∧ (deadline <= dateNow (sTime st)
       ∨ (searchDepth variant dateNow side deadline legalMoves
                      (S (deepReached d)) (bestMove d)
                      (mkSearch (sNode st) (sTable st) (sNodes st)
                                (S (sTime st)))).1
         = Throw SearchTimeoutError).

End SearchNotions.

(** A clock that passes the deadline at its twelfth reading: the first depth
    iteration from the initial position runs to its end (seven root moves)
    and the second one is cut at its second root move. *)
Definition clockExpiring : nat → Z := λ n, if (n <? 11)%nat then 0 else 1000.

(** Random draws that always pick the last candidate. *)
Definition lastIndex : nat → nat → nat := λ _ len, (len - 1)%nat.

Definition stateInitialEasy : GameState := mkState createInitialBoard W None Easy.

Definition valueTerm (sq : Z * Z) (v : option Piece) : Z :=
  match v with
  | None => 0
  | Some piece => pieceTerm sq.1 sq.2 piece
  end.

(** Bounds on the counters of [evaluateGiveawayPosition] after [n] squares
    of the grid. *)
Definition counts_bounded (n : Z) (k : GiveawayCounts) : Prop :=
  0 <= myMen k ∧ 0 <= myKings k ∧ 0 <= oppMen k ∧ 0 <= oppKings k
  ∧ myMen k + myKings k + oppMen k + oppKings k <= n
  ∧ 0 <= myProgress k <= 7 * myMen k
  ∧ 0 <= oppProgress k <= 7 * oppMen k
  ∧ 0 <= myVictims k ∧ 0 <= oppVictims k
  ∧ myVictims k + oppVictims k <= n.

(** The number of steps after which a ray that stands on row [nr] and moves
    by [dr] has left the grid. *)
Definition stepsLeft (dr nr : Z) : Z := if dr =? 1 then 8 - nr else nr + 1.

(** A square of the grid that holds no piece. *)
Definition emptyAt (board : Board) (r c : Z) : Prop :=
  isInside r c = true ∧ cell board r c = None.

(** The square [s] steps away from [(r0, c0)] in the direction [(dr, dc)]. *)
Definition ray (r0 c0 dr dc : Z) (s : nat) : Coords :=
  mkCoords (r0 + Z.of_nat s * dr) (c0 + Z.of_nat s * dc).

(** A square of the grid that holds nothing, and one that holds a piece of
    the other colour than [piece]. *)
Definition emptySquare (board : Board) (p : Coords) : Prop :=
  emptyAt board (r p) (c p).

Definition enemySquareOf (board : Board) (piece : Piece) (p : Coords) : Prop :=
  isInside (r p) (c p) = true
  ∧ ∃ q, cell board (r p) (c p) = Some q ∧ color q ≠ color piece.

(** A move that travels along one of the four diagonals and, when it
    captures, captures one square strictly between its two ends. *)
Definition alongDiagonal (m : Move) : Prop :=
  ∃ (dr dc : Z) (s : nat),
    (dr, dc) ∈ DIRECTIONS ∧ (1 ≤ s)%nat
    ∧ to m = ray (r (from m)) (c (from m)) dr dc s
    ∧ (captures m = []
       ∨ ∃ j : nat, (1 ≤ j)%nat ∧ (j < s)%nat
           ∧ captures m = [ray (r (from m)) (c (from m)) dr dc j]).

Definition playable (p : Coords) : Prop := isPlayableSquare (r p) (c p) = true.

(** What a square adds to the count of the pieces of a side. *)
Definition countUnit (color0 : Color) (v : option Piece) : Z :=
  match v with
  | Some piece => if color_eqb (color piece) color0 then 1 else 0
  | None => 0
  end.

(** The board a move leaves, square by square: the moved piece (promoted
    where the move ends on the far rank) on the destination, nothing on the
    source and on the captured squares, every other square as it was. *)
Definition boardAfter (board : Board) (piece : Piece) (m : Move) (r1 c1 : Z)
  : option Piece :=
  if decide (mkCoords r1 c1 = to m) then Some (promoted piece (r (to m)))
  else if decide (mkCoords r1 c1 = from m ∨ mkCoords r1 c1 ∈ captures m)
       then None
       else cell board r1 c1.

(** A game from [n0]: legal moves applied one after the other. *)
Inductive Play (n0 : GameNode) : GameNode → Prop :=
| play_start : Play n0 n0
| play_move (n n' : GameNode) (m : Move) (undo : AppliedMoveUndo) :
    Play n0 n →
    m ∈ getLegalMoves (board n) (turn n) (pendingCapture n) →
    applyMoveMutable n m = (Ok undo, n') →
    Play n0 n'.

(** Pieces stand on dark squares only. *)
Definition onDarkSquares (board : Board) : Prop :=
  ∀ r1 c1 p, cell board r1 c1 = Some p → isPlayableSquare r1 c1 = true.

(** No man stands on the rank where it is promoted. *)
Definition noManOnFarRank (board : Board) : Prop :=
  ∀ r1 c1 p, cell board r1 c1 = Some p → king p = false →
    match color p with W => r1 ≠ 0 | B => r1 ≠ BOARD_SIZE - 1 end.

(** A forced continuation names a piece of the side to move that has a
    capture. *)
Definition pendingHasCapture (n : GameNode) : Prop :=
  match pendingCapture n with
  | None => True
  | Some pc =>
      ∃ piece,
        cell (board n) (r pc) (c pc) = Some piece
        ∧ color piece = turn n
        ∧ getCaptureMovesForPiece (board n) (r pc) (c pc) piece ≠ []
  end.

Definition position_ok (n : GameNode) : Prop :=
  wf_board (board n)
  ∧ hash n = computeBoardHash (board n)
  ∧ onDarkSquares (board n)
  ∧ noManOnFarRank (board n)
  ∧ pendingHasCapture n
  ∧ countPieces (board n) W <= 12
  ∧ countPieces (board n) B <= 12.

(** Plays the moves of a list from a node, checking that each one is legal
    where it is played. *)
Fixpoint playLegal (n : GameNode) (ms : list Move) : option GameNode :=
  match ms with
  | [] => Some n
  | m :: ms' =>
      if bool_decide (m ∈ getLegalMoves (board n) (turn n) (pendingCapture n))
      then match applyMoveMutable n m with
           | (Ok _, n') => playLegal n' ms'
           | (Throw _, _) => None
           end
      else None
  end.

(** Four moves from the initial position after which dark, having captured
    on (4,1), must capture again from (5,2). *)
Definition openingWithDoubleCapture : list Move :=
  [mkMove (mkCoords 5 0) (mkCoords 4 1) [];
   mkMove (mkCoords 2 1) (mkCoords 3 0) [];
   mkMove (mkCoords 5 2) (mkCoords 4 3) [];
   mkMove (mkCoords 3 0) (mkCoords 5 2) [mkCoords 4 1]].

(** The score [orderMoves] sorts a move by: its ordering score, raised by
    10000 for the preferred move. *)
Definition orderingKey (board : Board) (preferredMove : option Move)
  (move : Move) : Z :=
  let score := moveOrderingScore board move in
  match preferredMove with
  | Some preferred => if sameMove move preferred then score + 10000 else score
  | None => score
  end.

(** [l] is in non-increasing order of [key]. *)
Fixpoint descending {A} (key : A → Z) (l : list A) : Prop :=
  match l with
  | [] => True
  | x :: l' => Forall (λ y, key y <= key x) l' ∧ descending key l'
  end.

(** The counters of [evaluateGiveawayPosition] as the other side sees
    them. *)
Definition swapCounts (k : GiveawayCounts) : GiveawayCounts :=
  mkCounts (oppMen k) (oppKings k) (myMen k) (myKings k)
           (oppProgress k) (myProgress k) (oppVictims k) (myVictims k).

(** The caller of [evaluatePosition] passes the legal moves of the node, as
    [minimax] does, or leaves them to be computed. *)
Definition movesOfNode (node : GameNode) (legalMoves : option (list Move))
  : Prop :=
  ∀ ms, legalMoves = Some ms →
        ms = getLegalMoves (board node) (turn node) (pendingCapture node).

(** The value the classic evaluation gives the piece on [(r, c)]: material,
    advancement and home row for a man, the edge penalty for a king, the
    centre bonus and the support bonus. *)
Definition classicValue (board : Board) (r c : Z) (piece : Piece) : Z :=
  let value := if king piece then 320 else 120 in
  let value :=
    if negb (king piece) then
      let progress :=
        match color piece with W => BOARD_SIZE - 1 - r | B => r end in
      let value := value + progress * 9 in
      let homeRow :=
        match color piece with W => BOARD_SIZE - 1 | B => 0 end in
      if r =? homeRow then value + 10 else value
    else if (r =? 0) || (r =? BOARD_SIZE - 1) || (c =? 0)
            || (c =? BOARD_SIZE - 1)
    then value - 8
    else value in
  let value :=
    if (2 <=? r) && (r <=? 5) && (2 <=? c) && (c <=? 5)
    then value + 10 else value in
  let supportRow := match color piece with W => r + 1 | B => r - 1 end in
  let sameColorAt (r' c' : Z) :=
    isInside r' c'
    && match cell board r' c' with
       | Some p => color_eqb (color p) (color piece)
       | None => false
       end in
  if sameColorAt supportRow (c - 1) || sameColorAt supportRow (c + 1)
  then value + 7 else value.

(** What [nodeCacheKey] adds to the board hash: the terms of the side to
    move, of the forced-continuation square and of the variant. *)
Definition contextTerm (ctx : Color * option Coords * Variant) : Z :=
  Z.lxor (Z.lxor (turnHash ctx.1.1) (pendingCaptureHash ctx.1.2))
         (variantHash ctx.2).

(** Every side to move, forced-continuation square of the grid (or none)
    and variant. *)
Definition cacheContexts : list (Color * option Coords * Variant) :=
  t ← [W; B];
  p ← None :: (Some <$> ((λ sq : Z * Z, mkCoords sq.1 sq.2) <$> squares));
  v ← [Classic; Giveaway];
  [(t, p, v)].

Definition pendingOnGrid (n : GameNode) : Prop :=
  ∀ pc, pendingCapture n = Some pc → isInside (r pc) (c pc) = true.

(** ** Game flow *)

(** [winnerWhenNoLegalMoves]; [state.variant] is a parameter. *)
Definition winnerWhenNoLegalMoves (variant : Variant) (turn : Color) : Color :=
  if isGiveawayVariant variant then turn else opposite turn.

(** [checkGameOver] on the position of the game: its return value, with
    [state.gameOver], and [state.winner] as it sets them. *)
Definition checkGameOver (variant : Variant) (node : GameNode)
  : bool * option Color :=
  let legalMoves :=
    getLegalMoves (board node) (turn node) (pendingCapture node) in
  if Z.of_nat (length legalMoves) =? 0
  then (true, Some (winnerWhenNoLegalMoves variant (turn node)))
  else (false, None).

(** ** Board orientation *)

(** [getDisplayToBoardCoords] and [getBoardToDisplayCoords];
    [state.humanColor] is a parameter. *)
Definition getDisplayToBoardCoords (humanColor : Color) (displayR displayC : Z)
  : Coords :=
  if color_eqb humanColor W then mkCoords displayR displayC
  else mkCoords (BOARD_SIZE - 1 - displayR) (BOARD_SIZE - 1 - displayC).

Definition getBoardToDisplayCoords (humanColor : Color) (r c : Z) : Coords :=
  if color_eqb humanColor W then mkCoords r c
  else mkCoords (BOARD_SIZE - 1 - r) (BOARD_SIZE - 1 - c).

(** ** Leaderboard score *)

Inductive GameOutcome := Win | Loss.

Definition SCORE_PAR_TIME_MS (d : Difficulty) : Z :=
  match d with
  | Easy => 6 * 60000
  | Medium => 8 * 60000
  | Hard => 10 * 60000
  end.

Definition SCORE_DIFFICULTY_MULT (d : Difficulty) : Q :=
  match d with
  | Easy => 1
  | Medium => 14 # 10
  | Hard => 19 # 10
  end.

(** [Math.round]: the nearest whole number, halves going up. *)
Definition mathRound (x : Q) : Z := Qfloor (x + (1 # 2)).

Definition clampScore (value min max : Z) : Z := Z.min max (Z.max min value).

(** [computeLeaderboardScore] on whole numbers of milliseconds and of hints.
    The products [base * SCORE_DIFFICULTY_MULT[difficulty]] are whole
    numbers, so the rounding of the floating-point product gives the same
    result as the rounding of the exact one. *)
Definition computeLeaderboardScore (result : GameOutcome)
  (difficulty : Difficulty) (elapsedMs hintsUsed : Z) (wonOnTime : bool) : Z :=
  let speedRatio :=
    (inject_Z elapsedMs / inject_Z (SCORE_PAR_TIME_MS difficulty))%Q in
  let base :=
    match result with
    | Win =>
        if Qle_bool speedRatio (1 # 2) then 200
        else if Qle_bool speedRatio 1 then 150
        else 110
    | Loss =>
        if Qle_bool speedRatio (1 # 2) then -130
        else if Qle_bool speedRatio 1 then -90
        else -60
    end in
  let score :=
    mathRound (inject_Z base * SCORE_DIFFICULTY_MULT difficulty) in
  let score :=
    if hintsUsed =? 0 then score + 20
    else score - Z.min 8 hintsUsed * 10 in
  let score :=
    if wonOnTime && match result with Win => true | Loss => false end
    then score + 10 else score in
  clampScore score (-300) 500.

(** The rounded product of the base score and the multiplier, from the two
    comparisons of the speed ratio. *)
Definition scaledBase (result : GameOutcome) (difficulty : Difficulty)
  (half par : bool) : Z :=
  let base :=
    match result with
    | Win => if half then 200 else if par then 150 else 110
    | Loss => if half then -130 else if par then -90 else -60
    end in
  mathRound (inject_Z base * SCORE_DIFFICULTY_MULT difficulty).

(** ** Choosing a move by a click *)

(** The move [onSquareClick] plays when the human clicks on [(r, c)] with a
    piece selected: the first legal move from the selected square to the
    clicked square ([filter], then [find]). *)
Definition clickedMove (allMoves : list Move) (selected : Coords) (r0 c0 : Z)
  : option Move :=
  let selectedMoves :=
    List.filter (λ move, (r (from move) =? r selected)
                         && (c (from move) =? c selected)) allMoves in
  List.find (λ move, (r (to move) =? r0) && (c (to move) =? c0))
            selectedMoves.

(** ** Scores of the search *)

(** A finite score between [-WIN_SCORE] and [WIN_SCORE]. *)
Definition scoreInRange (s : Score) : Prop :=
  ∃ z, s = Fin z ∧ - WIN_SCORE <= z <= WIN_SCORE.

(** Every entry of the transposition table holds such a score. *)
Definition tableInRange (table : gmap Z TTEntry) : Prop :=
  ∀ key entry, table !! key = Some entry → scoreInRange (ttScore entry).

(** The transposition probe of [minimax]: a score to return at once, or the
    window and the preferred move to search with. *)
Definition ttProbe (depth : nat) (alpha beta : Score) (cached : option TTEntry)
  : Score + (Score * Score * option Move) :=
  match cached with
  | Some entry =>
      if (depth <=? ttDepth entry)%nat then
        let preferredMove := ttBestMove entry in
        match ttFlag entry with
        | Exact => inl (ttScore entry)
        | flag =>
            let alpha :=
              match flag with
              | Lower => score_max alpha (ttScore entry)
              | _ => alpha
              end in
            let beta :=
              match flag with
              | Upper => score_min beta (ttScore entry)
              | _ => beta
              end in
            if score_leb beta alpha then inl (ttScore entry)
            else inr (alpha, beta, preferredMove)
        end
      else inr (alpha, beta, ttBestMove entry)
  | None => inr (alpha, beta, None)
  end.

(** What a square can hold. *)
Definition allContents : list (option Piece) :=
  [None; Some (mkPiece W false); Some (mkPiece W true);
   Some (mkPiece B false); Some (mkPiece B true)].

(** * Properties *)

(** ** Properties of the board primitives *)

Lemma isInside_true (r c : Z) :
  isInside r c = true ↔ 0 <= r < 8 ∧ 0 <= c < 8.
Proof. unfold isInside, BOARD_SIZE. lia. Qed.

Lemma isInside_squares (r c : Z) : isInside r c = true ↔ (r, c) ∈ squares.
Proof.
  rewrite isInside_true. split.
  - intros [Hr Hc].
    assert (Er : r = 0 ∨ r = 1 ∨ r = 2 ∨ r = 3 ∨ r = 4 ∨ r = 5 ∨ r = 6 ∨ r = 7)
      by lia.
    assert (Ec : c = 0 ∨ c = 1 ∨ c = 2 ∨ c = 3 ∨ c = 4 ∨ c = 5 ∨ c = 6 ∨ c = 7)
      by lia.
    unfold squares, indices.
    destruct Er as [->|[->|[->|[->|[->|[->|[->| ->]]]]]]];
      destruct Ec as [->|[->|[->|[->|[->|[->|[->| ->]]]]]]];
      apply (bool_decide_unpack _); vm_compute; reflexivity.
  - intros H. unfold squares, indices in H.
    apply list_elem_of_bind in H as (r' & H & Hr').
    apply list_elem_of_bind in H as (c' & H & Hc').
    apply list_elem_of_singleton in H. inversion H; subst.
    set_unfold. lia.
Qed.

Lemma wf_board_row (board : Board) (r : Z) :
  wf_board board → 0 <= r < 8 →
  ∃ row, board !! Z.to_nat r = Some row ∧ length row = 8%nat.
Proof.
  intros [Hlen Hrows] Hr.
  destruct (lookup_lt_is_Some_2 board (Z.to_nat r)) as [row Hrow]; [lia|].
  exists row. split; [done|].
  eapply Forall_lookup_1 in Hrows; eauto.
Qed.

Lemma wf_setCell (board : Board) (r c : Z) (v : option Piece) :
  wf_board board → wf_board (setCell board r c v).
Proof.
  intros [Hlen Hrows]. unfold setCell.
  destruct ((r <? 0) || (c <? 0)); [by split|].
  destruct (board !! Z.to_nat r) as [row|] eqn:Hrow; [|by split].
  split.
  - by rewrite length_insert.
  - apply Forall_insert; [done|]. cbn beta.
    rewrite length_insert. eapply Forall_lookup_1 in Hrows; eauto.
Qed.

Lemma cell_setCell_eq (board : Board) (r c : Z) (v : option Piece) :
  wf_board board → isInside r c = true →
  cell (setCell board r c v) r c = v.
Proof.
  intros Hwf Hin. apply isInside_true in Hin as [Hr Hc].
  destruct (wf_board_row board r Hwf Hr) as (row & Hrow & Hlen).
  unfold cell, setCell.
  replace ((r <? 0) || (c <? 0)) with false by lia.
  rewrite Hrow. rewrite list_lookup_insert_eq.
  - rewrite list_lookup_insert_eq; [done|lia].
  - apply lookup_lt_Some in Hrow. lia.
Qed.

Lemma cell_setCell_ne (board : Board) (r c r' c' : Z) (v : option Piece) :
  (r, c) ≠ (r', c') →
  cell (setCell board r c v) r' c' = cell board r' c'.
Proof.
  intros Hne. unfold cell, setCell.
  destruct ((r' <? 0) || (c' <? 0)) eqn:Hneg'; [done|].
  destruct ((r <? 0) || (c <? 0)) eqn:Hneg; [done|].
  destruct (board !! Z.to_nat r) as [row|] eqn:Hrow; [|done].
  destruct (decide (r = r')) as [<-|Hr].
  - rewrite list_lookup_insert_eq by (apply lookup_lt_Some in Hrow; lia).
    rewrite Hrow.
    rewrite list_lookup_insert_ne; [done|].
    intros Heq. apply Hne. f_equal. lia.
  - rewrite list_lookup_insert_ne; [done|lia].
Qed.

Lemma cell_setCell (board : Board) (r c r' c' : Z) (v : option Piece) :
  wf_board board → isInside r c = true →
  cell (setCell board r c v) r' c' =
  if decide ((r, c) = (r', c')) then v else cell board r' c'.
Proof.
  intros Hwf Hin. case_decide as Heq.
  - inversion Heq; subst. by apply cell_setCell_eq.
  - by apply cell_setCell_ne.
Qed.

Lemma cell_Some_inside (board : Board) (r c : Z) (p : Piece) :
  wf_board board → cell board r c = Some p → isInside r c = true.
Proof.
  intros [Hlen Hrows] Hc. unfold cell in Hc.
  destruct ((r <? 0) || (c <? 0)) eqn:Hneg; [done|].
  destruct (board !! Z.to_nat r) as [row|] eqn:Hrow; [|done].
  destruct (row !! Z.to_nat c) as [sq|] eqn:Hsq; [|done].
  apply lookup_lt_Some in Hrow as Hr.
  eapply Forall_lookup_1 in Hrows; eauto.
  apply lookup_lt_Some in Hsq.
  apply isInside_true. lia.
Qed.

(** Two grids with the same contents on every square are the same board. *)
Lemma board_ext (b1 b2 : Board) :
  wf_board b1 → wf_board b2 →
  (∀ r c, isInside r c = true → cell b1 r c = cell b2 r c) →
  b1 = b2.
Proof.
  intros Hwf1 Hwf2 Hcells.
  apply list_eq_same_length with 8%nat; [apply Hwf2|apply Hwf1|].
  intros i row1 row2 Hi Hrow1 Hrow2.
  assert (Hl1 : length row1 = 8%nat)
    by (destruct Hwf1 as [_ H]; eapply Forall_lookup_1 in H; eauto).
  assert (Hl2 : length row2 = 8%nat)
    by (destruct Hwf2 as [_ H]; eapply Forall_lookup_1 in H; eauto).
  apply list_eq_same_length with 8%nat; [done|done|].
  intros j x y Hj Hx Hy.
  specialize (Hcells (Z.of_nat i) (Z.of_nat j)).
  unfold cell in Hcells.
  replace ((Z.of_nat i <? 0) || (Z.of_nat j <? 0)) with false in Hcells by lia.
  rewrite !Nat2Z.id, Hrow1, Hrow2, Hx, Hy in Hcells.
  apply Hcells. apply isInside_true. lia.
Qed.

(** ** Properties of the move generator *)

Lemma not_is_Some_None {A} (o : option A) :
  negb (bool_decide (is_Some o)) = true → o = None.
Proof.
  destruct o; [|done]. intros H. exfalso.
  apply negb_true_iff, bool_decide_eq_false in H. apply H. eauto.
Qed.

Lemma color_eqb_false (a b : Color) : negb (color_eqb a b) = true → a ≠ b.
Proof.
  unfold color_eqb. intros H.
  by apply negb_true_iff, bool_decide_eq_false in H.
Qed.

Lemma color_eqb_true (a b : Color) : negb (color_eqb a b) = false → a = b.
Proof.
  unfold color_eqb. intros H.
  by apply negb_false_iff, bool_decide_eq_true in H.
Qed.

Lemma slideMoves_shape (n : nat) (board : Board) (r0 c0 dr dc nr nc : Z) (m : Move) :
  m ∈ slideMoves n board r0 c0 dr dc nr nc → quiet_shape board r0 c0 m.
Proof.
  revert nr nc. induction n as [|n IH]; intros nr nc; simpl.
  - by intros ?%elem_of_nil.
  - destruct (isInside nr nc) eqn:Hin; simpl; [|by intros ?%elem_of_nil].
    destruct (negb (bool_decide (is_Some (cell board nr nc)))) eqn:Hc;
      [|by intros ?%elem_of_nil].
    intros [->|H]%elem_of_cons; [|by eapply IH].
    apply not_is_Some_None in Hc. by repeat split.
Qed.

Lemma getSimpleMovesForPiece_shape (board : Board) (r0 c0 : Z) (piece : Piece)
  (m : Move) :
  m ∈ getSimpleMovesForPiece board r0 c0 piece → quiet_shape board r0 c0 m.
Proof.
  unfold getSimpleMovesForPiece. destruct (king piece).
  - intros ([dr dc] & H & _)%list_elem_of_bind. by eapply slideMoves_shape.
  - intros (dc & H & _)%list_elem_of_bind.
    destruct (isInside _ _) eqn:Hin; simpl in H; [|by apply elem_of_nil in H].
    destruct (negb _) eqn:Hc; [|by apply elem_of_nil in H].
    apply list_elem_of_singleton in H as ->.
    apply not_is_Some_None in Hc. by repeat split.
Qed.

Lemma getManCaptures_dir (board : Board) (r0 c0 : Z) (piece : Piece) (m : Move) :
  m ∈ getManCaptures board r0 c0 piece →
  ∃ dr dc, (dr, dc) ∈ DIRECTIONS
    ∧ m = mkMove (mkCoords r0 c0) (mkCoords (r0 + dr * 2) (c0 + dc * 2))
                 [mkCoords (r0 + dr) (c0 + dc)]
    ∧ isInside (r0 + dr) (c0 + dc) = true
    ∧ isInside (r0 + dr * 2) (c0 + dc * 2) = true
    ∧ cell board (r0 + dr * 2) (c0 + dc * 2) = None
    ∧ ∃ q, cell board (r0 + dr) (c0 + dc) = Some q ∧ color q ≠ color piece.
Proof.
  unfold getManCaptures.
  intros ([dr dc] & H & Hd)%list_elem_of_bind. exists dr, dc.
  destruct (isInside (r0 + dr) (c0 + dc)) eqn:Hin1; simpl in H;
    [|by apply elem_of_nil in H].
  destruct (isInside (r0 + dr * 2) (c0 + dc * 2)) eqn:Hin2; simpl in H;
    [|by apply elem_of_nil in H].
  destruct (cell board (r0 + dr) (c0 + dc)) as [q|] eqn:Hq;
    [|by apply elem_of_nil in H].
  destruct (negb (color_eqb _ _)) eqn:Hcol; simpl in H;
    [|by apply elem_of_nil in H].
  destruct (negb (bool_decide _)) eqn:Hc; [|by apply elem_of_nil in H].
  apply list_elem_of_singleton in H as ->.
  apply not_is_Some_None in Hc. apply color_eqb_false in Hcol.
  repeat split; eauto.
Qed.

Lemma getManCaptures_shape (board : Board) (r0 c0 : Z) (piece : Piece) (m : Move) :
  m ∈ getManCaptures board r0 c0 piece → capture_shape board piece r0 c0 m.
Proof.
  intros (dr & dc & _ & -> & Hin1 & Hin2 & Hto & q & Hq & Hcol)%getManCaptures_dir.
  repeat split; simpl; try done.
  exists (mkCoords (r0 + dr) (c0 + dc)), q. by repeat split.
Qed.

Lemma kingRay_shape (n : nat) (board : Board) (piece : Piece)
  (r0 c0 dr dc nr nc : Z) (enemySquare : option Coords) (m : Move) :
  (∀ e, enemySquare = Some e →
        isInside (r e) (c e) = true
        ∧ ∃ q, cell board (r e) (c e) = Some q ∧ color q ≠ color piece) →
  m ∈ kingRay n board piece r0 c0 dr dc nr nc enemySquare →
  capture_shape board piece r0 c0 m.
Proof.
  revert nr nc enemySquare.
  induction n as [|n IH]; intros nr nc enemy Henemy; simpl.
  - by intros ?%elem_of_nil.
  - destruct (isInside nr nc) eqn:Hin; [|by intros ?%elem_of_nil].
    destruct enemy as [e|].
    + destruct (cell board nr nc) as [cur|] eqn:Hcur; [by intros ?%elem_of_nil|].
      intros [->|H]%elem_of_cons; [|by eapply IH].
      destruct (Henemy e eq_refl) as (Hine & q & Hq & Hcol).
      repeat split; simpl; try done. exists e, q. by repeat split.
    + destruct (cell board nr nc) as [cur|] eqn:Hcur.
      * destruct (color_eqb (color cur) (color piece)) eqn:Hcol;
          [by intros ?%elem_of_nil|].
        apply IH. intros e [= <-]. simpl. split; [done|].
        exists cur. split; [done|].
        apply color_eqb_false. by rewrite Hcol.
      * apply IH. by intros e.
Qed.

Lemma getCaptureMovesForPiece_shape (board : Board) (r0 c0 : Z) (piece : Piece)
  (m : Move) :
  m ∈ getCaptureMovesForPiece board r0 c0 piece →
  capture_shape board piece r0 c0 m.
Proof.
  unfold getCaptureMovesForPiece, getKingCaptures. destruct (king piece).
  - intros ([dr dc] & H & _)%list_elem_of_bind.
    eapply kingRay_shape; [|exact H]. by intros e.
  - apply getManCaptures_shape.
Qed.

Lemma nonEmpty_false {A} (l : list A) : nonEmpty l = false ↔ l = [].
Proof. unfold nonEmpty. destruct l; cbn [length]; split; intros; try done; lia. Qed.

Lemma nonEmpty_true {A} (l : list A) : nonEmpty l = true ↔ l ≠ [].
Proof. unfold nonEmpty. destruct l; cbn [length]; split; intros; try done; lia. Qed.

Lemma nonEmpty_app {A} (l k : list A) :
  nonEmpty (l ++ k) = nonEmpty l || nonEmpty k.
Proof. by destruct l, k. Qed.

Lemma scanSquare_step (board : Board) (color0 : Color) (s : Scan) (sq : Z * Z) :
  let s' := scanSquare board color0 s sq in
  captureMoves s' = captureMoves s ++ capturesAt board color0 sq
  ∧ hasCaptures s' = hasCaptures s || nonEmpty (capturesAt board color0 sq)
  ∧ (hasCaptures s' = false →
     quietMoves s' = quietMoves s ++ quietAt board color0 sq).
Proof.
  destruct sq as [r0 c0]. unfold scanSquare, capturesAt, quietAt. cbn [fst snd].
  destruct (cell board r0 c0) as [piece|].
  2: { cbn zeta. rewrite !app_nil_r, orb_false_r. done. }
  unfold color_eqb. destruct (bool_decide (color piece = color0)); cbn [negb].
  2: { cbn zeta. rewrite !app_nil_r, orb_false_r. done. }
  fold (nonEmpty (getCaptureMovesForPiece board r0 c0 piece)).
  destruct (nonEmpty (getCaptureMovesForPiece board r0 c0 piece)) eqn:Hlen;
    cbn zeta.
  - cbn [captureMoves quietMoves hasCaptures]. rewrite orb_true_r. done.
  - apply nonEmpty_false in Hlen. rewrite Hlen.
    destruct (hasCaptures s) eqn:Hhas; cbn [negb].
    + rewrite ?Hhas, app_nil_r. done.
    + cbn [captureMoves quietMoves hasCaptures]. rewrite ?Hhas, app_nil_r. done.
Qed.

Lemma scan_foldl (board : Board) (color0 : Color) (l : list (Z * Z)) (s : Scan) :
  let s' := foldl (scanSquare board color0) s l in
  captureMoves s' = captureMoves s ++ (sq ← l; capturesAt board color0 sq)
  ∧ hasCaptures s' =
      hasCaptures s || nonEmpty (sq ← l; capturesAt board color0 sq)
  ∧ (hasCaptures s' = false →
     quietMoves s' = quietMoves s ++ (sq ← l; quietAt board color0 sq)).
Proof.
  revert s. induction l as [|sq l IH]; intros s.
  - simpl. rewrite !app_nil_r, orb_false_r. done.
  - cbn [foldl]. rewrite !bind_cons.
    destruct (IH (scanSquare board color0 s sq)) as (IHc & IHh & IHq).
    destruct (scanSquare_step board color0 s sq) as (Sc & Sh & Sq).
    cbn zeta. rewrite IHc, IHh, Sc, Sh, nonEmpty_app, <- app_assoc, orb_assoc.
    split; [done|]. split; [done|].
    intros H. rewrite IHq by (by rewrite IHh, Sh).
    rewrite Sq, <- app_assoc; [done|].
    rewrite Sh. destruct (hasCaptures s), (nonEmpty (capturesAt _ _ _)); done.
Qed.

(** [getLegalMoves] without a forced continuation returns the captures of
    the side when there are any, and its quiet moves otherwise. *)
Lemma getLegalMoves_scan (board : Board) (color0 : Color) :
  getLegalMoves board color0 None =
  if nonEmpty (allCaptureMoves board color0)
  then allCaptureMoves board color0
  else allQuietMoves board color0.
Proof.
  unfold getLegalMoves, allCaptureMoves, allQuietMoves.
  destruct (scan_foldl board color0 squares (mkScan [] [] false))
    as (Hc & Hh & Hq).
  cbn zeta in *. cbn [captureMoves quietMoves hasCaptures app orb] in *.
  rewrite Hh.
  destruct (nonEmpty _) eqn:E.
  - by rewrite Hc.
  - rewrite Hh in Hq. by rewrite Hq.
Qed.

Lemma captures_nonempty (board : Board) (piece : Piece) (r0 c0 : Z) (m : Move) :
  m ∈ getCaptureMovesForPiece board r0 c0 piece → captures m ≠ [].
Proof.
  intros (_ & _ & _ & cap & q & -> & _)%getCaptureMovesForPiece_shape. done.
Qed.

Lemma capturesAt_elem (board : Board) (color0 : Color) (r0 c0 : Z) (piece : Piece) :
  cell board r0 c0 = Some piece → color piece = color0 →
  capturesAt board color0 (r0, c0) = getCaptureMovesForPiece board r0 c0 piece.
Proof.
  intros Hcell Hcol. unfold capturesAt, color_eqb. cbn [fst snd].
  by rewrite Hcell, bool_decide_eq_true_2.
Qed.

Lemma bind_nil_inv {A E} (f : A → list E) (l : list A) (x : A) :
  l ≫= f = [] → x ∈ l → f x = [].
Proof.
  intros Hnil Hx. destruct (f x) as [|y k] eqn:E'; [done|].
  assert (y ∈ l ≫= f) as Hy.
  { apply list_elem_of_bind. exists x. rewrite E'. split; [left|done]. }
  rewrite Hnil in Hy. by apply elem_of_nil in Hy.
Qed.

(** C1 (mandatory capture).  On every board and for either side, with no
    forced continuation: if some piece of the side has a capture, no move
    returned by [getLegalMoves] has an empty [captures] list; if no piece of
    the side has a capture, the result is exactly the union of the quiet
    moves of the side's pieces, in scan order. *)
Theorem getLegalMoves_mandatory_capture (board : Board) (color0 : Color) :
  wf_board board →
  ((∃ r0 c0 piece,
       cell board r0 c0 = Some piece ∧ color piece = color0
       ∧ getCaptureMovesForPiece board r0 c0 piece ≠ []) →
   ∀ m, m ∈ getLegalMoves board color0 None → captures m ≠ [])
  ∧ ((∀ r0 c0 piece,
        cell board r0 c0 = Some piece → color piece = color0 →
        getCaptureMovesForPiece board r0 c0 piece = []) →
     getLegalMoves board color0 None = allQuietMoves board color0).
Proof.
  intros Hwf. rewrite getLegalMoves_scan. split.
  - intros (r0 & c0 & piece & Hcell & Hcol & Hcap).
    assert (Hne : nonEmpty (allCaptureMoves board color0) = true).
    { apply nonEmpty_true. intros Hnil. apply Hcap.
      rewrite <- (capturesAt_elem board color0) by done.
      eapply (bind_nil_inv _ squares); [exact Hnil|].
      apply isInside_squares. by eapply cell_Some_inside. }
    rewrite Hne. intros m ([r1 c1] & Hm & _)%list_elem_of_bind.
    unfold capturesAt in Hm. cbn [fst snd] in Hm.
    destruct (cell board r1 c1) as [p|]; [|by apply elem_of_nil in Hm].
    destruct (color_eqb _ _); [|by apply elem_of_nil in Hm].
    by eapply captures_nonempty.
  - intros Hnone.
    assert (Hnil : allCaptureMoves board color0 = []).
    { unfold allCaptureMoves. induction squares as [|[r1 c1] l IH]; [done|].
      rewrite bind_cons, IH, app_nil_r.
      unfold capturesAt, color_eqb. cbn [fst snd].
      destruct (cell board r1 c1) as [p|] eqn:Hp; [|done].
      case_bool_decide; [|done]. by eapply Hnone. }
    by rewrite Hnil.
Qed.

Lemma wf_createEmptyBoard : wf_board createEmptyBoard.
Proof. split; [done|]. unfold createEmptyBoard. by repeat constructor. Qed.

Lemma wf_place (pieces : list (Z * Z * Piece)) : wf_board (place pieces).
Proof.
  unfold place. generalize wf_createEmptyBoard.
  generalize createEmptyBoard.
  induction pieces as [|[[r0 c0] p] l IH]; intros b Hb; [done|].
  cbn [foldl]. apply IH. by apply wf_setCell.
Qed.

Lemma getLegalMoves_mandatory_capture_witness :
  wf_board boardBackwardCapture
  ∧ ((∃ r0 c0 piece,
         cell boardBackwardCapture r0 c0 = Some piece ∧ color piece = W
         ∧ getCaptureMovesForPiece boardBackwardCapture r0 c0 piece ≠ []) →
     ∀ m, m ∈ getLegalMoves boardBackwardCapture W None → captures m ≠ [])
  ∧ ((∀ r0 c0 piece,
        cell boardBackwardCapture r0 c0 = Some piece → color piece = W →
        getCaptureMovesForPiece boardBackwardCapture r0 c0 piece = []) →
     getLegalMoves boardBackwardCapture W None
     = allQuietMoves boardBackwardCapture W).
Proof.
  split; [apply wf_place|].
  apply (getLegalMoves_mandatory_capture boardBackwardCapture W).
  apply wf_place.
Defined.

(** *** The bound on the rays is enough

    A ray leaves the grid after at most [BOARD_SIZE] steps, so the loops of
    [getSimpleMovesForPiece] and [getKingCaptures] have finished when the
    bound of [slideMoves] and [kingRay] is used up: a larger bound gives the
    same moves. *)

Lemma slideMoves_stable (n : nat) (board : Board) (r0 c0 dr dc nr nc : Z) :
  dr = 1 ∨ dr = -1 →
  stepsLeft dr nr <= Z.of_nat n →
  slideMoves (S n) board r0 c0 dr dc nr nc
  = slideMoves n board r0 c0 dr dc nr nc.
Proof.
  intros Hdr. revert nr nc. induction n as [|n IH]; intros nr nc Hsteps.
  - cbn [slideMoves].
    destruct (isInside nr nc) eqn:Hin; [|done].
    apply isInside_true in Hin. unfold stepsLeft in Hsteps.
    destruct Hdr as [-> | ->]; cbn in Hsteps; lia.
  - change (slideMoves (S (S n)) board r0 c0 dr dc nr nc)
      with (if isInside nr nc
               && negb (bool_decide (is_Some (cell board nr nc)))
            then mkMove (mkCoords r0 c0) (mkCoords nr nc) []
                   :: slideMoves (S n) board r0 c0 dr dc (nr + dr) (nc + dc)
            else []).
    rewrite IH; [done|].
    unfold stepsLeft in *. destruct Hdr as [-> | ->]; cbn in *; lia.
Qed.

Lemma slideMoves_fuel (k : nat) (board : Board) (r0 c0 dr dc nr nc : Z) :
  dr = 1 ∨ dr = -1 →
  slideMoves (8 + k) board r0 c0 dr dc nr nc
  = slideMoves 8 board r0 c0 dr dc nr nc.
Proof.
  intros Hdr. induction k as [|k IH]; [done|].
  rewrite <- IH. replace (8 + S k)%nat with (S (8 + k)) by lia.
  destruct (isInside nr nc) eqn:Hin.
  - apply slideMoves_stable; [done|].
    apply isInside_true in Hin. unfold stepsLeft.
    destruct Hdr as [-> | ->]; cbn; lia.
  - replace (8 + k)%nat with (S (7 + k)) by lia.
    cbn [slideMoves]. by rewrite Hin.
Qed.

Lemma kingRay_S (n : nat) (board : Board) (piece : Piece)
  (r0 c0 dr dc nr nc : Z) (enemy : option Coords) :
  kingRay (S n) board piece r0 c0 dr dc nr nc enemy
  = if isInside nr nc then
      match enemy with
      | None =>
          match cell board nr nc with
          | None => kingRay n board piece r0 c0 dr dc (nr + dr) (nc + dc) None
          | Some cur =>
              if color_eqb (color cur) (color piece) then []
              else kingRay n board piece r0 c0 dr dc (nr + dr) (nc + dc)
                     (Some (mkCoords nr nc))
          end
      | Some e =>
          match cell board nr nc with
          | Some _ => []
          | None =>
              mkMove (mkCoords r0 c0) (mkCoords nr nc) [e]
                :: kingRay n board piece r0 c0 dr dc (nr + dr) (nc + dc) enemy
          end
      end
    else [].
Proof. reflexivity. Qed.

Lemma kingRay_stable (n : nat) (board : Board) (piece : Piece)
  (r0 c0 dr dc nr nc : Z) (enemy : option Coords) :
  dr = 1 ∨ dr = -1 →
  stepsLeft dr nr <= Z.of_nat n →
  kingRay (S n) board piece r0 c0 dr dc nr nc enemy
  = kingRay n board piece r0 c0 dr dc nr nc enemy.
Proof.
  intros Hdr. revert nr nc enemy.
  induction n as [|n IH]; intros nr nc enemy Hsteps.
  - cbn [kingRay].
    destruct (isInside nr nc) eqn:Hin; [|done].
    apply isInside_true in Hin. unfold stepsLeft in Hsteps.
    destruct Hdr as [-> | ->]; cbn in Hsteps; lia.
  - assert (Hnext : stepsLeft dr (nr + dr) <= Z.of_nat n).
    { unfold stepsLeft in *. destruct Hdr as [-> | ->]; cbn in *; lia. }
    rewrite (kingRay_S (S n)).
    rewrite !(IH (nr + dr) (nc + dc)) by exact Hnext.
    symmetry. apply kingRay_S.
Qed.

Lemma kingRay_fuel (k : nat) (board : Board) (piece : Piece)
  (r0 c0 dr dc nr nc : Z) (enemy : option Coords) :
  dr = 1 ∨ dr = -1 →
  kingRay (8 + k) board piece r0 c0 dr dc nr nc enemy
  = kingRay 8 board piece r0 c0 dr dc nr nc enemy.
Proof.
  intros Hdr. induction k as [|k IH]; [done|].
  rewrite <- IH. replace (8 + S k)%nat with (S (8 + k)) by lia.
  destruct (isInside nr nc) eqn:Hin.
  - apply kingRay_stable; [done|].
    apply isInside_true in Hin. unfold stepsLeft.
    destruct Hdr as [-> | ->]; cbn; lia.
  - replace (8 + k)%nat with (S (7 + k)) by lia.
    cbn [kingRay]. by rewrite Hin.
Qed.

(** ** Men: direction of steps and captures *)

Lemma man_step_forward (board : Board) (r0 c0 : Z) (piece : Piece) (m : Move) :
  king piece = false →
  m ∈ getSimpleMovesForPiece board r0 c0 piece →
  from m = mkCoords r0 c0 ∧ captures m = []
  ∧ r (to m) = r0 + (match color piece with W => -1 | B => 1 end)
  ∧ (c (to m) = c0 - 1 ∨ c (to m) = c0 + 1).
Proof.
  intros Hk. unfold getSimpleMovesForPiece. rewrite Hk.
  intros (dc & H & Hdc)%list_elem_of_bind.
  destruct (_ && _); [|by apply elem_of_nil in H].
  apply list_elem_of_singleton in H as ->. cbn.
  repeat split; try done. set_unfold. lia.
Qed.

(** C6, as the code has it.  For a non-king piece every generated step goes
    one square diagonally forward (row decreasing for white, increasing for
    dark); every generated capture jumps two squares along one of the four
    diagonals, forward or backward, over the adjacent square it captures. *)
Theorem man_moves_directions (board : Board) (r0 c0 : Z) (piece : Piece) :
  king piece = false →
  (∀ m, m ∈ getSimpleMovesForPiece board r0 c0 piece →
        from m = mkCoords r0 c0 ∧ captures m = []
        ∧ goesForward piece m ∧ isDiagonal m
        ∧ Z.abs (r (to m) - r0) = 1)
  ∧ (∀ m, m ∈ getCaptureMovesForPiece board r0 c0 piece →
          from m = mkCoords r0 c0 ∧ isDiagonal m
          ∧ (r (to m) = r0 - 2 ∨ r (to m) = r0 + 2)
          ∧ captures m = [mkCoords ((r0 + r (to m)) / 2) ((c0 + c (to m)) / 2)]).
Proof.
  intros Hk. split.
  - intros m Hm.
    destruct (man_step_forward _ _ _ _ _ Hk Hm) as (Hf & Hc & Hr & Hcol).
    unfold goesForward, isDiagonal. rewrite Hf. cbn [r c].
    repeat split; try done; destruct (color piece); lia.
  - intros m Hm. unfold getCaptureMovesForPiece in Hm. rewrite Hk in Hm.
    apply getManCaptures_dir in Hm as (dr & dc & Hd & -> & _).
    unfold isDiagonal. cbn [from to captures r c].
    assert ((dr = -1 ∨ dr = 1) ∧ (dc = -1 ∨ dc = 1)) as [Hdr Hdc].
    { unfold DIRECTIONS in Hd.
      repeat (apply elem_of_cons in Hd as [[= -> ->]|Hd]; [lia|]).
      by apply elem_of_nil in Hd. }
    repeat split; try lia.
    f_equal. f_equal.
    + destruct Hdr as [-> | ->].
      * replace (r0 + (r0 + -1 * 2)) with ((r0 + -1) * 2) by lia.
        by rewrite Z.div_mul.
      * replace (r0 + (r0 + 1 * 2)) with ((r0 + 1) * 2) by lia.
        by rewrite Z.div_mul.
    + destruct Hdc as [-> | ->].
      * replace (c0 + (c0 + -1 * 2)) with ((c0 + -1) * 2) by lia.
        by rewrite Z.div_mul.
      * replace (c0 + (c0 + 1 * 2)) with ((c0 + 1) * 2) by lia.
        by rewrite Z.div_mul.
Qed.

Lemma man_moves_directions_witness :
  (∀ m, m ∈ getSimpleMovesForPiece boardBackwardCapture 4 3 whiteMan →
        from m = mkCoords 4 3 ∧ captures m = []
        ∧ goesForward whiteMan m ∧ isDiagonal m
        ∧ Z.abs (r (to m) - 4) = 1)
  ∧ (∀ m, m ∈ getCaptureMovesForPiece boardBackwardCapture 4 3 whiteMan →
          from m = mkCoords 4 3 ∧ isDiagonal m
          ∧ (r (to m) = 4 - 2 ∨ r (to m) = 4 + 2)
          ∧ captures m = [mkCoords ((4 + r (to m)) / 2) ((3 + c (to m)) / 2)]).
Proof.
  apply (man_moves_directions boardBackwardCapture 4 3 whiteMan).
  reflexivity.
Defined.

(** C6, as stated, fails for captures: the white man on (4,3) captures the
    dark man on (5,4) and lands on (6,5), away from the dark back rank
    (row 0). *)
Lemma man_capture_goes_backward :
  let m := mkMove (mkCoords 4 3) (mkCoords 6 5) [mkCoords 5 4] in
  king whiteMan = false
  ∧ m ∈ getCaptureMovesForPiece boardBackwardCapture 4 3 whiteMan
  ∧ m ∈ getLegalMoves boardBackwardCapture W None
  ∧ ¬ goesForward whiteMan m.
Proof.
  cbn zeta. split; [done|]. split; [|split].
  - apply (bool_decide_unpack _). by vm_compute.
  - apply (bool_decide_unpack _). by vm_compute.
  - unfold goesForward. cbn. lia.
Qed.

(** ** Legal moves are well-formed *)

Lemma getLegalMoves_sound (board : Board) (color0 : Color)
  (pending : option Coords) (m : Move) :
  m ∈ getLegalMoves board color0 pending →
  ∃ piece,
    cell board (r (from m)) (c (from m)) = Some piece
    ∧ color piece = color0
    ∧ (quiet_shape board (r (from m)) (c (from m)) m
       ∨ capture_shape board piece (r (from m)) (c (from m)) m).
Proof.
  destruct pending as [pc|].
  - unfold getLegalMoves.
    destruct (cell board (r pc) (c pc)) as [piece|] eqn:Hcell;
      [|by intros ?%elem_of_nil].
    destruct (negb (color_eqb _ _)) eqn:Hcol; [by intros ?%elem_of_nil|].
    intros Hm. apply getCaptureMovesForPiece_shape in Hm as Hs.
    destruct Hs as (Hf & Hrest). rewrite Hf. cbn [r c].
    exists piece. split; [done|]. split; [by apply color_eqb_true|].
    right. by split.
  - rewrite getLegalMoves_scan. intros Hm.
    assert (m ∈ allCaptureMoves board color0 ∨ m ∈ allQuietMoves board color0)
      as [H|H] by (destruct (nonEmpty _); auto).
    + apply list_elem_of_bind in H as ([r0 c0] & H & _).
      unfold capturesAt, color_eqb in H. cbn [fst snd] in H.
      destruct (cell board r0 c0) as [piece|] eqn:Hcell;
        [|by apply elem_of_nil in H].
      case_bool_decide; [|by apply elem_of_nil in H].
      apply getCaptureMovesForPiece_shape in H as Hs.
      destruct Hs as (Hf & Hrest). rewrite Hf. cbn [r c].
      exists piece. split; [done|]. split; [done|]. right. by split.
    + apply list_elem_of_bind in H as ([r0 c0] & H & _).
      unfold quietAt, color_eqb in H. cbn [fst snd] in H.
      destruct (cell board r0 c0) as [piece|] eqn:Hcell;
        [|by apply elem_of_nil in H].
      case_bool_decide; [|by apply elem_of_nil in H].
      apply getSimpleMovesForPiece_shape in H as Hs.
      destruct Hs as (Hf & Hrest). rewrite Hf. cbn [r c].
      exists piece. split; [done|]. split; [done|]. left. by split.
Qed.

(** ** The mutator on well-formed moves *)

Lemma promoted_color (piece : Piece) (toR : Z) :
  color (promoted piece toR) = color piece.
Proof.
  unfold promoted. destruct (negb _); [|done]. by destruct (_ || _).
Qed.

Lemma piece_eta (piece : Piece) : mkPiece (color piece) (king piece) = piece.
Proof. by destruct piece. Qed.

(** The node [applyMoveMutable] leaves after a quiet move. *)
Lemma applyMoveMutable_quiet (node : GameNode) (m : Move) (piece : Piece) :
  cell (board node) (r (from m)) (c (from m)) = Some piece →
  captures m = [] →
  let piece' := promoted piece (r (to m)) in
  applyMoveMutable node m =
  (Ok (mkUndo m piece' (king piece) [] (hash node) (turn node)
              (pendingCapture node)),
   mkNode (setCell (setCell (board node) (r (from m)) (c (from m)) None)
                   (r (to m)) (c (to m)) (Some piece'))
          (Z.lxor (Z.lxor (hash node) (pieceTerm (r (from m)) (c (from m)) piece))
                  (pieceTerm (r (to m)) (c (to m)) piece'))
          (opposite (turn node)) None).
Proof.
  intros Hcell Hcap. unfold applyMoveMutable, nextTurnState.
  rewrite Hcell, Hcap. reflexivity.
Qed.

(** The node [applyMoveMutable] leaves after a capture of one piece. *)
Lemma applyMoveMutable_capture (node : GameNode) (m : Move) (piece q : Piece)
  (cap : Coords) :
  wf_board (board node) →
  cell (board node) (r (from m)) (c (from m)) = Some piece →
  captures m = [cap] →
  cell (board node) (r cap) (c cap) = Some q →
  color q ≠ color piece →
  isInside (r (to m)) (c (to m)) = true →
  let piece' := promoted piece (r (to m)) in
  let board3 :=
    setCell (setCell (setCell (board node) (r (from m)) (c (from m)) None)
                     (r cap) (c cap) None)
            (r (to m)) (c (to m)) (Some piece') in
  let again := nonEmpty (getCaptureMovesForPiece board3 (r (to m)) (c (to m)) piece') in
  applyMoveMutable node m =
  (Ok (mkUndo m piece' (king piece) [mkCaptured (r cap) (c cap) q]
              (hash node) (turn node) (pendingCapture node)),
   mkNode board3
          (Z.lxor (Z.lxor (Z.lxor (hash node)
                                  (pieceTerm (r (from m)) (c (from m)) piece))
                          (pieceTerm (r cap) (c cap) q))
                  (pieceTerm (r (to m)) (c (to m)) piece'))
          (if again then turn node else opposite (turn node))
          (if again then Some (mkCoords (r (to m)) (c (to m))) else None)).
Proof.
  intros Hwf Hcell Hcap Hq Hcol Hin. cbn zeta.
  unfold applyMoveMutable, nextTurnState.
  rewrite Hcell, Hcap. cbn [foldl captureStep length].
  assert (Hne : (r (from m), c (from m)) ≠ (r cap, c cap)).
  { intros [= E1 E2]. rewrite E1, E2 in Hcell. congruence. }
  rewrite cell_setCell_ne by done. rewrite Hq.
  rewrite cell_setCell_eq by eauto using wf_setCell.
  cbn [app]. fold (nonEmpty (getCaptureMovesForPiece
    (setCell (setCell (setCell (board node) (r (from m)) (c (from m)) None)
       (r cap) (c cap) None) (r (to m)) (c (to m))
       (Some (promoted piece (r (to m))))) (r (to m)) (c (to m))
    (promoted piece (r (to m))))).
  replace (0 <? Z.of_nat 1) with true by done.
  by destruct (nonEmpty _).
Qed.

Ltac solve_wf := repeat apply wf_setCell; assumption.

Ltac cells :=
  repeat (rewrite cell_setCell by solve_wf);
  repeat case_decide; simplify_eq; try done.

Lemma applyMoveMutable_undo (node : GameNode) (m : Move) :
  wf_board (board node) →
  m ∈ getLegalMoves (board node) (turn node) (pendingCapture node) →
  ∃ undo node',
    applyMoveMutable node m = (Ok undo, node')
    ∧ undoMoveMutable node' undo = node.
Proof.
  intros Hwf Hm.
  apply getLegalMoves_sound in Hm as (piece & Hcell & Hcol & Hshape).
  assert (Hfrom : isInside (r (from m)) (c (from m)) = true)
    by (by eapply cell_Some_inside).
  destruct node as [b h t pc]. cbn [board hash turn pendingCapture] in *.
  destruct Hshape as [(_ & Hto & Hempty & Hcap)
                     |(_ & Hto & Hempty & cap & q & Hcap & Hincap & Hq & Hqcol)].
  - eexists _, _. split.
    { by apply applyMoveMutable_quiet. }
    unfold undoMoveMutable.
    cbn [move board captured foldl prevHash prevTurn prevPendingCapture
         movedPiece wasKing].
    rewrite promoted_color, piece_eta. f_equal.
    apply board_ext; [solve_wf|solve_wf|].
    intros r1 c1 Hin. cells; congruence.
  - eexists _, _. split.
    { eapply applyMoveMutable_capture; eauto; congruence. }
    unfold undoMoveMutable.
    cbn [move board captured foldl prevHash prevTurn prevPendingCapture
         movedPiece wasKing capR capC capPiece].
    rewrite promoted_color, piece_eta. f_equal.
    apply board_ext; [solve_wf|solve_wf|].
    intros r1 c1 Hin. cells; congruence.
Qed.

(** C2 (round trip).  For every node on a grid and every move of its
    legal-move list, [applyMoveMutable] returns an undo token, and
    [undoMoveMutable] with that token gives back the node as it was: the same
    board (pieces and king flags), hash, side to move and forced-continuation
    square. *)
Theorem apply_undo_roundtrip (node : GameNode) (m : Move) :
  wf_board (board node) →
  m ∈ getLegalMoves (board node) (turn node) (pendingCapture node) →
  ∃ undo node',
    applyMoveMutable node m = (Ok undo, node')
    ∧ undoMoveMutable node' undo = node.
Proof. apply applyMoveMutable_undo. Qed.

Lemma apply_undo_roundtrip_witness :
  let node := mkNode boardPromotion (computeBoardHash boardPromotion) W None in
  let m := mkMove (mkCoords 2 3) (mkCoords 0 5) [mkCoords 1 4] in
  ∃ undo node',
    applyMoveMutable node m = (Ok undo, node')
    ∧ undoMoveMutable node' undo = node.
Proof.
  apply apply_undo_roundtrip.
  - apply wf_place.
  - apply (bool_decide_unpack _). by vm_compute.
Defined.

(** ** Turn passing and forced continuation *)

Lemma captureStep_wf (l : list Coords) (b : Board) (h : Z)
  (caps : list CapturedPieceUndo) :
  wf_board b → wf_board (foldl captureStep (b, h, caps) l).1.1.
Proof.
  revert b h caps. induction l as [|cap l IH]; intros b h caps Hwf; [done|].
  cbn [foldl]. unfold captureStep at 2.
  destruct (cell b (r cap) (c cap)); apply IH; eauto using wf_setCell.
Qed.

Lemma coords_eta (x : Coords) : mkCoords (r x) (c x) = x.
Proof. by destruct x. Qed.

Lemma applyMoveMutable_turn (node : GameNode) (m : Move) (piece : Piece) :
  wf_board (board node) →
  isInside (r (to m)) (c (to m)) = true →
  cell (board node) (r (from m)) (c (from m)) = Some piece →
  ∃ undo node',
    applyMoveMutable node m = (Ok undo, node')
    ∧ cell (board node') (r (to m)) (c (to m))
      = Some (promoted piece (r (to m)))
    ∧ (captures m = [] →
       turn node' = opposite (turn node) ∧ pendingCapture node' = None)
    ∧ (captures m ≠ [] →
       if nonEmpty (getCaptureMovesForPiece (board node') (r (to m)) (c (to m))
                      (promoted piece (r (to m))))
       then turn node' = turn node ∧ pendingCapture node' = Some (to m)
       else turn node' = opposite (turn node) ∧ pendingCapture node' = None).
Proof.
  intros Hwf Hto Hcell. unfold applyMoveMutable. rewrite Hcell.
  pose proof (captureStep_wf (captures m)
                (setCell (board node) (r (from m)) (c (from m)) None)
                (Z.lxor (hash node) (pieceTerm (r (from m)) (c (from m)) piece))
                [] (wf_setCell _ _ _ _ Hwf)) as Hwf2.
  destruct (foldl captureStep _ (captures m)) as [[board2 h2] caps].
  cbn [fst] in Hwf2. unfold nextTurnState.
  rewrite cell_setCell_eq by done.
  fold (nonEmpty (captures m)).
  destruct (nonEmpty (captures m)) eqn:Hcap.
  - apply nonEmpty_true in Hcap.
    match goal with
    | |- context [0 <? Z.of_nat (length ?l)] =>
        fold (nonEmpty l); destruct (nonEmpty l) eqn:Hmore
    end;
      eexists _, _; (split; [reflexivity|]); cbn [board turn pendingCapture];
      rewrite cell_setCell_eq by done; rewrite ?Hmore, ?coords_eta; done.
  - apply nonEmpty_false in Hcap.
    eexists _, _. split; [reflexivity|]. cbn [board turn pendingCapture].
    by rewrite cell_setCell_eq.
Qed.



(** The promoted man of [boardPromotion] must go on capturing: white keeps
    the move and the forced-continuation square is (0,5). *)
Example promotion_continues :
  let node := mkNode boardPromotion (computeBoardHash boardPromotion) W None in
  let m := mkMove (mkCoords 2 3) (mkCoords 0 5) [mkCoords 1 4] in
  ∃ undo node',
    applyMoveMutable node m = (Ok undo, node')
    ∧ cell (board node') 0 5 = Some whiteKing
    ∧ turn node' = W ∧ pendingCapture node' = Some (mkCoords 0 5).
Proof. cbn zeta. eexists _, _. by vm_compute. Qed.

(** ** Moves that are not checked *)






(** ** Hash integrity *)

Lemma foldl_lxor_shift {A} (f : A → Z) (l : list A) (a : Z) :
  foldl (λ h x, Z.lxor h (f x)) a l
  = Z.lxor a (foldl (λ h x, Z.lxor h (f x)) 0 l).
Proof.
  revert a. induction l as [|x l IH]; intros a; cbn [foldl].
  - by rewrite Z.lxor_0_r.
  - rewrite IH, (IH (Z.lxor 0 (f x))), Z.lxor_0_l, Z.lxor_assoc. done.
Qed.

Lemma squares_NoDup : NoDup squares.
Proof. apply (bool_decide_unpack _). by vm_compute. Qed.

Lemma squareTerm_setCell (board : Board) (r0 c0 : Z) (v : option Piece)
  (sq : Z * Z) :
  wf_board board → isInside r0 c0 = true →
  squareTerm (setCell board r0 c0 v) sq
  = if decide ((r0, c0) = sq) then valueTerm sq v else squareTerm board sq.
Proof.
  intros Hwf Hin. destruct sq as [r1 c1]. unfold squareTerm, valueTerm.
  cbn [fst snd]. rewrite cell_setCell by done. by case_decide.
Qed.

Lemma hash_fold_setCell (board : Board) (r0 c0 : Z) (v : option Piece)
  (l : list (Z * Z)) :
  wf_board board → isInside r0 c0 = true → NoDup l →
  foldl (λ h sq, Z.lxor h (squareTerm (setCell board r0 c0 v) sq)) 0 l
  = if bool_decide ((r0, c0) ∈ l)
    then Z.lxor (Z.lxor (foldl (λ h sq, Z.lxor h (squareTerm board sq)) 0 l)
                        (valueTerm (r0, c0) (cell board r0 c0)))
                (valueTerm (r0, c0) v)
    else foldl (λ h sq, Z.lxor h (squareTerm board sq)) 0 l.
Proof.
  intros Hwf Hin. induction l as [|sq l IH]; intros Hnd; [done|].
  apply NoDup_cons in Hnd as [Hnotin Hnd]. specialize (IH Hnd).
  cbn [foldl]. rewrite !Z.lxor_0_l.
  rewrite foldl_lxor_shift, (foldl_lxor_shift _ l (squareTerm board _)), IH.
  rewrite squareTerm_setCell by done.
  set (z := foldl (λ h sq, Z.lxor h (squareTerm board sq)) 0 l).
  set (x := valueTerm (r0, c0) v).
  set (y := valueTerm (r0, c0) (cell board r0 c0)).
  destruct (decide ((r0, c0) = sq)) as [<-|Hne].
  - rewrite bool_decide_eq_false_2 by done.
    rewrite (bool_decide_eq_true_2 (_ ∈ _ :: _)) by left.
    change (squareTerm board (r0, c0)) with y.
    rewrite (Z.lxor_comm y z), (Z.lxor_assoc z y y), Z.lxor_nilpotent,
      Z.lxor_0_r. apply Z.lxor_comm.
  - destruct (bool_decide ((r0, c0) ∈ l)) eqn:Hmem.
    + rewrite (bool_decide_eq_true_2 (_ ∈ _ :: _))
        by (right; by apply bool_decide_eq_true in Hmem).
      by rewrite !Z.lxor_assoc.
    + rewrite (bool_decide_eq_false_2 (_ ∈ _ :: _)); [done|].
      apply bool_decide_eq_false in Hmem.
      intros [?|?]%elem_of_cons; done.
Qed.

(** Writing one square changes the board hash by the terms of the old and of
    the new contents. *)
Lemma computeBoardHash_setCell (board : Board) (r0 c0 : Z) (v : option Piece) :
  wf_board board → isInside r0 c0 = true →
  computeBoardHash (setCell board r0 c0 v)
  = Z.lxor (Z.lxor (computeBoardHash board)
                   (valueTerm (r0, c0) (cell board r0 c0)))
           (valueTerm (r0, c0) v).
Proof.
  intros Hwf Hin. unfold computeBoardHash.
  rewrite hash_fold_setCell by auto using squares_NoDup.
  rewrite bool_decide_eq_true_2; [done|]. by apply isInside_squares.
Qed.

(** Applying a legal move keeps the invariant of the working node. *)
Lemma applyMoveMutable_node_ok (node node' : GameNode) (m : Move)
  (undo : AppliedMoveUndo) :
  node_ok node →
  m ∈ getLegalMoves (board node) (turn node) (pendingCapture node) →
  applyMoveMutable node m = (Ok undo, node') →
  node_ok node'.
Proof.
  intros [Hwf Hhash] Hm Happly.
  apply getLegalMoves_sound in Hm as (piece & Hcell & Hcol & Hshape).
  assert (Hfrom : isInside (r (from m)) (c (from m)) = true)
    by (by eapply cell_Some_inside).
  destruct Hshape as [(_ & Hto & Hempty & Hcap)
                     |(_ & Hto & Hempty & cap & q & Hcap & Hincap & Hq & Hqcol)].
  - rewrite (applyMoveMutable_quiet node m piece) in Happly by done.
    injection Happly as <- <-. split; cbn [board hash].
    { solve_wf. }
    rewrite !computeBoardHash_setCell by solve_wf.
    cells; try congruence.
    rewrite Hcell, Hempty, Hhash. cbn [valueTerm fst snd].
    by rewrite !Z.lxor_0_r.
  - rewrite (applyMoveMutable_capture node m piece q cap) in Happly
      by (eauto; congruence).
    injection Happly as <- <-. split; cbn [board hash].
    { solve_wf. }
    rewrite !computeBoardHash_setCell by solve_wf.
    cells; try congruence.
    rewrite Hcell, Hempty, Hq, Hhash. cbn [valueTerm fst snd].
    by rewrite !Z.lxor_0_r.
Qed.

Lemma session_invariant (n0 n : GameNode) (stack : list AppliedMoveUndo) :
  node_ok n0 → Session n0 n stack → node_ok n ∧ stack_ok n stack.
Proof.
  intros H0 Hs. induction Hs as [|n n' stack m undo Hs [IHn IHs] Hm Happly
                                |n stack undo Hs [IHn IHs]].
  - done.
  - split; [by eapply applyMoveMutable_node_ok|].
    cbn [stack_ok]. by exists n, m.
  - cbn [stack_ok] in IHs. destruct IHs as (prev & m & Hprev & Hstack & Hm & Ha).
    destruct (applyMoveMutable_undo prev m (proj1 Hprev) Hm)
      as (undo' & n' & Ha' & Hundo).
    rewrite Ha in Ha'. injection Ha' as <- <-. by rewrite Hundo.
Qed.

(** C4, as the code has it.  Starting from a node whose [hash] is the board
    hash, after any sequence of applications of legal moves and of undos of
    the latest application, the incrementally maintained [hash] equals
    [computeBoardHash] of the current board; the terms of the side to move,
    of the forced-continuation square and of the variant are no part of it:
    [nodeCacheKey] adds them on each lookup, and the key it returns is the
    hash recomputed from scratch off board, side, forced continuation and
    variant. *)
Theorem hash_integrity (variant : Variant) (n0 n : GameNode)
  (stack : list AppliedMoveUndo) :
  wf_board (board n0) →
  hash n0 = computeBoardHash (board n0) →
  Session n0 n stack →
  hash n = computeBoardHash (board n)
  ∧ nodeCacheKey variant n
    = recomputedPositionHash variant (board n) (turn n) (pendingCapture n).
Proof.
  intros Hwf Hhash Hs.
  destruct (session_invariant n0 n stack (conj Hwf Hhash) Hs) as [[_ Hn] _].
  split; [done|]. unfold nodeCacheKey, recomputedPositionHash. by rewrite Hn.
Qed.

Lemma hash_integrity_witness :
  let m := mkMove (mkCoords 5 0) (mkCoords 4 1) [] in
  let n := (applyMoveMutable initialNode m).2 in
  hash n = computeBoardHash (board n)
  ∧ nodeCacheKey Giveaway n
    = recomputedPositionHash Giveaway (board n) (turn n) (pendingCapture n).
Proof.
  cbn zeta.
  eapply (hash_integrity Giveaway initialNode _ [_]).
  - split; [done|]. by vm_compute; repeat constructor.
  - reflexivity.
  - eapply (session_apply _ initialNode _ []
              (mkMove (mkCoords 5 0) (mkCoords 4 1) [])).
    + apply session_start.
    + apply (bool_decide_unpack _). by vm_compute.
    + by vm_compute.
Defined.

(** C4, as stated, fails: after one legal move from the initial position the
    maintained [hash] is the board hash, and it differs from the hash
    recomputed off board, side to move, forced continuation and variant, in
    either variant. *)
Lemma hash_is_board_only :
  let m := mkMove (mkCoords 5 0) (mkCoords 4 1) [] in
  let n := (applyMoveMutable initialNode m).2 in
  m ∈ getLegalMoves (board initialNode) (turn initialNode)
        (pendingCapture initialNode)
  ∧ (applyMoveMutable initialNode m).1 ≠ Throw SourceEmptyError
  ∧ hash n = computeBoardHash (board n)
  ∧ hash n ≠ recomputedPositionHash Classic (board n) (turn n)
               (pendingCapture n)
  ∧ hash n ≠ recomputedPositionHash Giveaway (board n) (turn n)
               (pendingCapture n).
Proof.
  cbn zeta. split; [|split; [|split; [|split]]].
  - apply (bool_decide_unpack _). by vm_compute.
  - by vm_compute.
  - by vm_compute.
  - by vm_compute.
  - by vm_compute.
Qed.

(** ** Giveaway evaluation *)

Lemma slideMoves_length (n : nat) (board : Board) (r0 c0 dr dc nr nc : Z) :
  (length (slideMoves n board r0 c0 dr dc nr nc) ≤ n)%nat.
Proof.
  revert nr nc. induction n as [|n IH]; intros nr nc; cbn [slideMoves length].
  - lia.
  - destruct (_ && _); cbn [length]; [|lia]. specialize (IH (nr + dr) (nc + dc)). lia.
Qed.

Lemma kingRay_length (n : nat) (board : Board) (piece : Piece)
  (r0 c0 dr dc nr nc : Z) (enemy : option Coords) :
  (length (kingRay n board piece r0 c0 dr dc nr nc enemy) ≤ n)%nat.
Proof.
  revert nr nc enemy.
  induction n as [|n IH]; intros nr nc enemy; cbn [kingRay length]; [lia|].
  destruct (isInside nr nc); cbn [length]; [|lia].
  destruct enemy, (cell board nr nc); cbn [length]; try lia.
  - specialize (IH (nr + dr) (nc + dc) (Some c1)). lia.
  - destruct (color_eqb _ _); cbn [length]; [lia|].
    specialize (IH (nr + dr) (nc + dc) (Some (mkCoords nr nc))). lia.
  - specialize (IH (nr + dr) (nc + dc) None). lia.
Qed.

Lemma bind_length_le {A E} (f : A → list E) (l : list A) (k : nat) :
  (∀ x, length (f x) ≤ k)%nat → (length (l ≫= f) ≤ length l * k)%nat.
Proof.
  intros Hf. induction l as [|x l IH]; [done|].
  rewrite bind_cons, length_app. cbn [length]. specialize (Hf x). lia.
Qed.

Lemma getSimpleMovesForPiece_length (board : Board) (r0 c0 : Z) (piece : Piece) :
  (length (getSimpleMovesForPiece board r0 c0 piece) ≤ 32)%nat.
Proof.
  unfold getSimpleMovesForPiece. destruct (king piece).
  - change 32%nat with (length DIRECTIONS * 8)%nat.
    apply bind_length_le. intros [dr dc]. apply slideMoves_length.
  - etrans; [apply (bind_length_le _ _ 1)|cbn; lia].
    intros dc. destruct (_ && _); cbn [length]; lia.
Qed.

Lemma getCaptureMovesForPiece_length (board : Board) (r0 c0 : Z) (piece : Piece) :
  (length (getCaptureMovesForPiece board r0 c0 piece) ≤ 32)%nat.
Proof.
  unfold getCaptureMovesForPiece, getKingCaptures, getManCaptures.
  destruct (king piece).
  - change 32%nat with (length DIRECTIONS * 8)%nat.
    apply bind_length_le. intros [dr dc]. apply kingRay_length.
  - etrans; [apply (bind_length_le _ _ 1)|cbn; lia].
    intros [dr dc]. destruct (_ || _); [cbn [length]; lia|].
    destruct (cell _ _ _); [|cbn [length]; lia].
    destruct (_ && _); cbn [length]; lia.
Qed.

Lemma getLegalMoves_length (board : Board) (color0 : Color)
  (pending : option Coords) :
  (length (getLegalMoves board color0 pending) ≤ 2048)%nat.
Proof.
  destruct pending as [pc|].
  - unfold getLegalMoves. destruct (cell _ _ _) as [piece|]; [|cbn; lia].
    destruct (negb _); [cbn; lia|].
    pose proof (getCaptureMovesForPiece_length board (r pc) (c pc) piece). lia.
  - rewrite getLegalMoves_scan. change 2048%nat with (length squares * 32)%nat.
    destruct (nonEmpty _); apply bind_length_le; intros [r0 c0];
      unfold capturesAt, quietAt; cbn [fst snd];
      destruct (cell _ _ _); try (cbn; lia);
      destruct (color_eqb _ _); try (cbn; lia);
      auto using getCaptureMovesForPiece_length, getSimpleMovesForPiece_length.
Qed.

Lemma giveawaySquare_bounded (board : Board) (persp : Color)
  (k : GiveawayCounts) (sq : Z * Z) (n : Z) :
  isInside sq.1 sq.2 = true → counts_bounded n k →
  counts_bounded (n + 1) (giveawaySquare board persp k sq).
Proof.
  destruct sq as [r0 c0]. cbn [fst snd]. intros Hin%isInside_true Hk.
  unfold giveawaySquare, counts_bounded, BOARD_SIZE in *.
  destruct (cell board r0 c0) as [piece|]; [|lia].
  destruct (king piece), (color_eqb (color piece) persp), (color piece),
    (isPotentialVictim board r0 c0 _);
    cbn [myMen myKings oppMen oppKings myProgress oppProgress myVictims
         oppVictims]; lia.
Qed.

Lemma giveaway_fold_bounded (board : Board) (persp : Color)
  (l : list (Z * Z)) (k : GiveawayCounts) (n : Z) :
  Forall (λ sq, isInside sq.1 sq.2 = true) l → counts_bounded n k →
  counts_bounded (n + Z.of_nat (length l))
    (foldl (giveawaySquare board persp) k l).
Proof.
  intros Hl. revert k n. induction Hl as [|sq l Hsq Hl IH]; intros k n Hk.
  - cbn [foldl length]. by rewrite Z.add_0_r.
  - cbn [foldl length]. rewrite Nat2Z.inj_succ.
    replace (n + Z.succ (Z.of_nat (length l)))
      with (n + 1 + Z.of_nat (length l)) by lia.
    apply IH. by apply giveawaySquare_bounded.
Qed.

Lemma squares_inside : Forall (λ sq, isInside sq.1 sq.2 = true) squares.
Proof. apply (bool_decide_unpack _). by vm_compute. Qed.

Lemma giveaway_fold_my_pieces (board : Board) (persp : Color)
  (l : list (Z * Z)) (k : GiveawayCounts) (n : Z) :
  let k' := foldl (giveawaySquare board persp) k l in
  myMen k' + myKings k'
  = myMen k + myKings k - n
    + foldl (λ n sq, match cell board sq.1 sq.2 with
                     | Some piece => if color_eqb (color piece) persp
                                     then n + 1 else n
                     | None => n
                     end) n l.
Proof.
  revert k n. induction l as [|[r0 c0] l IH]; intros k n; cbn [foldl].
  - cbn zeta. lia.
  - cbn zeta in *. rewrite IH with (n := match cell board r0 c0 with
      | Some piece => if color_eqb (color piece) persp then n + 1 else n
      | None => n end).
    unfold giveawaySquare. cbn [fst snd].
    destruct (cell board r0 c0) as [piece|]; [|lia].
    destruct (king piece), (color_eqb (color piece) persp),
      (isPotentialVictim board r0 c0 _);
      cbn [myMen myKings]; lia.
Qed.

Lemma giveaway_my_pieces (board : Board) (persp : Color) :
  let k := foldl (giveawaySquare board persp) (mkCounts 0 0 0 0 0 0 0 0)
                 squares in
  myMen k + myKings k = countPieces board persp.
Proof.
  cbn zeta. unfold countPieces.
  rewrite (giveaway_fold_my_pieces board persp squares _ 0).
  cbn [myMen myKings]. lia.
Qed.

Lemma squares_length : Z.of_nat (length squares) = 64.
Proof. by vm_compute. Qed.

Lemma evaluateGiveawayPosition_bound (node : GameNode) (persp : Color)
  (legalMoves : list Move) :
  (length legalMoves ≤ 2048)%nat →
  0 < countPieces (board node) persp →
  - WIN_SCORE <= evaluateGiveawayPosition node persp legalMoves < WIN_SCORE.
Proof.
  intros Hlen Hcount. unfold evaluateGiveawayPosition.
  pose proof (giveaway_fold_bounded (board node) persp squares
                (mkCounts 0 0 0 0 0 0 0 0) 0 squares_inside) as Hb.
  pose proof (giveaway_my_pieces (board node) persp) as Hmy.
  cbn zeta in Hmy. rewrite squares_length in Hb.
  set (k := foldl _ _ squares) in *. cbn zeta.
  unfold counts_bounded in Hb. cbn [myMen myKings oppMen oppKings myProgress
    oppProgress myVictims oppVictims] in Hb.
  unfold WIN_SCORE.
  destruct (myMen k + myKings k =? 0) eqn:E1; [lia|].
  destruct (oppMen k + oppKings k =? 0) eqn:E2; [lia|].
  destruct ((myMen k =? 0) && (0 <? myKings k)),
    ((oppMen k =? 0) && (0 <? oppKings k)),
    (color_eqb (turn node) persp); lia.
Qed.

Lemma evaluatePosition_giveaway_mover (node : GameNode) :
  0 < countPieces (board node) (turn node) →
  let legal := getLegalMoves (board node) (turn node) (pendingCapture node) in
  let v := evaluatePosition Giveaway node (turn node) None in
  (legal = [] → v = WIN_SCORE)
  ∧ (legal ≠ [] →
     v = evaluateGiveawayPosition node (turn node) legal
     ∧ - WIN_SCORE <= v < WIN_SCORE).
Proof.
  intros Hcount. cbn zeta. unfold evaluatePosition.
  set (legal := getLegalMoves _ _ _). split.
  - intros ->. change (Z.of_nat (length []) =? 0) with true. cbv iota.
    unfold terminalScore, color_eqb.
    cbn [isGiveawayVariant]. rewrite bool_decide_eq_true_2 by done. lia.
  - intros Hne. destruct legal as [|m l] eqn:E; [done|].
    destruct (Z.of_nat (length (m :: l)) =? 0) eqn:E0;
      [exfalso; apply Z.eqb_eq in E0; cbn [length] in E0; lia|].
    cbn [isGiveawayVariant]. split; [done|].
    apply evaluateGiveawayPosition_bound; [|done].
    rewrite <- E. apply getLegalMoves_length.
Qed.

(** C9, as the code has it.  In the giveaway variant, when the side to move
    has exactly one piece left, [evaluatePosition] from that side's
    perspective returns the full win score if that piece has no legal move;
    if it has a legal move the result is the score of
    [evaluateGiveawayPosition], which is strictly below the win score. *)
Theorem giveaway_last_piece_evaluation (node : GameNode) :
  wf_board (board node) →
  countPieces (board node) (turn node) = 1 →
  let legal := getLegalMoves (board node) (turn node) (pendingCapture node) in
  let v := evaluatePosition Giveaway node (turn node) None in
  (legal = [] → v = WIN_SCORE)
  ∧ (legal ≠ [] →
     v = evaluateGiveawayPosition node (turn node) legal
     ∧ - WIN_SCORE <= v < WIN_SCORE).
Proof. intros _ H. apply evaluatePosition_giveaway_mover. lia. Qed.

Lemma giveaway_last_piece_evaluation_witness :
  let node := mkNode boardLastMan (computeBoardHash boardLastMan) W None in
  let legal := getLegalMoves (board node) (turn node) (pendingCapture node) in
  let v := evaluatePosition Giveaway node (turn node) None in
  (legal = [] → v = WIN_SCORE)
  ∧ (legal ≠ [] →
     v = evaluateGiveawayPosition node (turn node) legal
     ∧ - WIN_SCORE <= v < WIN_SCORE).
Proof.
  apply (giveaway_last_piece_evaluation
           (mkNode boardLastMan (computeBoardHash boardLastMan) W None)).
  - apply wf_place.
  - reflexivity.
Defined.

(** C9, as stated, fails: white to move with a single man on (5,0) that can
    step to (4,1), dark with a man on (0,1).  The evaluation for white is
    -20 (progress -16, mobility -4), not the win score. *)
Lemma giveaway_last_piece_not_win :
  let node := mkNode boardLastMan (computeBoardHash boardLastMan) W None in
  countPieces (board node) (turn node) = 1
  ∧ evaluatePosition Giveaway node (turn node) None = -20
  ∧ evaluatePosition Giveaway node (turn node) None ≠ WIN_SCORE.
Proof. cbn zeta. split; [|split]; by vm_compute. Qed.

(** ** Search: the side that is not to move *)

(** C10.  On a position of the grid, when the side asked for is not the side
    to move and the position has a legal move, [chooseBestMove] returns a null move with score
    -1000000 and depth 0, without reading the clock or drawing a random
    number: no search is made. *)
Theorem chooseBestMove_not_to_move (variant : Variant) (dateNow : nat → Z)
  (randomBelow : nat → Q → bool) (randomIndex : nat → nat → nat)
  (state : GameState) (side : Color) (mode : Mode) (w : World) :
  wf_state state →
  state_turn state ≠ side →
  getLegalMoves (state_board state) (state_turn state)
                (state_pendingCapture state) ≠ [] →
  chooseBestMove variant dateNow randomBelow randomIndex state side mode w
  = (Ok (mkResult None (Fin (-1000000)) 0), w).
Proof.
  intros _ Hside Hlegal. unfold chooseBestMove. cbn [board turn pendingCapture].
  destruct (getLegalMoves _ _ _) as [|m l]; [done|].
  destruct (Z.of_nat (length (m :: l)) =? 0) eqn:E0;
    [exfalso; apply Z.eqb_eq in E0; cbn [length] in E0; lia|].
  unfold color_eqb. by rewrite bool_decide_eq_false_2.
Qed.

Lemma chooseBestMove_not_to_move_witness :
  chooseBestMove Classic clockStopped neverBelow firstIndex
                 (mkState createInitialBoard W None Easy) B ModeAi
                 (mkWorld 0 0)
  = (Ok (mkResult None (Fin (-1000000)) 0), mkWorld 0 0).
Proof.
  apply chooseBestMove_not_to_move.
  - split; [|by intros pc].
    split; [done|]. by vm_compute; repeat constructor.
  - discriminate.
  - by vm_compute.
Defined.

(** ** Search: terminal scores and the distance of a win *)

(** In a search of depth [depth], a position without legal moves that is
    reached after [ply] moves is scored by [minimax] with the remaining depth
    [depth - ply]. *)
Lemma minimax_terminal (variant : Variant) (dateNow : nat → Z)
  (rootColor : Color) (deadline : Z) (remaining : nat) (alpha beta : Score)
  (st : SearchState) :
  Z.land (sNodes st + 1) 63 ≠ 0 →
  getLegalMoves (board (sNode st)) (turn (sNode st))
                (pendingCapture (sNode st)) = [] →
  (minimax variant dateNow rootColor deadline remaining alpha beta st).1
  = Ok (Fin (terminalScore variant (turn (sNode st)) rootColor
               (Z.of_nat remaining))).
Proof.
  intros Hclock Hlegal.
  destruct remaining; cbn [minimax]; unfold checkSearchDeadline;
    (destruct (Z.land (sNodes st + 1) 63 =? 0) eqn:E;
     [by apply Z.eqb_eq in E|]);
    cbn [negb sNode]; by rewrite Hlegal.
Qed.

(** The terminal score grows as the remaining depth shrinks: of two wins, the
    one found deeper in the tree scores higher; of two losses, lower. *)
Lemma terminalScore_by_ply (variant : Variant) (sideToMove persp : Color)
  (depth ply1 ply2 : Z) :
  ply1 < ply2 →
  let s1 := terminalScore variant sideToMove persp (depth - ply1) in
  let s2 := terminalScore variant sideToMove persp (depth - ply2) in
  if decide (0 < terminalScore variant sideToMove persp 0)
  then s1 < s2 else s2 < s1.
Proof.
  intros Hply. cbn zeta. unfold terminalScore, WIN_SCORE.
  destruct (if isGiveawayVariant variant then _ else _); case_decide; lia.
Qed.

(** C5 on the code: white to move with men on (7,0) and (7,2) against a dark
    man on (5,0), classic rules.  The step (7,0)-(6,1) leaves dark without a
    move, a win after one ply; after (7,2)-(6,3) dark must step to (6,1) and
    is captured, a win after three plies.  In one call of [minimax] at depth
    8 the nearer win is scored with the remaining depth 7, that is 999993,
    and the farther one with the remaining depth 5, that is 999995; the call
    returns 999995 with (7,2)-(6,3) as its best move, and [chooseBestMove] at
    difficulty hard (depth 8, no randomness) returns the slower win. *)
Theorem slower_win_scores_higher :
  let root := mkNode boardTwoWins (computeBoardHash boardTwoWins) W None in
  let quick := mkMove (mkCoords 7 0) (mkCoords 6 1) [] in
  let slow := mkMove (mkCoords 7 2) (mkCoords 6 3) [] in
  let call :=
    minimax Classic clockStopped W 1500 8 NegInf PosInf (mkSearch root ∅ 0 1) in
  let after m := mkSearch (applyMoveMutable root m).2 ∅ 0 1 in
  let child m :=
    (minimax Classic clockStopped W 1500 7 NegInf PosInf (after m)).1 in
  getLegalMoves (board (sNode (after quick))) (turn (sNode (after quick)))
                (pendingCapture (sNode (after quick))) = []
  ∧ child quick = Ok (Fin (terminalScore Classic B W 7))
  ∧ terminalScore Classic B W 7 = 999993
  ∧ child slow = Ok (Fin (terminalScore Classic B W 5))
  ∧ terminalScore Classic B W 5 = 999995
  ∧ call.1 = Ok (Fin 999995)
  ∧ ttBestMove <$> (sTable call.2 !! nodeCacheKey Classic root)
    = Some (Some slow)
  ∧ (chooseBestMove Classic clockStopped neverBelow firstIndex stateTwoWins W
                    ModeAi (mkWorld 0 0)).1
    = Ok (mkResult (Some slow) (Fin 999995) 8).
Proof. cbn zeta. repeat split; by vm_compute. Qed.

(** ** Search: move ordering *)

Lemma insertScored_perm (x : Move * Z) (l : list (Move * Z)) :
  insertScored x l ≡ₚ x :: l.
Proof.
  induction l as [|y l IH]; cbn [insertScored]; [done|].
  destruct (x.2 <? y.2); [|done]. rewrite IH. apply Permutation_swap.
Qed.

Lemma sortScored_perm (l : list (Move * Z)) : sortScored l ≡ₚ l.
Proof.
  induction l as [|x l IH]; [done|]. unfold sortScored. cbn [foldr].
  rewrite insertScored_perm. by constructor.
Qed.

Lemma orderMoves_perm (board : Board) (moves : list Move)
  (preferred : option Move) :
  orderMoves board moves preferred ≡ₚ moves.
Proof.
  unfold orderMoves. rewrite sortScored_perm.
  rewrite <- list_fmap_compose.
  induction moves as [|m l IH]; [done|]. cbn [fmap list_fmap compose fst].
  by constructor.
Qed.

Lemma orderMoves_elem (board : Board) (moves : list Move)
  (preferred : option Move) (m : Move) :
  m ∈ orderMoves board moves preferred ↔ m ∈ moves.
Proof. by rewrite orderMoves_perm. Qed.

(** ** Search: scores *)

Lemma score_leb_refl (a : Score) : score_leb a a = true.
Proof. unfold score_leb. destruct a; cbn; [done| |done]. lia. Qed.

Lemma score_ltb_leb (a b : Score) : score_ltb a b = true → score_leb a b = true.
Proof. unfold score_leb. destruct a, b; cbn; try done. lia. Qed.

Lemma score_leb_total (a b : Score) : score_ltb a b = false → score_leb b a = true.
Proof. unfold score_leb. by intros ->. Qed.

Lemma score_leb_trans (a b d : Score) :
  score_leb a b = true → score_leb b d = true → score_leb a d = true.
Proof. unfold score_leb. destruct a, b, d; cbn; try done. lia. Qed.

(** ** Search: the node is restored and only timeouts are thrown *)

Lemma applyMoveMutable_wf (node : GameNode) (m : Move) :
  wf_board (board node) → wf_board (board (applyMoveMutable node m).2).
Proof.
  intros Hwf. unfold applyMoveMutable.
  destruct (cell (board node) (r (from m)) (c (from m))) as [piece|]; [|done].
  pose proof (captureStep_wf (captures m)
                (setCell (board node) (r (from m)) (c (from m)) None)
                (Z.lxor (hash node) (pieceTerm (r (from m)) (c (from m)) piece))
                [] (wf_setCell _ _ _ _ Hwf)) as Hwf2.
  destruct (foldl captureStep _ (captures m)) as [[board2 h2] caps].
  cbn [fst] in Hwf2.
  destruct (nextTurnState _ _ _) as [[t p]|e]; cbn [snd board];
    by apply wf_setCell.
Qed.

Section SearchProperties.

Variable variant : Variant.
Variable dateNow : nat → Z.
Variable randomBelow : nat → Q → bool.
Variable randomIndex : nat → nat → nat.

Lemma checkSearchDeadline_restores (deadline : Z) :
  restores (checkSearchDeadline dateNow deadline).
Proof.
  intros st _. unfold checkSearchDeadline.
  destruct (negb _); [done|]. by destruct (deadline <=? _).
Qed.

Lemma minimaxMoves_restores
  (search : Score → Score → SearchState → js Score * SearchState)
  (maximizing : bool) (moves : list Move) (ls : LoopState) (st : SearchState) :
  (∀ a b, restores (search a b)) →
  wf_board (board (sNode st)) →
  (∀ m, m ∈ moves →
        m ∈ getLegalMoves (board (sNode st)) (turn (sNode st))
              (pendingCapture (sNode st))) →
  sNode (minimaxMoves search maximizing moves ls st).2 = sNode st
  ∧ benign (minimaxMoves search maximizing moves ls st).1.
Proof.
  intros Hsearch. revert ls st.
  induction moves as [|m rest IH]; intros ls st Hwf Hlegal; [done|].
  cbn [minimaxMoves].
  destruct (applyMoveMutable_undo (sNode st) m Hwf) as (undo & node1 & Ha & Hu).
  { apply Hlegal. left. }
  rewrite Ha.
  destruct (Hsearch (lAlpha ls) (lBeta ls) (setNode st node1)) as [Hn Hb].
  { cbn [setNode sNode]. replace node1 with (applyMoveMutable (sNode st) m).2
      by (by rewrite Ha). by apply applyMoveMutable_wf. }
  destruct (search (lAlpha ls) (lBeta ls) (setNode st node1)) as [res st1].
  cbn [fst snd setNode sNode] in Hn, Hb. rewrite Hn, Hu.
  destruct res as [childScore|e]; [|by split].
  match goal with |- context [if ?b then (Ok ?l, _) else _] =>
    destruct b; [by split|] end.
  match goal with |- context [minimaxMoves _ _ rest ?l ?s] =>
    destruct (IH l s) as [IHn IHb] end.
  { done. }
  { intros m' Hm'. apply Hlegal. by right. }
  by rewrite IHn.
Qed.

Lemma minimax_restores (rootColor : Color) (deadline : Z) (depth : nat)
  (alpha beta : Score) :
  restores (minimax variant dateNow rootColor deadline depth alpha beta).
Proof.
  revert alpha beta. induction depth as [|depth IH]; intros alpha beta st Hwf;
    cbn [minimax];
    destruct (checkSearchDeadline_restores deadline st Hwf) as [Hn Hb];
    destruct (checkSearchDeadline dateNow deadline st) as [[[]|e] st0];
    cbn [fst snd] in Hn, Hb; try done;
    destruct (Z.of_nat (length _) =? 0); try done.
  match goal with
  | |- context [match ?p with inl _ => _ | inr _ => _ end] =>
      destruct p as [score|[[alpha0 beta0] preferredMove]]
  end; [by rewrite <- Hn|].
  match goal with
  | |- context [minimaxMoves ?f ?mx ?mv ?l ?s] =>
      destruct (minimaxMoves_restores f mx mv l s) as [Hn' Hb']
  end.
  { intros a b. apply IH. }
  { by rewrite Hn. }
  { intros m Hm. by apply orderMoves_elem in Hm. }
  destruct (minimaxMoves _ _ _ _ st0) as [[ls|e] st'];
    cbn [fst snd sNode] in *; split; done || congruence.
Qed.

Lemma root_inv_step (m : Move) (rest : list Move) (rl : RootLoop)
  (score : Score) :
  root_inv (m :: rest) rl →
  let better := score_ltb (depthBestScore rl) score in
  root_inv rest
    (mkRoot (if better then Some m else depthBestMove rl)
            (if better then score else depthBestScore rl)
            (depthScores rl ++ [(Some m, score)])).
Proof.
  intros Hinv. cbn zeta. right. unfold isBestOf. cbn [depthScores
    depthBestMove depthBestScore].
  destruct Hinv as [(Hnil & Hs & Hm)|[Hin Hmax]].
  - rewrite Hnil, Hs, Hm. cbn [head app].
    destruct (score_ltb NegInf score) eqn:Hlt.
    + split; [left|]. intros e ->%list_elem_of_singleton.
      apply score_leb_refl.
    + assert (score = NegInf) as -> by (by destruct score).
      split; [left|]. by intros e ->%list_elem_of_singleton.
  - destruct (score_ltb (depthBestScore rl) score) eqn:Hlt.
    + split; [apply elem_of_app; right; left|].
      intros e [He| ->%list_elem_of_singleton]%elem_of_app.
      * eapply score_leb_trans; [by apply Hmax|by apply score_ltb_leb].
      * apply score_leb_refl.
    + split; [apply elem_of_app; by left|].
      intros e [He| ->%list_elem_of_singleton]%elem_of_app.
      * by apply Hmax.
      * by apply score_leb_total.
Qed.

Lemma rootMoves_spec (side : Color) (deadline : Z) (depth' : nat)
  (moves processed : list Move) (rl : RootLoop) (st : SearchState) :
  wf_board (board (sNode st)) →
  (∀ m, m ∈ moves →
        m ∈ getLegalMoves (board (sNode st)) (turn (sNode st))
              (pendingCapture (sNode st))) →
  (depthScores rl).*1 = Some <$> processed →
  root_inv moves rl →
  let out := rootMoves variant dateNow side deadline depth' moves rl st in
  sNode out.2 = sNode st ∧ benign out.1
  ∧ ∀ rl', out.1 = Ok rl' →
           (depthScores rl').*1 = Some <$> (processed ++ moves)
           ∧ root_inv [] rl'.
Proof.
  revert processed rl st.
  induction moves as [|m rest IH]; intros processed rl st Hwf Hlegal Hsc Hinv.
  - cbn. rewrite app_nil_r. split; [done|]. split; [done|].
    by intros rl' [= <-].
  - cbn zeta. cbn [rootMoves].
    destruct (deadline <=? dateNow (sTime st)); [by repeat split|].
    cbn [sNode].
    destruct (applyMoveMutable_undo (sNode st) m Hwf)
      as (undo & node1 & Ha & Hu).
    { apply Hlegal. left. }
    rewrite Ha.
    match goal with
    | |- context [minimax ?v ?dn ?sd ?dl ?dp ?a ?b ?s] =>
        destruct (minimax_restores sd dl dp a b s) as [Hn Hb];
        [|destruct (minimax v dn sd dl dp a b s) as [res st1]]
    end.
    { cbn [setNode sNode].
      replace node1 with (applyMoveMutable (sNode st) m).2
        by (by rewrite Ha). by apply applyMoveMutable_wf. }
    cbn [fst snd setNode sNode] in Hn, Hb. rewrite Hn, Hu.
    destruct res as [score|e]; [|by repeat split].
    match goal with
    | |- context [rootMoves _ _ _ _ _ rest ?l ?s] =>
        destruct (IH (processed ++ [m]) l s) as (IHn & IHb & IHr)
    end.
    { done. }
    { intros m' Hm'. apply Hlegal. by right. }
    { cbn [depthScores]. rewrite fmap_app, Hsc, fmap_app. done. }
    { by apply root_inv_step. }
    cbn zeta in IHn, IHb, IHr. cbn [setNode sNode] in IHn.
    split; [done|]. split; [done|].
    intros rl' Hrl'. destruct (IHr rl' Hrl') as [H1 H2].
    split; [|done]. by rewrite H1, <- app_assoc.
Qed.

Lemma searchDepth_spec (side : Color) (deadline : Z) (legalMoves : list Move)
  (depth : nat) (hint : option Move) (st : SearchState) :
  wf_board (board (sNode st)) →
  legalMoves = getLegalMoves (board (sNode st)) (turn (sNode st))
                 (pendingCapture (sNode st)) →
  legalMoves ≠ [] →
  let out := searchDepth variant dateNow side deadline legalMoves depth hint
                         st in
  sNode out.2 = sNode st ∧ benign out.1
  ∧ ∀ rl, out.1 = Ok rl →
          (depthScores rl).*1 ≡ₚ Some <$> legalMoves
          ∧ isBestOf (depthScores rl) (depthBestMove rl) (depthBestScore rl).
Proof.
  intros Hwf Hlegal Hne. cbn zeta. unfold searchDepth.
  match goal with
  | |- context [rootMoves _ _ ?sd ?dl ?dp ?mv ?l ?s] =>
      destruct (rootMoves_spec sd dl dp mv [] l s) as (Hn & Hb & Hr)
  end.
  { done. }
  { intros m Hm. apply orderMoves_elem in Hm. by rewrite <- Hlegal. }
  { done. }
  { by left. }
  cbn zeta in Hn, Hb, Hr. split; [done|]. split; [done|].
  intros rl Hrl. destruct (Hr rl Hrl) as [H1 H2]. cbn [app] in H1.
  split.
  - rewrite H1. by rewrite orderMoves_perm.
  - destruct H2 as [(Hnil & _)|H2]; [|done].
    rewrite Hnil in H1. symmetry in H1. apply fmap_nil_inv in H1.
    exfalso. apply Hne. apply Permutation_nil.
    rewrite <- (orderMoves_perm (board (sNode st)) legalMoves hint).
    by rewrite H1.
Qed.

Lemma deepen_spec (side : Color) (deadline : Z) (legalMoves : list Move)
  (n k : nat) (d : Deepening) (st : SearchState) :
  wf_board (board (sNode st)) →
  legalMoves = getLegalMoves (board (sNode st)) (turn (sNode st))
                 (pendingCapture (sNode st)) →
  legalMoves ≠ [] →
  deepReached d = k →
  deep_inv variant dateNow side deadline legalMoves d →
  ∃ d' st',
    deepen variant dateNow side deadline legalMoves (seq (S k) n) d st
    = (Ok d', st')
    ∧ sNode st' = sNode st
    ∧ deep_inv variant dateNow side deadline legalMoves d'
    ∧ (k ≤ deepReached d' ≤ k + n)%nat
    ∧ ((deepReached d' < k + n)%nat →
       interrupted variant dateNow side deadline legalMoves (sNode st) d').
Proof.
  revert k d st.
  induction n as [|n IH]; intros k d st Hwf Hlegal Hne Hk Hinv.
  - exists d, st. cbn [seq deepen]. repeat split; try done; lia.
  - cbn [seq deepen].
    destruct (deadline <=? dateNow (sTime st)) eqn:Hdead.
    { eexists d, _. split; [done|]. cbn [sNode].
      repeat split; try done; try lia.
      intros _. exists st. split; [done|]. left. lia. }
    set (st1 := mkSearch (sNode st) (sTable st) (sNodes st) (S (sTime st))).
    destruct (searchDepth_spec side deadline legalMoves (S k) (bestMove d) st1)
      as (Hn & Hb & Hr); [done..|].
    cbn zeta in Hn, Hb, Hr. change (sNode st1) with (sNode st) in Hn.
    destruct (searchDepth variant dateNow side deadline legalMoves (S k)
                          (bestMove d) st1) as [[rl|e] st'] eqn:Hsd;
      cbn [fst snd] in Hn, Hb, Hr.
    + destruct (Hr rl eq_refl) as [Hperm Hbest].
      destruct (IH (S k)
                  (mkDeepening (depthBestMove rl) (depthBestScore rl) (S k)
                               (depthScores rl)) st')
        as (d' & st'' & Hd & Hn' & Hinv' & Hrange & Hint).
      { by rewrite Hn. }
      { by rewrite Hn. }
      { done. }
      { done. }
      { right. unfold completedDepth. cbn [deepReached bestMove bestScore
          scoredAtDepth]. split; [lia|]. split; [|done].
        by exists (bestMove d), st1, rl, st'. }
      exists d', st''. split; [done|]. split; [by rewrite Hn', Hn|].
      split; [done|]. split; [lia|].
      intros Hlt. rewrite <- Hn at 1. apply Hint. lia.
    + rewrite Hb. exists d, st'. split; [done|]. split; [done|].
      split; [done|]. split; [lia|].
      intros _. exists st. split; [done|]. right.
      rewrite Hk. fold st1. by rewrite Hsd, Hb.
Qed.


Lemma elem_of_List_filter {A} (f : A → bool) (l : list A) (x : A) :
  x ∈ List.filter f l ↔ x ∈ l ∧ f x = true.
Proof. by rewrite !list_elem_of_In, filter_In. Qed.

Lemma deep_inv_best_scored (side : Color) (deadline : Z)
  (legalMoves : list Move) (d : Deepening) :
  deep_inv variant dateNow side deadline legalMoves d →
  (bestMove d, bestScore d) ∈ scoredAtDepth d.
Proof.
  intros [(_ & -> & -> & ->)|(_ & _ & _ & [H _])]; [left|done].
Qed.

Hypothesis randomIndex_range :
  ∀ n len, (0 < len)%nat → (randomIndex n len < len)%nat.


End SearchProperties.



(** ** Concrete positions *)

(** With a capture on the board the capture is the only legal move. *)
Example capture_is_mandatory :
  getLegalMoves boardBackwardCapture W None
  = [mkMove (mkCoords 4 3) (mkCoords 6 5) [mkCoords 5 4]]
  ∧ allQuietMoves boardBackwardCapture W
    = [mkMove (mkCoords 4 3) (mkCoords 3 2) [];
       mkMove (mkCoords 4 3) (mkCoords 3 4) []].
Proof. split; by vm_compute. Qed.

(** From the initial position white has seven steps and no capture. *)
Example initial_moves :
  getLegalMoves createInitialBoard W None = allQuietMoves createInitialBoard W
  ∧ length (getLegalMoves createInitialBoard W None) = 7%nat
  ∧ allCaptureMoves createInitialBoard W = [].
Proof. repeat split; by vm_compute. Qed.

(** A king slides and captures at a distance: the white king on (7,0)
    captures the dark man on (5,2) and may land on any empty square behind
    it. *)
Example king_captures_at_distance :
  getLegalMoves (place [(7, 0, whiteKing); (5, 2, darkMan)]) W None
  = [mkMove (mkCoords 7 0) (mkCoords 4 3) [mkCoords 5 2];
     mkMove (mkCoords 7 0) (mkCoords 3 4) [mkCoords 5 2];
     mkMove (mkCoords 7 0) (mkCoords 2 5) [mkCoords 5 2];
     mkMove (mkCoords 7 0) (mkCoords 1 6) [mkCoords 5 2];
     mkMove (mkCoords 7 0) (mkCoords 0 7) [mkCoords 5 2]].
Proof. by vm_compute. Qed.

(** Promotion is part of the move, and the undo takes it back. *)
Example promotion_roundtrip :
  let node := mkNode boardPromotion (computeBoardHash boardPromotion) W None in
  let m := mkMove (mkCoords 2 3) (mkCoords 0 5) [mkCoords 1 4] in
  let out := applyMoveMutable node m in
  cell (board out.2) 0 5 = Some whiteKing
  ∧ cell (board out.2) 1 4 = None
  ∧ hash out.2 = computeBoardHash (board out.2)
  ∧ ∃ undo, out.1 = Ok undo
            ∧ wasKing undo = false
            ∧ undoMoveMutable out.2 undo = node.
Proof.
  cbn zeta. split; [|split; [|split]]; try by vm_compute.
  eexists. by vm_compute.
Qed.

(** * Further properties of the engine *)

(** ** The moves of a king, exactly *)

Lemma ray_succ (x d : Z) (k : nat) :
  x + d + Z.of_nat k * d = x + Z.of_nat (S k) * d.
Proof. rewrite Nat2Z.inj_succ. ring. Qed.

Lemma slideMoves_elem (n : nat) (board : Board) (r0 c0 dr dc nr nc : Z)
  (m : Move) :
  m ∈ slideMoves n board r0 c0 dr dc nr nc ↔
  ∃ k : nat,
    (k < n)%nat
    ∧ m = mkMove (mkCoords r0 c0)
                 (mkCoords (nr + Z.of_nat k * dr) (nc + Z.of_nat k * dc)) []
    ∧ ∀ i : nat, (i ≤ k)%nat →
        emptyAt board (nr + Z.of_nat i * dr) (nc + Z.of_nat i * dc).
Proof.
  revert nr nc. induction n as [|n IH]; intros nr nc.
  - cbn [slideMoves]. split; [by intros ?%elem_of_nil|].
    intros (k & Hk & _). lia.
  - cbn [slideMoves]. split.
    + destruct (isInside nr nc) eqn:Hin; [|by intros ?%elem_of_nil].
      destruct (negb (bool_decide (is_Some (cell board nr nc)))) eqn:Hc;
        [|by intros ?%elem_of_nil].
      apply not_is_Some_None in Hc. cbn [andb].
      intros [->|Hm]%elem_of_cons.
      * exists 0%nat. split; [lia|]. cbn [Z.of_nat].
        rewrite !Z.mul_0_l, !Z.add_0_r. split; [done|].
        intros i Hi. assert (i = 0%nat) as -> by lia. cbn [Z.of_nat].
        rewrite !Z.mul_0_l, !Z.add_0_r. by split.
      * apply IH in Hm as (k & Hk & -> & Hall).
        exists (S k). split; [lia|]. rewrite !ray_succ. split; [done|].
        intros [|i] Hi.
        -- cbn [Z.of_nat]. rewrite !Z.mul_0_l, !Z.add_0_r. by split.
        -- rewrite <- !ray_succ. apply Hall. lia.
    + intros (k & Hk & -> & Hall).
      destruct (Hall 0%nat ltac:(lia)) as [Hin Hc].
      cbn [Z.of_nat] in Hin, Hc. rewrite !Z.mul_0_l, !Z.add_0_r in Hin, Hc.
      rewrite Hin, Hc. cbn.
      destruct k as [|k].
      * cbn [Z.of_nat]. rewrite !Z.mul_0_l, !Z.add_0_r. left.
      * right. apply IH. exists k. split; [lia|]. rewrite !ray_succ.
        split; [done|]. intros i Hi. rewrite !ray_succ. apply Hall. lia.
Qed.

Lemma ray_zero (x d : Z) : x + Z.of_nat 0 * d = x.
Proof. cbn [Z.of_nat]. lia. Qed.

Lemma kingRay_enemy_elem (n : nat) (board : Board) (piece : Piece)
  (r0 c0 dr dc nr nc : Z) (e : Coords) (m : Move) :
  m ∈ kingRay n board piece r0 c0 dr dc nr nc (Some e) ↔
  ∃ k : nat,
    (k < n)%nat
    ∧ m = mkMove (mkCoords r0 c0)
                 (mkCoords (nr + Z.of_nat k * dr) (nc + Z.of_nat k * dc)) [e]
    ∧ ∀ i : nat, (i ≤ k)%nat →
        emptyAt board (nr + Z.of_nat i * dr) (nc + Z.of_nat i * dc).
Proof.
  revert nr nc. induction n as [|n IH]; intros nr nc.
  - cbn [kingRay]. split; [by intros ?%elem_of_nil|].
    intros (k & Hk & _). lia.
  - rewrite kingRay_S. split.
    + destruct (isInside nr nc) eqn:Hin; [|by intros ?%elem_of_nil].
      destruct (cell board nr nc) as [cur|] eqn:Hc; [by intros ?%elem_of_nil|].
      intros [->|Hm]%elem_of_cons.
      * exists 0%nat. split; [lia|]. rewrite !ray_zero. split; [done|].
        intros i Hi. assert (i = 0%nat) as -> by lia.
        rewrite !ray_zero. by split.
      * apply IH in Hm as (k & Hk & -> & Hall).
        exists (S k). split; [lia|]. rewrite !ray_succ. split; [done|].
        intros [|i] Hi.
        -- rewrite !ray_zero. by split.
        -- rewrite <- !ray_succ. apply Hall. lia.
    + intros (k & Hk & -> & Hall).
      destruct (Hall 0%nat ltac:(lia)) as [Hin Hc].
      rewrite !ray_zero in Hin, Hc. rewrite Hin, Hc.
      destruct k as [|k].
      * rewrite !ray_zero. left.
      * right. apply IH. exists k. split; [lia|]. rewrite !ray_succ.
        split; [done|]. intros i Hi. rewrite !ray_succ. apply Hall. lia.
Qed.

Lemma kingRay_elem (n : nat) (board : Board) (piece : Piece)
  (r0 c0 dr dc nr nc : Z) (m : Move) :
  m ∈ kingRay n board piece r0 c0 dr dc nr nc None ↔
  ∃ j k : nat,
    (j < k)%nat ∧ (k < n)%nat
    ∧ (∀ i : nat, (i < j)%nat →
         emptyAt board (nr + Z.of_nat i * dr) (nc + Z.of_nat i * dc))
    ∧ isInside (nr + Z.of_nat j * dr) (nc + Z.of_nat j * dc) = true
    ∧ (∃ q, cell board (nr + Z.of_nat j * dr) (nc + Z.of_nat j * dc) = Some q
            ∧ color q ≠ color piece)
    ∧ (∀ i : nat, (j < i)%nat → (i ≤ k)%nat →
         emptyAt board (nr + Z.of_nat i * dr) (nc + Z.of_nat i * dc))
    ∧ m = mkMove (mkCoords r0 c0)
                 (mkCoords (nr + Z.of_nat k * dr) (nc + Z.of_nat k * dc))
                 [mkCoords (nr + Z.of_nat j * dr) (nc + Z.of_nat j * dc)].
Proof.
  revert nr nc. induction n as [|n IH]; intros nr nc.
  - cbn [kingRay]. split; [by intros ?%elem_of_nil|].
    intros (j & k & _ & Hk & _). lia.
  - rewrite kingRay_S. split.
    + destruct (isInside nr nc) eqn:Hin; [|by intros ?%elem_of_nil].
      destruct (cell board nr nc) as [cur|] eqn:Hc.
      * destruct (color_eqb (color cur) (color piece)) eqn:Hcol;
          [by intros ?%elem_of_nil|].
        intros (k & Hk & -> & Hall)%kingRay_enemy_elem.
        exists 0%nat, (S k). split; [lia|]. split; [lia|].
        split; [intros i Hi; lia|]. rewrite !ray_zero. split; [done|].
        split.
        { exists cur. split; [done|]. apply color_eqb_false. by rewrite Hcol. }
        split; [|by rewrite !ray_succ].
        intros [|i] Hi Hik; [lia|]. rewrite <- !ray_succ. apply Hall. lia.
      * intros (j & k & Hjk & Hk & Hbefore & Hinj & Hq & Hafter & ->)%IH.
        exists (S j), (S k). split; [lia|]. split; [lia|].
        rewrite <- !ray_succ. split.
        { intros [|i] Hi; [rewrite !ray_zero; by split|].
          rewrite <- !ray_succ. apply Hbefore. lia. }
        split; [done|]. split; [done|]. split; [|done].
        intros [|i] Hi Hik; [lia|]. rewrite <- !ray_succ. apply Hafter; lia.
    + intros (j & k & Hjk & Hk & Hbefore & Hinj & (q & Hq & Hqcol) & Hafter & ->).
      destruct j as [|j].
      * rewrite !ray_zero in Hinj, Hq. rewrite Hinj, Hq.
        destruct (color_eqb (color q) (color piece)) eqn:Hcol.
        { exfalso. apply Hqcol. unfold color_eqb in Hcol.
          by apply bool_decide_eq_true in Hcol. }
        apply kingRay_enemy_elem. destruct k as [|k]; [lia|].
        exists k. split; [lia|]. rewrite !ray_succ, !ray_zero.
        split; [done|]. intros i Hi. rewrite !ray_succ. apply Hafter; lia.
      * destruct (Hbefore 0%nat ltac:(lia)) as [Hin Hc].
        rewrite !ray_zero in Hin, Hc. rewrite Hin, Hc.
        apply IH. destruct k as [|k]; [lia|].
        exists j, k. split; [lia|]. split; [lia|]. rewrite !ray_succ.
        split; [intros i Hi; rewrite !ray_succ; apply Hbefore; lia|].
        split; [done|]. split; [by exists q|]. split; [|done].
        intros i Hi Hik. rewrite !ray_succ. apply Hafter; lia.
Qed.

Lemma DIRECTIONS_unit (dr dc : Z) :
  (dr, dc) ∈ DIRECTIONS → (dr = 1 ∨ dr = -1) ∧ (dc = 1 ∨ dc = -1).
Proof.
  unfold DIRECTIONS. intros Hd.
  repeat (apply elem_of_cons in Hd as [[= -> ->]|Hd]; [lia|]).
  by apply elem_of_nil in Hd.
Qed.

Lemma slideMoves_any_fuel (n : nat) (board : Board) (r0 c0 dr dc nr nc : Z) :
  dr = 1 ∨ dr = -1 → (8 ≤ n)%nat →
  slideMoves n board r0 c0 dr dc nr nc = slideMoves 8 board r0 c0 dr dc nr nc.
Proof.
  intros Hdr Hn. replace n with (8 + (n - 8))%nat by lia.
  by apply slideMoves_fuel.
Qed.

Lemma kingRay_any_fuel (n : nat) (board : Board) (piece : Piece)
  (r0 c0 dr dc nr nc : Z) (enemy : option Coords) :
  dr = 1 ∨ dr = -1 → (8 ≤ n)%nat →
  kingRay n board piece r0 c0 dr dc nr nc enemy
  = kingRay 8 board piece r0 c0 dr dc nr nc enemy.
Proof.
  intros Hdr Hn. replace n with (8 + (n - 8))%nat by lia.
  by apply kingRay_fuel.
Qed.

Lemma king_slides_elem (board : Board) (r0 c0 : Z) (col : Color)
  (m : Move) :
  m ∈ getSimpleMovesForPiece board r0 c0 (mkPiece col true) ↔
  ∃ (dr dc : Z) (s : nat),
    (dr, dc) ∈ DIRECTIONS ∧ (1 ≤ s)%nat
    ∧ m = mkMove (mkCoords r0 c0) (ray r0 c0 dr dc s) []
    ∧ ∀ i : nat, (1 ≤ i)%nat → (i ≤ s)%nat →
        emptySquare board (ray r0 c0 dr dc i).
Proof.
  unfold getSimpleMovesForPiece. cbn [king]. rewrite list_elem_of_bind.
  unfold ray, emptySquare. cbn [r c]. split.
  - intros ([dr dc] & Hm & Hd).
    apply slideMoves_elem in Hm as (k & _ & -> & Hall).
    exists dr, dc, (S k). split; [done|]. split; [lia|].
    rewrite !ray_succ. split; [done|].
    intros [|i] Hi Hik; [lia|]. rewrite <- !ray_succ. apply Hall. lia.
  - intros (dr & dc & s & Hd & Hs & -> & Hall).
    exists (dr, dc). split; [|done].
    destruct (DIRECTIONS_unit _ _ Hd) as [Hdr _].
    rewrite <- (slideMoves_any_fuel (8 + s)) by (done || lia).
    apply slideMoves_elem. destruct s as [|k]; [lia|].
    exists k. split; [lia|]. rewrite !ray_succ. split; [done|].
    intros i Hi. rewrite !ray_succ. apply Hall; lia.
Qed.

Lemma king_jumps_elem (board : Board) (r0 c0 : Z) (piece : Piece)
  (m : Move) :
  m ∈ getKingCaptures board r0 c0 piece ↔
  ∃ (dr dc : Z) (j s : nat),
    (dr, dc) ∈ DIRECTIONS ∧ (1 ≤ j)%nat ∧ (j < s)%nat
    ∧ (∀ i : nat, (1 ≤ i)%nat → (i < j)%nat →
         emptySquare board (ray r0 c0 dr dc i))
    ∧ enemySquareOf board piece (ray r0 c0 dr dc j)
    ∧ (∀ i : nat, (j < i)%nat → (i ≤ s)%nat →
         emptySquare board (ray r0 c0 dr dc i))
    ∧ m = mkMove (mkCoords r0 c0) (ray r0 c0 dr dc s) [ray r0 c0 dr dc j].
Proof.
  unfold getKingCaptures. rewrite list_elem_of_bind.
  unfold ray, emptySquare, enemySquareOf. cbn [r c]. split.
  - intros ([dr dc] & Hm & Hd).
    apply kingRay_elem in Hm
      as (j & k & Hjk & _ & Hbefore & Hin & Hq & Hafter & ->).
    exists dr, dc, (S j), (S k). split; [done|]. split; [lia|]. split; [lia|].
    rewrite <- !ray_succ. split.
    { intros [|i] Hi Hij; [lia|]. rewrite <- !ray_succ. apply Hbefore. lia. }
    split; [done|]. split; [|done].
    intros [|i] Hi Hik; [lia|]. rewrite <- !ray_succ. apply Hafter; lia.
  - intros (dr & dc & j & s & Hd & Hj & Hjs & Hbefore & [Hin Hq] & Hafter & ->).
    exists (dr, dc). split; [|done].
    destruct (DIRECTIONS_unit _ _ Hd) as [Hdr _].
    rewrite <- (kingRay_any_fuel (8 + s)) by (done || lia).
    apply kingRay_elem.
    destruct j as [|j]; [lia|]. destruct s as [|k]; [lia|].
    exists j, k. split; [lia|]. split; [lia|]. rewrite !ray_succ.
    split; [intros i Hi; rewrite !ray_succ; apply Hbefore; lia|].
    split; [done|]. split; [done|]. split; [|done].
    intros i Hi Hik. rewrite !ray_succ. apply Hafter; lia.
Qed.

(** ** Every legal move, piece by piece *)

Lemma getLegalMoves_origin (board : Board) (color0 : Color)
  (pending : option Coords) (m : Move) :
  m ∈ getLegalMoves board color0 pending →
  ∃ r0 c0 piece,
    cell board r0 c0 = Some piece ∧ color piece = color0
    ∧ (m ∈ getCaptureMovesForPiece board r0 c0 piece
       ∨ (pending = None ∧ m ∈ getSimpleMovesForPiece board r0 c0 piece)).
Proof.
  destruct pending as [pc|].
  - unfold getLegalMoves.
    destruct (cell board (r pc) (c pc)) as [piece|] eqn:Hcell;
      [|by intros ?%elem_of_nil].
    destruct (negb (color_eqb _ _)) eqn:Hcol; [by intros ?%elem_of_nil|].
    intros Hm. exists (r pc), (c pc), piece.
    split; [done|]. split; [by apply color_eqb_true|]. by left.
  - rewrite getLegalMoves_scan. intros Hm.
    assert (m ∈ allCaptureMoves board color0 ∨ m ∈ allQuietMoves board color0)
      as [H|H] by (destruct (nonEmpty _); auto).
    + apply list_elem_of_bind in H as ([r0 c0] & H & _).
      unfold capturesAt, color_eqb in H. cbn [fst snd] in H.
      destruct (cell board r0 c0) as [piece|] eqn:Hcell;
        [|by apply elem_of_nil in H].
      case_bool_decide; [|by apply elem_of_nil in H].
      exists r0, c0, piece. split; [done|]. split; [done|]. by left.
    + apply list_elem_of_bind in H as ([r0 c0] & H & _).
      unfold quietAt, color_eqb in H. cbn [fst snd] in H.
      destruct (cell board r0 c0) as [piece|] eqn:Hcell;
        [|by apply elem_of_nil in H].
      case_bool_decide; [|by apply elem_of_nil in H].
      exists r0, c0, piece. split; [done|]. split; [done|]. by right.
Qed.

Lemma ray_one (r0 c0 dr dc : Z) : ray r0 c0 dr dc 1 = mkCoords (r0 + dr) (c0 + dc).
Proof. unfold ray. f_equal; lia. Qed.

Lemma ray_two (r0 c0 dr dc : Z) :
  ray r0 c0 dr dc 2 = mkCoords (r0 + dr * 2) (c0 + dc * 2).
Proof. unfold ray. f_equal; lia. Qed.

Lemma getSimpleMovesForPiece_diagonal (board : Board) (r0 c0 : Z)
  (piece : Piece) (m : Move) :
  m ∈ getSimpleMovesForPiece board r0 c0 piece → alongDiagonal m.
Proof.
  destruct piece as [col [|]].
  - intros (dr & dc & s & Hd & Hs & -> & _)%king_slides_elem.
    exists dr, dc, s. cbn [from to r c captures]. auto.
  - intros Hm. unfold getSimpleMovesForPiece in Hm. cbn [king color] in Hm.
    apply list_elem_of_bind in Hm as (dc & H & Hdc).
    destruct (_ && _); [|by apply elem_of_nil in H].
    apply list_elem_of_singleton in H as ->.
    exists (match col with W => -1 | B => 1 end), dc, 1%nat.
    cbn [from to r c captures]. rewrite ray_one.
    split; [|by auto].
    unfold DIRECTIONS.
    repeat (apply elem_of_cons in Hdc as [->|Hdc]);
      [| |by apply elem_of_nil in Hdc]; destruct col;
      apply (bool_decide_unpack _); vm_compute; reflexivity.
Qed.

Lemma getCaptureMovesForPiece_diagonal (board : Board) (r0 c0 : Z)
  (piece : Piece) (m : Move) :
  m ∈ getCaptureMovesForPiece board r0 c0 piece → alongDiagonal m.
Proof.
  unfold getCaptureMovesForPiece. destruct (king piece).
  - intros (dr & dc & j & s & Hd & Hj & Hjs & _ & _ & _ & ->)%king_jumps_elem.
    exists dr, dc, s. cbn [from to r c captures].
    split; [done|]. split; [lia|]. split; [done|]. right. by exists j.
  - intros (dr & dc & Hd & -> & _)%getManCaptures_dir.
    exists dr, dc, 2%nat. cbn [from to r c captures].
    rewrite ray_two. split; [done|]. split; [lia|]. split; [done|].
    right. exists 1%nat. rewrite ray_one. split; [lia|]. by split; [lia|].
Qed.

Lemma getLegalMoves_diagonal (board : Board) (color0 : Color)
  (pending : option Coords) (m : Move) :
  m ∈ getLegalMoves board color0 pending → alongDiagonal m.
Proof.
  intros (r0 & c0 & piece & _ & _ & [H|[_ H]])%getLegalMoves_origin.
  - by eapply getCaptureMovesForPiece_diagonal.
  - by eapply getSimpleMovesForPiece_diagonal.
Qed.

Lemma ray_playable (r0 c0 dr dc : Z) (s : nat) :
  (dr, dc) ∈ DIRECTIONS →
  isPlayableSquare r0 c0 = true →
  playable (ray r0 c0 dr dc s).
Proof.
  intros [Hdr Hdc]%DIRECTIONS_unit. unfold playable, ray, isPlayableSquare.
  cbn [r c]. rewrite !Z.eqb_eq. intros H.
  replace (r0 + Z.of_nat s * dr + (c0 + Z.of_nat s * dc))
    with (r0 + c0 + Z.of_nat s * (dr + dc)) by ring.
  destruct Hdr as [-> | ->], Hdc as [-> | ->].
  - replace (Z.of_nat s * (1 + 1)) with (Z.of_nat s * 2) by ring.
    by rewrite Z.mod_add.
  - replace (Z.of_nat s * (1 + -1)) with (0 * 2) by ring. by rewrite Z.mod_add.
  - replace (Z.of_nat s * (-1 + 1)) with (0 * 2) by ring. by rewrite Z.mod_add.
  - replace (Z.of_nat s * (-1 + -1)) with ((- Z.of_nat s) * 2) by ring.
    by rewrite Z.mod_add.
Qed.

(** ** The move generator, as a player sees it *)

(** X1. A king's non-capturing moves are exactly the slides along one of the
    four diagonals over squares that are all empty: it may stop on any square
    of the diagonal up to the first occupied square or the edge of the grid,
    and on no other square. *)
Theorem king_quiet_moves_exact (board : Board) (r0 c0 : Z) (col : Color)
  (m : Move) :
  m ∈ getSimpleMovesForPiece board r0 c0 (mkPiece col true) ↔
  ∃ (dr dc : Z) (s : nat),
    (dr, dc) ∈ DIRECTIONS ∧ (1 ≤ s)%nat
    ∧ m = mkMove (mkCoords r0 c0) (ray r0 c0 dr dc s) []
    ∧ ∀ i : nat, (1 ≤ i)%nat → (i ≤ s)%nat →
        emptySquare board (ray r0 c0 dr dc i).
Proof. apply king_slides_elem. Qed.

(** X2. A king's captures are exactly the jumps along one of the four
    diagonals over a single piece of the other colour: every square between
    the king and that piece is empty, and the king may land on any square
    behind it up to the next occupied square or the edge of the grid.  It
    never jumps over a piece of its own colour, nor over two pieces. *)
Theorem king_captures_exact (board : Board) (r0 c0 : Z) (piece : Piece)
  (m : Move) :
  m ∈ getKingCaptures board r0 c0 piece ↔
  ∃ (dr dc : Z) (j s : nat),
    (dr, dc) ∈ DIRECTIONS ∧ (1 ≤ j)%nat ∧ (j < s)%nat
    ∧ (∀ i : nat, (1 ≤ i)%nat → (i < j)%nat →
         emptySquare board (ray r0 c0 dr dc i))
    ∧ enemySquareOf board piece (ray r0 c0 dr dc j)
    ∧ (∀ i : nat, (j < i)%nat → (i ≤ s)%nat →
         emptySquare board (ray r0 c0 dr dc i))
    ∧ m = mkMove (mkCoords r0 c0) (ray r0 c0 dr dc s) [ray r0 c0 dr dc j].
Proof. apply king_jumps_elem. Qed.

Lemma bind_nil_all {A E} (f : A → list E) (l : list A) :
  (∀ x, x ∈ l → f x = []) → l ≫= f = [].
Proof.
  induction l as [|x l IH]; intros H; [done|].
  cbn. rewrite (H x) by left. apply IH. intros y Hy. apply H. by right.
Qed.

Lemma color_ne_opposite (a b : Color) : a ≠ b → a = opposite b.
Proof. destruct a, b; done. Qed.

(** X3. Every move of [getLegalMoves], with or without a forced
    continuation, is well formed on the board it was generated for: it starts
    from a piece of the side asked for, ends on an empty square of the grid
    other than its source, and captures nothing or exactly one piece, which
    is on the grid, belongs to the other side and is on neither end of the
    move. *)
Theorem legal_moves_well_formed (board : Board) (color0 : Color)
  (pending : option Coords) (m : Move) :
  m ∈ getLegalMoves board color0 pending →
  ∃ piece,
    cell board (r (from m)) (c (from m)) = Some piece
    ∧ color piece = color0
    ∧ emptySquare board (to m)
    ∧ to m ≠ from m
    ∧ (captures m = []
       ∨ ∃ cap q,
           captures m = [cap]
           ∧ isInside (r cap) (c cap) = true
           ∧ cell board (r cap) (c cap) = Some q
           ∧ color q = opposite color0
           ∧ cap ≠ from m ∧ cap ≠ to m).
Proof.
  intros (piece & Hcell & Hcol & Hshape)%getLegalMoves_sound.
  exists piece. split; [done|]. split; [done|].
  unfold emptySquare, emptyAt.
  destruct Hshape as [(_ & Hto & Hempty & Hcap)
                     |(_ & Hto & Hempty & cap & q & Hcap & Hincap & Hq & Hqcol)].
  - split; [done|]. split; [|by left]. intros Heq. rewrite Heq in Hempty.
    congruence.
  - split; [done|]. split.
    { intros Heq. rewrite Heq in Hempty. congruence. }
    right. exists cap, q. split; [done|]. split; [done|]. split; [done|].
    split; [subst color0; by apply color_ne_opposite|].
    split; intros ->; congruence.
Qed.

Lemma legal_moves_well_formed_witness :
  let m := mkMove (mkCoords 4 3) (mkCoords 6 5) [mkCoords 5 4] in
  m ∈ getLegalMoves boardBackwardCapture W None
  ∧ ∃ piece,
      cell boardBackwardCapture (r (from m)) (c (from m)) = Some piece
      ∧ color piece = W
      ∧ emptySquare boardBackwardCapture (to m)
      ∧ to m ≠ from m
      ∧ (captures m = []
         ∨ ∃ cap q,
             captures m = [cap]
             ∧ isInside (r cap) (c cap) = true
             ∧ cell boardBackwardCapture (r cap) (c cap) = Some q
             ∧ color q = opposite W
             ∧ cap ≠ from m ∧ cap ≠ to m).
Proof.
  assert (H : mkMove (mkCoords 4 3) (mkCoords 6 5) [mkCoords 5 4]
              ∈ getLegalMoves boardBackwardCapture W None)
    by (apply (bool_decide_unpack _); vm_compute; reflexivity).
  split; [exact H|].
  exact (legal_moves_well_formed boardBackwardCapture W None _ H).
Defined.

(** X4. Every legal move travels along a diagonal, and a captured piece lies
    on that diagonal strictly between the two ends of the move.  Hence a
    piece that stands on a dark square stays on the dark squares, and only
    pieces on dark squares are captured by it. *)
Theorem legal_moves_keep_to_dark_squares (board : Board) (color0 : Color)
  (pending : option Coords) (m : Move) :
  m ∈ getLegalMoves board color0 pending →
  alongDiagonal m
  ∧ (playable (from m) →
     playable (to m) ∧ ∀ cap, cap ∈ captures m → playable cap).
Proof.
  intros Hm. apply getLegalMoves_diagonal in Hm as Hdiag.
  split; [done|]. intros Hfrom.
  destruct Hdiag as (dr & dc & s & Hd & Hs & Hto & Hcap).
  split; [rewrite Hto; by apply ray_playable|].
  intros cap Hin. destruct Hcap as [Hcap|(j & _ & _ & Hcap)];
    rewrite Hcap in Hin; [by apply elem_of_nil in Hin|].
  apply list_elem_of_singleton in Hin as ->. by apply ray_playable.
Qed.

Lemma legal_moves_keep_to_dark_squares_witness :
  let board := place [(7, 0, whiteKing); (5, 2, darkMan)] in
  let m := mkMove (mkCoords 7 0) (mkCoords 2 5) [mkCoords 5 2] in
  m ∈ getLegalMoves board W None
  ∧ alongDiagonal m
  ∧ (playable (from m) →
     playable (to m) ∧ ∀ cap, cap ∈ captures m → playable cap).
Proof.
  assert (H : mkMove (mkCoords 7 0) (mkCoords 2 5) [mkCoords 5 2]
              ∈ getLegalMoves (place [(7, 0, whiteKing); (5, 2, darkMan)])
                  W None)
    by (apply (bool_decide_unpack _); vm_compute; reflexivity).
  split; [exact H|].
  exact (legal_moves_keep_to_dark_squares _ W None _ H).
Defined.


(** X6. A side has no legal move (the condition on which the game ends)
    exactly when none of its pieces has a capture or a non-capturing move;
    in particular a side without pieces has no legal move. *)
Theorem no_legal_moves_iff (board : Board) (color0 : Color) :
  wf_board board →
  getLegalMoves board color0 None = [] ↔
  ∀ r0 c0 piece,
    cell board r0 c0 = Some piece → color piece = color0 →
    getCaptureMovesForPiece board r0 c0 piece = []
    ∧ getSimpleMovesForPiece board r0 c0 piece = [].
Proof.
  intros Hwf. rewrite getLegalMoves_scan. split.
  - intros Hnil r0 c0 piece Hcell Hcol.
    assert (Hsq : (r0, c0) ∈ squares)
      by (apply isInside_squares; by eapply cell_Some_inside).
    assert (Hall : allCaptureMoves board color0 = []
                   ∧ allQuietMoves board color0 = []).
    { destruct (nonEmpty (allCaptureMoves board color0)) eqn:Hne.
      - apply nonEmpty_true in Hne. done.
      - by apply nonEmpty_false in Hne. }
    destruct Hall as [Hc Hq]. split.
    + rewrite <- (capturesAt_elem board color0 r0 c0 piece) by done.
      by apply (bind_nil_inv _ squares).
    + pose proof (bind_nil_inv _ squares (r0, c0) Hq Hsq) as H.
      unfold quietAt, color_eqb in H. cbn [fst snd] in H.
      rewrite Hcell in H. by rewrite bool_decide_true in H.
  - intros Hnone.
    assert (Hc : allCaptureMoves board color0 = []).
    { unfold allCaptureMoves. apply bind_nil_all.
      intros [r0 c0] _. unfold capturesAt, color_eqb. cbn [fst snd].
      destruct (cell board r0 c0) as [piece|] eqn:Hcell; [|done].
      case_bool_decide; [|done]. by apply Hnone. }
    assert (Hq : allQuietMoves board color0 = []).
    { unfold allQuietMoves. apply bind_nil_all.
      intros [r0 c0] _. unfold quietAt, color_eqb. cbn [fst snd].
      destruct (cell board r0 c0) as [piece|] eqn:Hcell; [|done].
      case_bool_decide; [|done]. by apply Hnone. }
    rewrite Hc, Hq. done.
Qed.

Lemma no_legal_moves_iff_witness :
  wf_board boardLastMan
  ∧ (getLegalMoves boardLastMan W None = [] ↔
     ∀ r0 c0 piece,
       cell boardLastMan r0 c0 = Some piece → color piece = W →
       getCaptureMovesForPiece boardLastMan r0 c0 piece = []
       ∧ getSimpleMovesForPiece boardLastMan r0 c0 piece = []).
Proof.
  split; [apply wf_place|].
  apply (no_legal_moves_iff boardLastMan W). apply wf_place.
Defined.

(** ** The mutator on legal moves *)

Lemma pair_coords (r1 c1 : Z) (p : Coords) :
  (r p, c p) = (r1, c1) ↔ mkCoords r1 c1 = p.
Proof. destruct p. cbn. split; intros [= -> ->]; done. Qed.

Lemma boardAfter_quiet (board : Board) (piece : Piece) (m : Move) (r1 c1 : Z) :
  wf_board board →
  isInside (r (from m)) (c (from m)) = true →
  isInside (r (to m)) (c (to m)) = true →
  captures m = [] →
  cell (setCell (setCell board (r (from m)) (c (from m)) None)
                (r (to m)) (c (to m)) (Some (promoted piece (r (to m)))))
       r1 c1
  = boardAfter board piece m r1 c1.
Proof.
  intros Hwf Hfrom Hto Hcap. unfold boardAfter. rewrite Hcap.
  rewrite !cell_setCell by solve_wf.
  rewrite !(decide_ext _ _ _ _ (pair_coords _ _ _)).
  destruct (decide (mkCoords r1 c1 = to m)); [done|].
  destruct (decide (mkCoords r1 c1 = from m)).
  - rewrite decide_True by auto. done.
  - rewrite decide_False; [done|]. intros [?|?%elem_of_nil]; done.
Qed.

Lemma boardAfter_capture (board : Board) (piece : Piece) (m : Move)
  (cap : Coords) (r1 c1 : Z) :
  wf_board board →
  isInside (r (from m)) (c (from m)) = true →
  isInside (r (to m)) (c (to m)) = true →
  isInside (r cap) (c cap) = true →
  captures m = [cap] →
  cell (setCell (setCell (setCell board (r (from m)) (c (from m)) None)
                         (r cap) (c cap) None)
                (r (to m)) (c (to m)) (Some (promoted piece (r (to m)))))
       r1 c1
  = boardAfter board piece m r1 c1.
Proof.
  intros Hwf Hfrom Hto Hincap Hcap. unfold boardAfter. rewrite Hcap.
  rewrite !cell_setCell by solve_wf.
  rewrite !(decide_ext _ _ _ _ (pair_coords _ _ _)).
  destruct (decide (mkCoords r1 c1 = to m)); [done|].
  destruct (decide (mkCoords r1 c1 = cap)).
  - rewrite decide_True; [done|]. right. by apply list_elem_of_singleton.
  - destruct (decide (mkCoords r1 c1 = from m)).
    + rewrite decide_True by auto. done.
    + rewrite decide_False; [done|].
      intros [?|?%list_elem_of_singleton]; done.
Qed.

Lemma applyMoveMutable_legal (node : GameNode) (m : Move) :
  wf_board (board node) →
  m ∈ getLegalMoves (board node) (turn node) (pendingCapture node) →
  ∃ piece undo node',
    cell (board node) (r (from m)) (c (from m)) = Some piece
    ∧ color piece = turn node
    ∧ applyMoveMutable node m = (Ok undo, node')
    ∧ wf_board (board node')
    ∧ ∀ r1 c1, cell (board node') r1 c1 = boardAfter (board node) piece m r1 c1.
Proof.
  intros Hwf Hm.
  apply getLegalMoves_sound in Hm as (piece & Hcell & Hcol & Hshape).
  assert (Hfrom : isInside (r (from m)) (c (from m)) = true)
    by (by eapply cell_Some_inside).
  exists piece.
  destruct Hshape as [(_ & Hto & Hempty & Hcap)
                     |(_ & Hto & Hempty & cap & q & Hcap & Hincap & Hq & Hqcol)].
  - eexists _, _. split; [done|]. split; [done|].
    split; [by apply applyMoveMutable_quiet|]. cbn [board].
    split; [solve_wf|]. intros r1 c1. by apply boardAfter_quiet.
  - eexists _, _. split; [done|]. split; [done|].
    split; [apply (applyMoveMutable_capture node m piece q cap);
            done || congruence|].
    cbn [board]. split; [solve_wf|]. intros r1 c1.
    by apply boardAfter_capture.
Qed.

Lemma count_fold_shift {A} (f : A → Z) (l : list A) (a : Z) :
  foldl (λ n x, n + f x) a l = a + foldl (λ n x, n + f x) 0 l.
Proof.
  revert a. induction l as [|x l IH]; intros a; cbn [foldl]; [lia|].
  rewrite IH, (IH (0 + f x)). lia.
Qed.

Lemma countPieces_sum (board : Board) (color0 : Color) :
  countPieces board color0
  = foldl (λ n sq, n + countUnit color0 (cell board sq.1 sq.2)) 0 squares.
Proof.
  unfold countPieces. generalize 0. induction squares as [|sq l IH]; [done|].
  intros a. cbn [foldl]. rewrite <- IH. f_equal. unfold countUnit.
  destruct (cell board sq.1 sq.2) as [p|]; [|lia].
  destruct (color_eqb (color p) color0); lia.
Qed.

Lemma count_fold_setCell (board : Board) (color0 : Color) (r0 c0 : Z)
  (v : option Piece) (l : list (Z * Z)) :
  wf_board board → isInside r0 c0 = true → NoDup l →
  foldl (λ n sq, n + countUnit color0 (cell (setCell board r0 c0 v) sq.1 sq.2))
        0 l
  = foldl (λ n sq, n + countUnit color0 (cell board sq.1 sq.2)) 0 l
    + (if bool_decide ((r0, c0) ∈ l)
       then countUnit color0 v - countUnit color0 (cell board r0 c0) else 0).
Proof.
  intros Hwf Hin. induction l as [|sq l IH]; intros Hnd; [done|].
  apply NoDup_cons in Hnd as [Hnotin Hnd]. specialize (IH Hnd).
  cbn [foldl].
  rewrite count_fold_shift, IH.
  rewrite (count_fold_shift _ l (0 + countUnit color0 (cell board sq.1 sq.2))).
  destruct sq as [r1 c1]. cbn [fst snd]. rewrite cell_setCell by done.
  destruct (decide ((r0, c0) = (r1, c1))) as [[= <- <-]|Hne].
  - rewrite bool_decide_eq_false_2 by done.
    rewrite (bool_decide_eq_true_2 (_ ∈ _ :: _)) by left. lia.
  - destruct (bool_decide ((r0, c0) ∈ l)) eqn:Hmem.
    + rewrite (bool_decide_eq_true_2 (_ ∈ _ :: _))
        by (right; by apply bool_decide_eq_true in Hmem). lia.
    + rewrite (bool_decide_eq_false_2 (_ ∈ _ :: _)); [lia|].
      apply bool_decide_eq_false in Hmem.
      intros [?|?]%elem_of_cons; done.
Qed.

(** Writing one square changes the count of a side by what the square held
    and what it holds now. *)
Lemma countPieces_setCell (board : Board) (color0 : Color) (r0 c0 : Z)
  (v : option Piece) :
  wf_board board → isInside r0 c0 = true →
  countPieces (setCell board r0 c0 v) color0
  = countPieces board color0 - countUnit color0 (cell board r0 c0)
    + countUnit color0 v.
Proof.
  intros Hwf Hin. rewrite !countPieces_sum.
  rewrite count_fold_setCell by (done || apply squares_NoDup).
  rewrite bool_decide_eq_true_2 by (by apply isInside_squares). lia.
Qed.

Lemma countUnit_same (color0 : Color) (p : Piece) :
  color p = color0 → countUnit color0 (Some p) = 1.
Proof. intros <-. unfold countUnit, color_eqb. by rewrite bool_decide_true. Qed.

Lemma countUnit_other (color0 : Color) (p : Piece) :
  color p ≠ color0 → countUnit color0 (Some p) = 0.
Proof. intros H. unfold countUnit, color_eqb. by rewrite bool_decide_false. Qed.

Lemma applyMoveMutable_counts (node : GameNode) (m : Move) :
  wf_board (board node) →
  m ∈ getLegalMoves (board node) (turn node) (pendingCapture node) →
  ∃ undo node',
    applyMoveMutable node m = (Ok undo, node')
    ∧ countPieces (board node') (turn node)
      = countPieces (board node) (turn node)
    ∧ countPieces (board node') (opposite (turn node))
      = countPieces (board node) (opposite (turn node))
        - Z.of_nat (length (captures m)).
Proof.
  intros Hwf Hm.
  apply getLegalMoves_sound in Hm as (piece & Hcell & Hcol & Hshape).
  assert (Hfrom : isInside (r (from m)) (c (from m)) = true)
    by (by eapply cell_Some_inside).
  assert (Hopp : color piece ≠ opposite (turn node))
    by (rewrite Hcol; by destruct (turn node)).
  pose proof (promoted_color piece (r (to m))) as Hpc.
  destruct Hshape as [(_ & Hto & Hempty & Hcap)
                     |(_ & Hto & Hempty & cap & q & Hcap & Hincap & Hq & Hqcol)].
  - eexists _, _. split; [by apply applyMoveMutable_quiet|]. cbn [board].
    rewrite !countPieces_setCell by solve_wf.
    rewrite !cell_setCell by solve_wf. rewrite Hcell, Hempty, Hcap.
    rewrite !(countUnit_same (turn node)) by congruence.
    rewrite !(countUnit_other (opposite (turn node))) by congruence.
    destruct (decide _); cbn [countUnit length Z.of_nat]; lia.
  - assert (Hqc : color q = opposite (turn node))
      by (apply color_ne_opposite; congruence).
    assert (Hqt : color q ≠ turn node) by congruence.
    eexists _, _.
    split; [apply (applyMoveMutable_capture node m piece q cap);
            done || congruence|].
    cbn [board].
    rewrite !countPieces_setCell by solve_wf.
    rewrite !cell_setCell by solve_wf. rewrite Hcell, Hempty, Hq, Hcap.
    assert (Hne1 : (r (from m), c (from m)) ≠ (r cap, c cap)).
    { intros [= E1 E2]. rewrite E1, E2 in Hcell. congruence. }
    assert (Hne2 : (r cap, c cap) ≠ (r (to m), c (to m))).
    { intros [= E1 E2]. rewrite E1, E2 in Hq. congruence. }
    rewrite (decide_False (P := _ = (r cap, c cap))) by done.
    rewrite (decide_False (P := (r cap, c cap) = _)) by done.
    rewrite !(countUnit_same (turn node) piece) by congruence.
    rewrite !(countUnit_same (turn node) (promoted _ _)) by congruence.
    rewrite !(countUnit_other (turn node) q) by congruence.
    rewrite !(countUnit_other (opposite (turn node)) piece) by congruence.
    rewrite !(countUnit_other (opposite (turn node)) (promoted _ _))
      by congruence.
    rewrite !(countUnit_same (opposite (turn node)) q) by congruence.
    destruct (decide _); cbn [countUnit length Z.of_nat]; lia.
Qed.

Lemma applyMoveMutable_executeMove (node : GameNode) (m : Move) :
  wf_board (board node) →
  m ∈ getLegalMoves (board node) (turn node) (pendingCapture node) →
  ∃ undo node',
    applyMoveMutable node m = (Ok undo, node')
    ∧ executeMove (board node) m = (Ok (), board node')
    ∧ nextTurnState (board node') (turn node) m
      = Ok (turn node', pendingCapture node').
Proof.
  intros Hwf Hm.
  apply getLegalMoves_sound in Hm as (piece & Hcell & Hcol & Hshape).
  assert (Hfrom : isInside (r (from m)) (c (from m)) = true)
    by (by eapply cell_Some_inside).
  destruct Hshape as [(_ & Hto & Hempty & Hcap)
                     |(_ & Hto & Hempty & cap & q & Hcap & Hincap & Hq & Hqcol)].
  - eexists _, _. split; [by apply applyMoveMutable_quiet|].
    cbn [board turn pendingCapture]. unfold executeMove, nextTurnState.
    rewrite Hcell, Hcap. done.
  - eexists _, _.
    split; [apply (applyMoveMutable_capture node m piece q cap);
            done || congruence|].
    cbn [board turn pendingCapture]. unfold executeMove, nextTurnState.
    rewrite Hcell, Hcap. cbn [foldl length]. split; [done|].
    rewrite cell_setCell_eq by solve_wf.
    replace (0 <? Z.of_nat 1) with true by done.
    unfold nonEmpty. by destruct (0 <? Z.of_nat (length _)).
Qed.

(** X7. What a legal move does to the board, square by square: it succeeds,
    the moved piece stands on the destination (as a king if it was one or if
    it has reached the far rank), the source and the captured square are
    empty, and every other square holds what it held before; the board keeps
    its eight rows of eight squares. *)
Theorem apply_legal_move_board (node : GameNode) (m : Move) :
  wf_board (board node) →
  m ∈ getLegalMoves (board node) (turn node) (pendingCapture node) →
  ∃ piece undo node',
    cell (board node) (r (from m)) (c (from m)) = Some piece
    ∧ color piece = turn node
    ∧ applyMoveMutable node m = (Ok undo, node')
    ∧ wf_board (board node')
    ∧ ∀ r1 c1, cell (board node') r1 c1 = boardAfter (board node) piece m r1 c1.
Proof. apply applyMoveMutable_legal. Qed.

Lemma apply_legal_move_board_witness :
  let node := mkNode boardPromotion (computeBoardHash boardPromotion) W None in
  let m := mkMove (mkCoords 2 3) (mkCoords 0 5) [mkCoords 1 4] in
  wf_board (board node)
  ∧ m ∈ getLegalMoves (board node) (turn node) (pendingCapture node)
  ∧ ∃ piece undo node',
      cell (board node) (r (from m)) (c (from m)) = Some piece
      ∧ color piece = turn node
      ∧ applyMoveMutable node m = (Ok undo, node')
      ∧ wf_board (board node')
      ∧ ∀ r1 c1,
          cell (board node') r1 c1 = boardAfter (board node) piece m r1 c1.
Proof.
  assert (Hwf : wf_board boardPromotion) by apply wf_place.
  assert (H : mkMove (mkCoords 2 3) (mkCoords 0 5) [mkCoords 1 4]
              ∈ getLegalMoves boardPromotion W None)
    by (apply (bool_decide_unpack _); vm_compute; reflexivity).
  split; [exact Hwf|]. split; [exact H|].
  exact (apply_legal_move_board
           (mkNode boardPromotion (computeBoardHash boardPromotion) W None)
           _ Hwf H).
Defined.

(** X8. Material is conserved: a legal move leaves the number of pieces of
    the side that moves unchanged and lowers the number of pieces of the
    other side by the number of captured squares of the move (none or
    one). *)
Theorem apply_legal_move_counts (node : GameNode) (m : Move) :
  wf_board (board node) →
  m ∈ getLegalMoves (board node) (turn node) (pendingCapture node) →
  ∃ undo node',
    applyMoveMutable node m = (Ok undo, node')
    ∧ countPieces (board node') (turn node)
      = countPieces (board node) (turn node)
    ∧ countPieces (board node') (opposite (turn node))
      = countPieces (board node) (opposite (turn node))
        - Z.of_nat (length (captures m)).
Proof. apply applyMoveMutable_counts. Qed.

Lemma apply_legal_move_counts_witness :
  let node := mkNode boardPromotion (computeBoardHash boardPromotion) W None in
  let m := mkMove (mkCoords 2 3) (mkCoords 0 5) [mkCoords 1 4] in
  wf_board (board node)
  ∧ m ∈ getLegalMoves (board node) (turn node) (pendingCapture node)
  ∧ ∃ undo node',
      applyMoveMutable node m = (Ok undo, node')
      ∧ countPieces (board node') (turn node)
        = countPieces (board node) (turn node)
      ∧ countPieces (board node') (opposite (turn node))
        = countPieces (board node) (opposite (turn node))
          - Z.of_nat (length (captures m)).
Proof.
  assert (Hwf : wf_board boardPromotion) by apply wf_place.
  assert (H : mkMove (mkCoords 2 3) (mkCoords 0 5) [mkCoords 1 4]
              ∈ getLegalMoves boardPromotion W None)
    by (apply (bool_decide_unpack _); vm_compute; reflexivity).
  split; [exact Hwf|]. split; [exact H|].
  exact (apply_legal_move_counts
           (mkNode boardPromotion (computeBoardHash boardPromotion) W None)
           _ Hwf H).
Defined.

(** X9. The game and the search make a move in the same way: on a legal
    move, [executeMove] followed by [nextTurnState] (what [applyMoveInGame]
    runs on the game board) returns normally and leaves the board, the side
    to move and the forced-continuation square that [applyMoveMutable] (what
    [minimax] runs on its working node) leaves. *)
Theorem game_and_search_apply_alike (node : GameNode) (m : Move) :
  wf_board (board node) →
  m ∈ getLegalMoves (board node) (turn node) (pendingCapture node) →
  ∃ undo node',
    applyMoveMutable node m = (Ok undo, node')
    ∧ executeMove (board node) m = (Ok (), board node')
    ∧ nextTurnState (board node') (turn node) m
      = Ok (turn node', pendingCapture node').
Proof. apply applyMoveMutable_executeMove. Qed.

Lemma game_and_search_apply_alike_witness :
  let node := mkNode boardPromotion (computeBoardHash boardPromotion) W None in
  let m := mkMove (mkCoords 2 3) (mkCoords 0 5) [mkCoords 1 4] in
  wf_board (board node)
  ∧ m ∈ getLegalMoves (board node) (turn node) (pendingCapture node)
  ∧ ∃ undo node',
      applyMoveMutable node m = (Ok undo, node')
      ∧ executeMove (board node) m = (Ok (), board node')
      ∧ nextTurnState (board node') (turn node) m
        = Ok (turn node', pendingCapture node').
Proof.
  assert (Hwf : wf_board boardPromotion) by apply wf_place.
  assert (H : mkMove (mkCoords 2 3) (mkCoords 0 5) [mkCoords 1 4]
              ∈ getLegalMoves boardPromotion W None)
    by (apply (bool_decide_unpack _); vm_compute; reflexivity).
  split; [exact Hwf|]. split; [exact H|].
  exact (game_and_search_apply_alike
           (mkNode boardPromotion (computeBoardHash boardPromotion) W None)
           _ Hwf H).
Defined.

(** ** Invariants of a game *)

Lemma position_ok_initial : position_ok initialNode.
Proof.
  assert (Hwf : wf_board createInitialBoard).
  { split; [done|]. apply (bool_decide_unpack _). by vm_compute. }
  assert (Hall : Forall (λ sq,
            match cell createInitialBoard sq.1 sq.2 with
            | Some p =>
                isPlayableSquare sq.1 sq.2 = true
                ∧ (king p = false →
                   match color p with
                   | W => sq.1 ≠ 0 | B => sq.1 ≠ BOARD_SIZE - 1
                   end)
            | None => True
            end) squares).
  { apply Forall_forall. intros sq Hsq.
    unfold squares, indices in Hsq. cbn in Hsq.
    repeat (apply elem_of_cons in Hsq as [->|Hsq]; [by vm_compute|]).
    by apply elem_of_nil in Hsq. }
  split; [done|]. split; [done|]. split; [|split; [|split]].
  - intros r1 c1 p Hc.
    change (board initialNode) with createInitialBoard in Hc.
    assert (Hsq : (r1, c1) ∈ squares)
      by (apply isInside_squares; by eapply cell_Some_inside).
    pose proof (proj1 (Forall_forall _ _) Hall _ Hsq) as H.
    cbn [fst snd] in H. rewrite Hc in H. tauto.
  - intros r1 c1 p Hc.
    change (board initialNode) with createInitialBoard in Hc.
    assert (Hsq : (r1, c1) ∈ squares)
      by (apply isInside_squares; by eapply cell_Some_inside).
    pose proof (proj1 (Forall_forall _ _) Hall _ Hsq) as H.
    cbn [fst snd] in H. rewrite Hc in H. tauto.
  - done.
  - split; by vm_compute.
Qed.

Lemma promoted_far_rank (piece : Piece) (toR : Z) :
  king (promoted piece toR) = false →
  match color piece with W => toR ≠ 0 | B => toR ≠ BOARD_SIZE - 1 end.
Proof.
  unfold promoted, color_eqb. destruct piece as [[|] [|]]; cbn; try done.
  - destruct (toR =? 0) eqn:E; cbn; [done|]. intros _. by apply Z.eqb_neq.
  - destruct (toR =? BOARD_SIZE - 1) eqn:E; cbn; [done|]. intros _.
    by apply Z.eqb_neq.
Qed.

Lemma position_ok_step (n n' : GameNode) (m : Move) (undo : AppliedMoveUndo) :
  position_ok n →
  m ∈ getLegalMoves (board n) (turn n) (pendingCapture n) →
  applyMoveMutable n m = (Ok undo, n') →
  position_ok n'.
Proof.
  intros (Hwf & Hhash & Hdark & Hmen & _ & HW & HB) Hm Happly.
  destruct (applyMoveMutable_legal n m Hwf Hm)
    as (piece & undo0 & n0 & Hcell & Hcol & Happly0 & Hwf' & Hboard).
  rewrite Happly in Happly0. injection Happly0 as <- <-.
  pose proof (applyMoveMutable_node_ok n n' m undo (conj Hwf Hhash) Hm Happly)
    as [_ Hhash'].
  apply getLegalMoves_diagonal in Hm as Hdiag.
  apply getLegalMoves_sound in Hm as Hsound.
  destruct Hsound as (piece' & Hcell' & _ & Hshape).
  rewrite Hcell in Hcell'. injection Hcell' as <-.
  assert (Hto : isInside (r (to m)) (c (to m)) = true)
    by (destruct Hshape as [(_ & ? & _)|(_ & ? & _)]; done).
  split; [done|]. split; [done|]. split; [|split; [|split]].
  - intros r1 c1 p. rewrite Hboard. unfold boardAfter.
    destruct (decide (mkCoords r1 c1 = to m)) as [E|_].
    + intros _. destruct Hdiag as (dr & dc & s & Hd & _ & Hray & _).
      assert (Hp : playable (to m)).
      { rewrite Hray. apply ray_playable; [done|]. by eapply Hdark. }
      rewrite <- E in Hp. exact Hp.
    + destruct (decide _); [done|]. apply Hdark.
  - intros r1 c1 p. rewrite Hboard. unfold boardAfter.
    destruct (decide (mkCoords r1 c1 = to m)) as [E|_].
    + intros [= <-]. rewrite promoted_color. intros Hk.
      apply promoted_far_rank in Hk. by rewrite <- E in Hk.
    + destruct (decide _); [done|]. apply Hmen.
  - destruct (applyMoveMutable_turn n m piece Hwf Hto Hcell)
      as (undo1 & n1 & Happly1 & Hland & Hquiet & Hcapture).
    rewrite Happly in Happly1. injection Happly1 as <- <-.
    unfold pendingHasCapture.
    destruct (captures m) as [|cap caps] eqn:Hcap.
    + destruct (Hquiet eq_refl) as [_ ->]. done.
    + specialize (Hcapture ltac:(done)).
      destruct (nonEmpty _) eqn:Hne.
      * destruct Hcapture as [-> ->].
        exists (promoted piece (r (to m))). split; [done|].
        split; [by rewrite promoted_color|]. by apply nonEmpty_true.
      * destruct Hcapture as [_ ->]. done.
  - destruct (applyMoveMutable_counts n m Hwf Hm)
      as (undo1 & n1 & Happly1 & Hmine & Htheirs).
    rewrite Happly in Happly1. injection Happly1 as <- <-.
    destruct (turn n); cbn [opposite] in Htheirs; lia.
Qed.

Lemma play_position_ok (n0 n : GameNode) :
  position_ok n0 → Play n0 n → position_ok n.
Proof.
  intros H0 Hplay. induction Hplay as [|n n' m undo _ IH Hm Happly]; [done|].
  by eapply position_ok_step.
Qed.

Lemma playLegal_Play (n0 : GameNode) (ms : list Move) (n : GameNode) :
  Play n0 n → is_Some (playLegal n ms) →
  Play n0 (default n0 (playLegal n ms)).
Proof.
  revert n. induction ms as [|m ms IH]; intros n Hplay Hsome; [done|].
  cbn [playLegal] in *. case_bool_decide as Hm; [|by destruct Hsome].
  destruct (applyMoveMutable n m) as [[undo|e] n'] eqn:Happly;
    [|by destruct Hsome].
  apply IH; [|done]. by eapply play_move.
Qed.

(** X10. Invariants of a game.  In every position reached from the initial
    position by legal moves: the board has its eight rows of eight squares,
    the stored hash is the hash of the board, every piece stands on a dark
    square, no man stands on the rank where it is promoted, a pending
    capture names a piece of the side to move that does have a capture, and
    neither side has more than twelve pieces. *)
Theorem game_invariants (n : GameNode) :
  Play initialNode n → position_ok n.
Proof. apply play_position_ok, position_ok_initial. Qed.

Lemma game_invariants_witness :
  let n := default initialNode (playLegal initialNode openingWithDoubleCapture) in
  Play initialNode n ∧ position_ok n.
Proof.
  assert (H : Play initialNode
                (default initialNode
                   (playLegal initialNode openingWithDoubleCapture))).
  { apply (playLegal_Play initialNode openingWithDoubleCapture).
    - apply play_start.
    - vm_compute. eexists. reflexivity. }
  split; [exact H|]. exact (game_invariants _ H).
Defined.

(** X11. A forced continuation is never stuck: in a game from the initial
    position, whenever a capture is pending the side to move has a legal
    move, so the game cannot end in the middle of a capture sequence. *)
Theorem continuation_has_move (n : GameNode) (pc : Coords) :
  Play initialNode n →
  pendingCapture n = Some pc →
  getLegalMoves (board n) (turn n) (pendingCapture n) ≠ [].
Proof.
  intros Hplay Hpc.
  destruct (play_position_ok _ _ position_ok_initial Hplay)
    as (_ & _ & _ & _ & Hpending & _).
  unfold pendingHasCapture in Hpending. rewrite Hpc in *.
  destruct Hpending as (piece & Hcell & Hcol & Hne).
  unfold getLegalMoves. rewrite Hcell.
  unfold color_eqb. rewrite bool_decide_true by done. done.
Qed.

Lemma continuation_has_move_witness :
  let n := default initialNode (playLegal initialNode openingWithDoubleCapture) in
  Play initialNode n
  ∧ pendingCapture n = Some (mkCoords 5 2)
  ∧ getLegalMoves (board n) (turn n) (pendingCapture n) ≠ [].
Proof.
  assert (H : Play initialNode
                (default initialNode
                   (playLegal initialNode openingWithDoubleCapture))).
  { apply (playLegal_Play initialNode openingWithDoubleCapture).
    - apply play_start.
    - vm_compute. eexists. reflexivity. }
  assert (Hpc : pendingCapture
                  (default initialNode
                     (playLegal initialNode openingWithDoubleCapture))
                = Some (mkCoords 5 2)) by (by vm_compute).
  split; [exact H|]. split; [exact Hpc|].
  exact (continuation_has_move _ (mkCoords 5 2) H Hpc).
Defined.

(** ** Move ordering *)

Lemma captures_eqb (l1 l2 : list Coords) :
  length l1 = length l2 →
  forallb (λ '(x, y), (r x =? r y) && (c x =? c y)) (zip l1 l2) = true
  ↔ l1 = l2.
Proof.
  revert l2. induction l1 as [|x l1 IH]; intros [|y l2] Hlen; try done.
  cbn [zip zip_with forallb]. rewrite andb_true_iff, IH by (cbn in Hlen; lia).
  rewrite andb_true_iff, !Z.eqb_eq. destruct x, y. cbn [r c].
  split; [intros [[-> ->] ->]; done|intros [= -> -> ->]; done].
Qed.

Lemma sameMove_eq (a b : Move) : sameMove a b = true ↔ a = b.
Proof.
  unfold sameMove. destruct a as [[fr1 fc1] [tr1 tc1] caps1].
  destruct b as [[fr2 fc2] [tr2 tc2] caps2]. cbn [from to captures r c].
  destruct (fr1 =? fr2) eqn:E1; cbn [negb orb];
    [apply Z.eqb_eq in E1 as ->
    |apply Z.eqb_neq in E1; split; [done|intros [= ? _]; done]].
  destruct (fc1 =? fc2) eqn:E2; cbn [negb orb];
    [apply Z.eqb_eq in E2 as ->
    |apply Z.eqb_neq in E2; split; [done|intros [= ? _]; done]].
  destruct (tr1 =? tr2) eqn:E3; cbn [negb orb];
    [apply Z.eqb_eq in E3 as ->
    |apply Z.eqb_neq in E3; split; [done|intros [= ? _]; done]].
  destruct (tc1 =? tc2) eqn:E4; cbn [negb orb];
    [apply Z.eqb_eq in E4 as ->
    |apply Z.eqb_neq in E4; split; [done|intros [= ? _]; done]].
  destruct (Z.of_nat (length caps1) =? Z.of_nat (length caps2)) eqn:E5;
    cbn [negb].
  - apply Z.eqb_eq, Nat2Z.inj in E5. rewrite captures_eqb by done.
    split; [by intros ->|by intros [= ->]].
  - apply Z.eqb_neq in E5. split; [done|]. intros [= ->]. done.
Qed.

(** X12. [sameMove] is equality of moves: it answers [true] exactly when the
    two moves have the same source, the same destination and the same list
    of captured squares. *)
Theorem sameMove_iff_equal (a b : Move) : sameMove a b = true ↔ a = b.
Proof. apply sameMove_eq. Qed.

Lemma insertScored_descending (x : Move * Z) (l : list (Move * Z)) :
  descending snd l → descending snd (insertScored x l).
Proof.
  induction l as [|y l IH]; cbn [insertScored descending]; [done|].
  intros [Hy Hl]. destruct (x.2 <? y.2) eqn:E.
  - apply Z.ltb_lt in E. cbn [descending]. split; [|by apply IH].
    rewrite insertScored_perm. constructor; [lia|done].
  - apply Z.ltb_ge in E. cbn [descending]. split; [|done].
    constructor; [done|]. eapply Forall_impl; [exact Hy|].
    cbn. intros z Hz. lia.
Qed.

Lemma sortScored_descending (l : list (Move * Z)) :
  descending snd (sortScored l).
Proof.
  induction l as [|x l IH]; [done|]. unfold sortScored. cbn [foldr].
  by apply insertScored_descending.
Qed.

Lemma descending_keyed (key : Move → Z) (l : list (Move * Z)) :
  Forall (λ e, e.2 = key e.1) l → descending snd l → descending key l.*1.
Proof.
  induction l as [|x l IH]; [done|].
  intros [Hx Hl]%Forall_cons [Hle Hd]. cbn [fmap list_fmap descending].
  split; [|by apply IH].
  apply Forall_fmap. rewrite Forall_forall in Hle, Hl. apply Forall_forall.
  intros y Hy. cbn. rewrite <- Hx, <- (Hl y Hy). by apply Hle.
Qed.

Lemma sortScored_head (x : Move * Z) (l : list (Move * Z)) :
  x ∈ l → (∀ y, y ∈ l → y ≠ x → y.2 < x.2) →
  head (sortScored l) = Some x.
Proof.
  induction l as [|y l IH]; [by intros ?%elem_of_nil|].
  intros Hx Hmax. unfold sortScored. cbn [foldr]. fold (sortScored l).
  destruct (decide (y = x)) as [->|Hne].
  - destruct (sortScored l) as [|z s] eqn:Hs; [done|]. cbn [insertScored].
    assert (Hz : z ∈ l).
    { rewrite <- (sortScored_perm l), Hs. left. }
    destruct (decide (z = x)) as [->|Hzx].
    + by rewrite Z.ltb_irrefl.
    + pose proof (Hmax z ltac:(by right) Hzx).
      rewrite (proj2 (Z.ltb_ge _ _)) by lia. done.
  - apply elem_of_cons in Hx as [->|Hx]; [done|].
    assert (Hh : head (sortScored l) = Some x).
    { apply IH; [done|]. intros z Hz. apply Hmax. by right. }
    destruct (sortScored l) as [|z s]; [done|]. injection Hh as ->.
    cbn [insertScored].
    pose proof (Hmax y ltac:(left) Hne).
    rewrite (proj2 (Z.ltb_lt _ _)) by lia. done.
Qed.

Lemma head_fmap {A E} (f : A → E) (l : list A) :
  head (f <$> l) = f <$> head l.
Proof. by destruct l. Qed.

Lemma moveOrderingScore_range (board : Board) (m : Move) :
  (length (captures m) ≤ 1)%nat →
  isInside (r (to m)) (c (to m)) = true →
  0 <= moveOrderingScore board m < 10000.
Proof.
  intros Hcap [Hr Hc]%isInside_true. unfold moveOrderingScore, BOARD_SIZE.
  assert (0 <= Z.of_nat (length (captures m)) * 1000 <= 1000) by lia.
  destruct (cell board _ _) as [piece|]; [|lia].
  assert (0 <= (Z.abs (7 - 2 * r (to m)) + Z.abs (7 - 2 * c (to m))) * 5 / 2
          <= 35).
  { split; [apply Z.div_pos; lia|].
    apply Z.div_le_upper_bound; lia. }
  destruct (negb (king piece)); [destruct (_ =? _)|]; lia.
Qed.

(** X13. [orderMoves] loses and duplicates nothing: its result is the given
    moves in another order, by non-increasing ordering score (with the bonus
    of the preferred move).  When the moves each capture at most one piece
    and end on the grid, as legal moves do, and the preferred move is one of
    them, the preferred move comes first: the search tries the best move of
    the previous depth before any other. *)
Theorem orderMoves_sorted_preferred_first (board : Board) (moves : list Move)
  (preferred : option Move) :
  orderMoves board moves preferred ≡ₚ moves
  ∧ descending (orderingKey board preferred) (orderMoves board moves preferred)
  ∧ ∀ p, preferred = Some p → p ∈ moves →
         Forall (λ m, (length (captures m) ≤ 1)%nat
                      ∧ isInside (r (to m)) (c (to m)) = true) moves →
         head (orderMoves board moves preferred) = Some p.
Proof.
  split; [apply orderMoves_perm|].
  unfold orderMoves.
  change (map (λ move, _) moves)
    with ((λ m, (m, orderingKey board preferred m)) <$> moves).
  split.
  - apply descending_keyed; [|apply sortScored_descending].
    rewrite sortScored_perm. apply Forall_fmap. by apply Forall_forall.
  - intros p -> Hp Hall.
    change (map fst ?l) with (fst <$> l).
    rewrite (head_fmap fst).
    rewrite (sortScored_head (p, orderingKey board (Some p) p)); [done| |].
    + apply list_elem_of_fmap. by exists p.
    + intros y (m & -> & Hm)%list_elem_of_fmap Hne. cbn [snd].
      assert (Hmp : m ≠ p) by (intros ->; done).
      rewrite Forall_forall in Hall.
      destruct (Hall m Hm) as [H1 H2]. destruct (Hall p Hp) as [H3 H4].
      pose proof (moveOrderingScore_range board m H1 H2).
      pose proof (moveOrderingScore_range board p H3 H4).
      unfold orderingKey.
      rewrite (proj2 (sameMove_eq p p) eq_refl).
      destruct (sameMove m p) eqn:E; [by apply sameMove_eq in E|]. lia.
Qed.

(** ** The evaluation, from both sides *)

Lemma color_eqb_opposite (a b : Color) :
  color_eqb a (opposite b) = negb (color_eqb a b).
Proof. by destruct a, b. Qed.

Lemma terminalScore_opposite (variant : Variant) (side persp : Color)
  (depth : Z) :
  terminalScore variant side (opposite persp) depth
  = - terminalScore variant side persp depth.
Proof.
  unfold terminalScore. rewrite color_eqb_opposite.
  destruct (isGiveawayVariant variant), (color_eqb side persp); cbn [negb]; lia.
Qed.

Lemma giveawaySquare_swap (board : Board) (persp : Color)
  (k : GiveawayCounts) (sq : Z * Z) :
  giveawaySquare board (opposite persp) (swapCounts k) sq
  = swapCounts (giveawaySquare board persp k sq).
Proof.
  destruct sq as [r0 c0]. unfold giveawaySquare.
  destruct (cell board r0 c0) as [[col kg]|]; [|done]. cbn [color king].
  destruct (isPotentialVictim board r0 c0 col); destruct col, kg, persp;
    reflexivity.
Qed.

Lemma giveaway_fold_swap (board : Board) (persp : Color)
  (l : list (Z * Z)) (k : GiveawayCounts) :
  foldl (giveawaySquare board (opposite persp)) (swapCounts k) l
  = swapCounts (foldl (giveawaySquare board persp) k l).
Proof.
  revert k. induction l as [|sq l IH]; intros k; [done|].
  cbn [foldl]. by rewrite giveawaySquare_swap, IH.
Qed.

Lemma giveaway_fold_swap_zero (board : Board) (persp : Color) :
  foldl (giveawaySquare board (opposite persp)) (mkCounts 0 0 0 0 0 0 0 0)
        squares
  = swapCounts (foldl (giveawaySquare board persp) (mkCounts 0 0 0 0 0 0 0 0)
                      squares).
Proof.
  replace (mkCounts 0 0 0 0 0 0 0 0)
    with (swapCounts (mkCounts 0 0 0 0 0 0 0 0)) at 1 by reflexivity.
  apply giveaway_fold_swap.
Qed.

Lemma count_fold_nonneg {A} (f : A → Z) (l : list A) :
  (∀ x, 0 <= f x) → 0 <= foldl (λ n x, n + f x) 0 l.
Proof.
  intros Hf. induction l as [|x l IH]; cbn [foldl]; [lia|].
  rewrite count_fold_shift. specialize (Hf x). lia.
Qed.

Lemma count_fold_pos {A} (f : A → Z) (l : list A) (x : A) :
  (∀ x, 0 <= f x) → x ∈ l → 0 < f x → 0 < foldl (λ n x, n + f x) 0 l.
Proof.
  intros Hf Hx Hpos. induction l as [|y l IH]; [by apply elem_of_nil in Hx|].
  cbn [foldl]. rewrite count_fold_shift.
  pose proof (count_fold_nonneg f l Hf). pose proof (Hf y).
  apply elem_of_cons in Hx as [->|Hx]; [lia|]. specialize (IH Hx). lia.
Qed.

Lemma countUnit_nonneg (color0 : Color) (v : option Piece) :
  0 <= countUnit color0 v.
Proof. unfold countUnit. destruct v; [destruct (color_eqb _ _)|]; lia. Qed.

Lemma countPieces_nonneg (board : Board) (color0 : Color) :
  0 <= countPieces board color0.
Proof.
  rewrite countPieces_sum. apply count_fold_nonneg.
  intros sq. apply countUnit_nonneg.
Qed.

Lemma countPieces_pos (board : Board) (r0 c0 : Z) (p : Piece) :
  isInside r0 c0 = true → cell board r0 c0 = Some p →
  0 < countPieces board (color p).
Proof.
  intros Hin Hc. rewrite countPieces_sum.
  apply (count_fold_pos _ _ (r0, c0)).
  - intros sq. apply countUnit_nonneg.
  - by apply isInside_squares.
  - cbn [fst snd]. rewrite Hc. by rewrite countUnit_same.
Qed.

Lemma giveaway_opp_pieces (board : Board) (persp : Color) :
  let k := foldl (giveawaySquare board persp) (mkCounts 0 0 0 0 0 0 0 0)
                 squares in
  oppMen k + oppKings k = countPieces board (opposite persp).
Proof.
  cbn zeta. pose proof (giveaway_my_pieces board (opposite persp)) as H.
  cbn zeta in H. rewrite giveaway_fold_swap_zero in H.
  destruct (foldl (giveawaySquare board persp) _ squares). exact H.
Qed.

Lemma evaluateGiveawayPosition_opposite (node : GameNode) (persp : Color)
  (legalMoves : list Move) :
  0 < countPieces (board node) persp
      + countPieces (board node) (opposite persp) →
  evaluateGiveawayPosition node (opposite persp) legalMoves
  = - evaluateGiveawayPosition node persp legalMoves.
Proof.
  intros Hsome. unfold evaluateGiveawayPosition.
  pose proof (giveaway_my_pieces (board node) persp) as Hmy.
  pose proof (giveaway_opp_pieces (board node) persp) as Hopp.
  pose proof (countPieces_nonneg (board node) persp).
  pose proof (countPieces_nonneg (board node) (opposite persp)).
  cbn zeta in Hmy, Hopp.
  rewrite giveaway_fold_swap_zero.
  destruct (foldl (giveawaySquare (board node) persp) _ squares)
    as [mM mK oM oK mP oP mV oV].
  cbn [swapCounts myMen myKings oppMen oppKings myProgress oppProgress
       myVictims oppVictims] in *.
  rewrite color_eqb_opposite.
  destruct (Z.eqb_spec (oM + oK) 0), (Z.eqb_spec (mM + mK) 0); try lia.
  destruct ((oM =? 0) && (0 <? oK)), ((mM =? 0) && (0 <? mK)),
    (color_eqb (turn node) persp); cbn [negb]; lia.
Qed.

Lemma classicSquare_value (board : Board) (persp : Color) (s m o r0 c0 : Z) :
  classicSquare board persp (s, m, o) (r0, c0)
  = match cell board r0 c0 with
    | None => (s, m, o)
    | Some piece =>
        if color_eqb (color piece) persp
        then (s + classicValue board r0 c0 piece, m + 1, o)
        else (s - classicValue board r0 c0 piece, m, o + 1)
    end.
Proof. reflexivity. Qed.

Lemma classicSquare_swap (board : Board) (persp : Color) (s m o : Z)
  (sq : Z * Z) :
  classicSquare board (opposite persp) (- s, o, m) sq
  = let '(s', m', o') := classicSquare board persp (s, m, o) sq in
    (- s', o', m').
Proof.
  destruct sq as [r0 c0]. rewrite !classicSquare_value.
  destruct (cell board r0 c0) as [piece|]; [|done].
  rewrite color_eqb_opposite.
  generalize (classicValue board r0 c0 piece). intros v.
  destruct (color_eqb (color piece) persp); cbn [negb];
    rewrite !pair_equal_spec; lia.
Qed.

Lemma classic_fold_swap (board : Board) (persp : Color) (l : list (Z * Z))
  (s m o : Z) :
  foldl (classicSquare board (opposite persp)) (- s, o, m) l
  = let '(s', m', o') := foldl (classicSquare board persp) (s, m, o) l in
    (- s', o', m').
Proof.
  revert s m o. induction l as [|sq l IH]; intros s m o; [done|].
  cbn [foldl]. rewrite classicSquare_swap.
  destruct (classicSquare board persp (s, m, o) sq) as [[s1 m1] o1].
  apply IH.
Qed.

Lemma classicValue_range (board : Board) (r0 c0 : Z) (piece : Piece) :
  isInside r0 c0 = true → 0 <= classicValue board r0 c0 piece <= 337.
Proof.
  intros [Hr Hc]%isInside_true. unfold classicValue, BOARD_SIZE.
  destruct piece as [col kg]. cbn [king color].
  destruct col, kg; cbn [negb];
    repeat match goal with
           | |- context [if ?b then _ else _] => destruct b
           end; lia.
Qed.

Lemma classic_fold_spec (board : Board) (persp : Color) (l : list (Z * Z))
  (s m o : Z) :
  Forall (λ sq, isInside sq.1 sq.2 = true) l →
  let '(s', m', o') := foldl (classicSquare board persp) (s, m, o) l in
  m' = m + foldl (λ n sq, n + countUnit persp (cell board sq.1 sq.2)) 0 l
  ∧ o' = o + foldl (λ n sq, n + countUnit (opposite persp)
                                   (cell board sq.1 sq.2)) 0 l
  ∧ Z.abs (s' - s) <= 337 * ((m' - m) + (o' - o)).
Proof.
  revert s m o. induction l as [|[r0 c0] l IH]; intros s m o Hall.
  - cbn [foldl]. lia.
  - apply Forall_cons in Hall as [Hin Hall]. cbn [fst snd] in Hin.
    cbn [foldl]. rewrite classicSquare_value.
    rewrite (count_fold_shift _ l (0 + _)).
    rewrite (count_fold_shift _ l (0 + countUnit (opposite persp) _)).
    cbn [fst snd].
    set (F1 := foldl (λ n sq, n + countUnit persp _) 0 l) in *.
    set (F2 := foldl (λ n sq, n + countUnit (opposite persp) _) 0 l) in *.
    destruct (cell board r0 c0) as [piece|] eqn:Hc.
    + pose proof (classicValue_range board r0 c0 piece Hin) as Hv.
      unfold countUnit. rewrite color_eqb_opposite.
      destruct (color_eqb (color piece) persp); cbn [negb].
      * specialize (IH (s + classicValue board r0 c0 piece) (m + 1) o Hall).
        destruct (foldl (classicSquare board persp) _ l) as [[s' m'] o']. lia.
      * specialize (IH (s - classicValue board r0 c0 piece) m (o + 1) Hall).
        destruct (foldl (classicSquare board persp) _ l) as [[s' m'] o']. lia.
    + specialize (IH s m o Hall). cbn [countUnit].
      destruct (foldl (classicSquare board persp) _ l) as [[s' m'] o']. lia.
Qed.

Lemma classic_fold_counts (board : Board) (persp : Color) :
  let '(s, m, o) :=
    foldl (classicSquare board persp) (0, 0, 0) squares in
  m = countPieces board persp ∧ o = countPieces board (opposite persp)
  ∧ Z.abs s <= 337 * (m + o).
Proof.
  pose proof (classic_fold_spec board persp squares 0 0 0 squares_inside) as H.
  rewrite <- !countPieces_sum in H.
  destruct (foldl _ _ squares) as [[s m] o].
  replace (s - 0) with s in H by lia. lia.
Qed.

Lemma movesOfNode_available (node : GameNode) (legalMoves : option (list Move)) :
  movesOfNode node legalMoves →
  match legalMoves with
  | Some moves => moves
  | None => getLegalMoves (board node) (turn node) (pendingCapture node)
  end = getLegalMoves (board node) (turn node) (pendingCapture node).
Proof. intros H. destruct legalMoves as [ms|]; [by apply H|done]. Qed.

Lemma legal_move_mover_counted (node : GameNode) (persp : Color) :
  wf_board (board node) →
  getLegalMoves (board node) (turn node) (pendingCapture node) ≠ [] →
  0 < countPieces (board node) persp
      + countPieces (board node) (opposite persp).
Proof.
  intros Hwf Hne.
  destruct (getLegalMoves _ _ _) as [|m l] eqn:Hl; [done|].
  assert (Hm : m ∈ getLegalMoves (board node) (turn node)
                     (pendingCapture node)) by (rewrite Hl; left).
  apply getLegalMoves_sound in Hm as (piece & Hcell & _ & _).
  pose proof (cell_Some_inside _ _ _ _ Hwf Hcell) as Hin.
  pose proof (countPieces_pos _ _ _ _ Hin Hcell).
  pose proof (countPieces_nonneg (board node) persp).
  pose proof (countPieces_nonneg (board node) (opposite persp)).
  destruct (color piece), persp; cbn [opposite] in *; lia.
Qed.

Lemma evaluatePosition_opposite (variant : Variant) (node : GameNode)
  (persp : Color) (legalMoves : option (list Move)) :
  wf_board (board node) →
  movesOfNode node legalMoves →
  evaluatePosition variant node (opposite persp) legalMoves
  = - evaluatePosition variant node persp legalMoves.
Proof.
  intros Hwf Hmoves. unfold evaluatePosition.
  rewrite (movesOfNode_available node legalMoves Hmoves). cbn zeta.
  destruct (Z.of_nat (length _) =? 0) eqn:Hlen;
    [apply terminalScore_opposite|].
  assert (Hne : getLegalMoves (board node) (turn node) (pendingCapture node)
                ≠ []).
  { intros E. rewrite E in Hlen. done. }
  pose proof (legal_move_mover_counted node persp Hwf Hne) as Hpos.
  destruct variant; cbn [isGiveawayVariant];
    [|by apply evaluateGiveawayPosition_opposite].
  pose proof (classic_fold_counts (board node) persp) as Hc.
  pose proof (classic_fold_swap (board node) persp squares 0 0 0) as Hs.
  change (- 0) with 0 in Hs. rewrite Hs. clear Hs.
  destruct (foldl (classicSquare (board node) persp) _ squares) as [[s m] o].
  destruct Hc as (-> & -> & _).
  pose proof (countPieces_nonneg (board node) persp).
  pose proof (countPieces_nonneg (board node) (opposite persp)).
  rewrite color_eqb_opposite.
  destruct (Z.eqb_spec (countPieces (board node) persp) 0),
    (Z.eqb_spec (countPieces (board node) (opposite persp)) 0); try lia.
  destruct (color_eqb (turn node) persp); cbn [negb]; lia.
Qed.

(** X14. The evaluation is zero-sum: with the legal moves of the node (passed
    by the caller, as [minimax] does, or computed by the function), what
    [evaluatePosition] returns for one side is the negation of what it
    returns for the other side, in the classic and in the giveaway variant,
    at terminal and at non-terminal positions. *)
Theorem evaluation_is_zero_sum (variant : Variant) (node : GameNode)
  (persp : Color) (legalMoves : option (list Move)) :
  wf_board (board node) →
  movesOfNode node legalMoves →
  evaluatePosition variant node (opposite persp) legalMoves
  = - evaluatePosition variant node persp legalMoves.
Proof. apply evaluatePosition_opposite. Qed.

Lemma evaluation_is_zero_sum_witness :
  wf_board (board initialNode)
  ∧ movesOfNode initialNode None
  ∧ evaluatePosition Classic initialNode (opposite W) None
    = - evaluatePosition Classic initialNode W None.
Proof.
  assert (Hwf : wf_board (board initialNode)) by apply position_ok_initial.
  assert (Hm : movesOfNode initialNode None) by (intros ms [=]).
  split; [exact Hwf|]. split; [exact Hm|].
  exact (evaluation_is_zero_sum Classic initialNode W None Hwf Hm).
Defined.

Lemma count_total_bounded (board : Board) (persp : Color) :
  countPieces board persp + countPieces board (opposite persp) <= 64.
Proof.
  rewrite !countPieces_sum. rewrite <- squares_length.
  induction squares as [|sq l IH]; cbn [foldl length]; [lia|].
  rewrite (count_fold_shift _ l (0 + _)).
  rewrite (count_fold_shift _ l (0 + countUnit (opposite persp) _)).
  assert (countUnit persp (cell board sq.1 sq.2)
          + countUnit (opposite persp) (cell board sq.1 sq.2) <= 1).
  { unfold countUnit. destruct (cell board sq.1 sq.2) as [p|]; [|lia].
    rewrite color_eqb_opposite. destruct (color_eqb _ _); cbn [negb]; lia. }
  lia.
Qed.

Lemma evaluateGiveawayPosition_range (node : GameNode) (persp : Color)
  (legalMoves : list Move) :
  (length legalMoves ≤ 2048)%nat →
  0 < countPieces (board node) persp →
  0 < countPieces (board node) (opposite persp) →
  Z.abs (evaluateGiveawayPosition node persp legalMoves) <= 32896.
Proof.
  intros Hlen Hmine Htheirs. unfold evaluateGiveawayPosition.
  pose proof (giveaway_fold_bounded (board node) persp squares
                (mkCounts 0 0 0 0 0 0 0 0) 0 squares_inside) as Hb.
  pose proof (giveaway_my_pieces (board node) persp) as Hmy.
  pose proof (giveaway_opp_pieces (board node) persp) as Hopp.
  cbn zeta in Hmy, Hopp. rewrite squares_length in Hb.
  set (k := foldl _ _ squares) in *. cbn zeta.
  unfold counts_bounded in Hb. cbn [myMen myKings oppMen oppKings myProgress
    oppProgress myVictims oppVictims] in Hb.
  destruct (Z.eqb_spec (myMen k + myKings k) 0); [lia|].
  destruct (Z.eqb_spec (oppMen k + oppKings k) 0); [lia|].
  destruct ((myMen k =? 0) && (0 <? myKings k)),
    ((oppMen k =? 0) && (0 <? oppKings k)),
    (color_eqb (turn node) persp); lia.
Qed.

Lemma evaluatePosition_range (variant : Variant) (node : GameNode)
  (persp : Color) (legalMoves : option (list Move)) :
  movesOfNode node legalMoves →
  getLegalMoves (board node) (turn node) (pendingCapture node) ≠ [] →
  0 < countPieces (board node) persp →
  0 < countPieces (board node) (opposite persp) →
  Z.abs (evaluatePosition variant node persp legalMoves) <= 32896.
Proof.
  intros Hmoves Hne Hmine Htheirs. unfold evaluatePosition.
  rewrite (movesOfNode_available node legalMoves Hmoves). cbn zeta.
  pose proof (getLegalMoves_length (board node) (turn node)
                (pendingCapture node)) as Hlen.
  destruct (Z.of_nat (length _) =? 0) eqn:E.
  { apply Z.eqb_eq in E. destruct (getLegalMoves _ _ _); [done|].
    cbn [length] in E. lia. }
  destruct variant; cbn [isGiveawayVariant];
    [|by apply evaluateGiveawayPosition_range].
  pose proof (classic_fold_counts (board node) persp) as Hc.
  destruct (foldl (classicSquare (board node) persp) _ squares) as [[s m] o].
  destruct Hc as (-> & -> & Hs).
  pose proof (count_total_bounded (board node) persp) as Htotal.
  destruct (Z.eqb_spec (countPieces (board node) persp) 0); [lia|].
  destruct (Z.eqb_spec (countPieces (board node) (opposite persp)) 0); [lia|].
  destruct (color_eqb (turn node) persp); lia.
Qed.

(** X15. A heuristic score cannot be mistaken for a decided game: at a
    position with a legal move where both sides have a piece, the value of
    [evaluatePosition] (with the legal moves of the node) is at most 32896
    in absolute value, in both variants, below every score that
    [terminalScore] gives to a position without legal moves at a depth up to
    1000 ([WIN_SCORE] is 1000000). *)
Theorem heuristic_below_terminal (variant : Variant) (node : GameNode)
  (persp : Color) (legalMoves : option (list Move)) :
  movesOfNode node legalMoves →
  getLegalMoves (board node) (turn node) (pendingCapture node) ≠ [] →
  0 < countPieces (board node) persp →
  0 < countPieces (board node) (opposite persp) →
  Z.abs (evaluatePosition variant node persp legalMoves) <= 32896
  ∧ ∀ (side persp' : Color) (depth : Z),
      0 <= depth <= 1000 →
      Z.abs (evaluatePosition variant node persp legalMoves)
      < Z.abs (terminalScore variant side persp' depth).
Proof.
  intros Hmoves Hne Hmine Htheirs.
  pose proof (evaluatePosition_range variant node persp legalMoves
                Hmoves Hne Hmine Htheirs) as H.
  split; [done|]. intros side persp' depth Hdepth.
  unfold terminalScore, WIN_SCORE.
  destruct (if isGiveawayVariant variant then _ else _); lia.
Qed.

Lemma heuristic_below_terminal_witness :
  movesOfNode initialNode None
  ∧ getLegalMoves (board initialNode) (turn initialNode)
                  (pendingCapture initialNode) ≠ []
  ∧ 0 < countPieces (board initialNode) W
  ∧ 0 < countPieces (board initialNode) (opposite W)
  ∧ Z.abs (evaluatePosition Classic initialNode W None) <= 32896
  ∧ ∀ (side persp' : Color) (depth : Z),
      0 <= depth <= 1000 →
      Z.abs (evaluatePosition Classic initialNode W None)
      < Z.abs (terminalScore Classic side persp' depth).
Proof.
  assert (Hm : movesOfNode initialNode None) by (intros ms [=]).
  assert (Hne : getLegalMoves (board initialNode) (turn initialNode)
                  (pendingCapture initialNode) ≠ []) by (by vm_compute).
  assert (HW : 0 < countPieces (board initialNode) W) by (by vm_compute).
  assert (HB : 0 < countPieces (board initialNode) (opposite W))
    by (by vm_compute).
  split; [exact Hm|]. split; [exact Hne|]. split; [exact HW|].
  split; [exact HB|].
  exact (heuristic_below_terminal Classic initialNode W None Hm Hne HW HB).
Defined.

(** ** The end of the game, for the game and for the search *)

(** X16. The game and the search agree on finished games: [checkGameOver]
    declares the game over exactly when the side to move has no legal move,
    and then the winner it names is the side for which [evaluatePosition]
    returns [WIN_SCORE], the other side getting [-WIN_SCORE], in both
    variants; otherwise it names no winner. *)
Theorem game_over_matches_search (variant : Variant) (node : GameNode) :
  let legalMoves :=
    getLegalMoves (board node) (turn node) (pendingCapture node) in
  ((checkGameOver variant node).1 = true ↔ legalMoves = [])
  ∧ (legalMoves ≠ [] → (checkGameOver variant node).2 = None)
  ∧ (legalMoves = [] →
     ∃ winner,
       (checkGameOver variant node).2 = Some winner
       ∧ evaluatePosition variant node winner None = WIN_SCORE
       ∧ evaluatePosition variant node (opposite winner) None = - WIN_SCORE).
Proof.
  cbn zeta. unfold checkGameOver, evaluatePosition.
  destruct (getLegalMoves _ _ _) as [|m l]; cbn [length].
  - replace (Z.of_nat 0 =? 0) with true by done. cbn [fst snd].
    split; [done|]. split; [done|]. intros _.
    eexists. split; [done|].
    unfold terminalScore, winnerWhenNoLegalMoves.
    rewrite color_eqb_opposite.
    destruct variant, (turn node); cbn; done.
  - replace (Z.of_nat (S (length l)) =? 0) with false
      by (symmetry; apply Z.eqb_neq; lia).
    cbn [fst snd]. split; [done|]. split; done.
Qed.

(** ** What the search returns *)

Section SearchOutcome.

Variable variant : Variant.
Variable dateNow : nat → Z.
Variable randomBelow : nat → Q → bool.
Variable randomIndex : nat → nat → nat.

Hypothesis randomIndex_in_range :
  ∀ n len, (0 < len)%nat → (randomIndex n len < len)%nat.

Lemma deep_inv_scored_legal (side : Color) (deadline : Z)
  (legalMoves : list Move) (d : Deepening) (e : option Move * Score) :
  deep_inv variant dateNow side deadline legalMoves d →
  legalMoves ≠ [] →
  e ∈ scoredAtDepth d →
  ∃ m, e.1 = Some m ∧ m ∈ legalMoves.
Proof.
  intros [(_ & _ & _ & Hsc)|(_ & _ & Hperm & _)] Hne He.
  - rewrite Hsc in He. apply list_elem_of_singleton in He as ->.
    destruct legalMoves as [|m l]; [done|]. exists m. split; [done|left].
  - assert (H : e.1 ∈ (scoredAtDepth d).*1)
      by (apply list_elem_of_fmap; by exists e).
    rewrite Hperm in H. apply list_elem_of_fmap in H as (m & Hm & Hin).
    by exists m.
Qed.

Lemma chosen_move_legal (legalMoves : list Move) (turn0 side : Color)
  (mv : option Move) (m : Move) :
  legalMoves ≠ [] → turn0 = side → mv = Some m → m ∈ legalMoves →
  (mv = None ↔ legalMoves = [] ∨ turn0 ≠ side)
  ∧ ∀ m', mv = Some m' → m' ∈ legalMoves.
Proof.
  intros Hne Hside -> Hm. split.
  - split; [done|]. by intros [?|?].
  - by intros m' [= <-].
Qed.

Lemma chooseBestMove_move (state : GameState) (side : Color) (mode : Mode)
  (w : World) :
  wf_state state →
  let legalMoves :=
    getLegalMoves (state_board state) (state_turn state)
                  (state_pendingCapture state) in
  ∃ res w',
    chooseBestMove variant dateNow randomBelow randomIndex state side mode w
    = (Ok res, w')
    ∧ (resMove res = None ↔ legalMoves = [] ∨ state_turn state ≠ side)
    ∧ (∀ m, resMove res = Some m → m ∈ legalMoves)
    ∧ (depthReached res ≤ searchMaxDepth state mode)%nat.
Proof.
  intros [Hwf _]. cbn zeta. unfold chooseBestMove.
  cbn [board turn pendingCapture].
  set (legalMoves := getLegalMoves _ _ _).
  destruct (Z.of_nat (length legalMoves) =? 0) eqn:Hlen.
  { eexists _, _. split; [done|]. cbn [resMove depthReached].
    apply Z.eqb_eq in Hlen.
    assert (legalMoves = []) as ->
      by (destruct legalMoves; [done|cbn [length] in Hlen; lia]).
    split; [split; auto|]. split; [done|lia]. }
  assert (Hne : legalMoves ≠ []).
  { intros E. rewrite E in Hlen. done. }
  destruct (negb (color_eqb (state_turn state) side)) eqn:Hside.
  { eexists _, _. split; [done|]. cbn [resMove depthReached].
    apply color_eqb_false in Hside.
    split; [split; auto|]. split; [done|lia]. }
  apply color_eqb_true in Hside.
  fold (searchConfig state mode).
  set (config := searchConfig state mode).
  set (isAi := match mode with ModeAi => true | ModeHint => false end).
  set (draws := isAi && negb (Qle_bool (randomChance config) 0)).
  set (w1 := if draws then mkWorld (wTime w) (S (wRandom w)) else w).
  destruct (draws && randomBelow (wRandom w) (randomChance config)).
  { destruct (lookup_lt_is_Some_2 legalMoves
                (randomIndex (wRandom w1) (length legalMoves))) as [m Hm].
    { apply randomIndex_in_range. destruct legalMoves; [done|].
      cbn [length]. lia. }
    eexists _, _. split; [done|]. cbn [resMove depthReached].
    destruct (chosen_move_legal legalMoves (state_turn state) side _ m
                Hne Hside Hm) as [H1 H2].
    { by eapply list_elem_of_lookup_2. }
    split; [done|]. split; [done|lia]. }
  replace (if isAi then maxDepth config else hintDepth config)
    with (searchMaxDepth state mode)
    by (unfold searchMaxDepth, isAi; fold config; by destruct mode).
  set (deadline := dateNow (wTime w1) + _).
  set (root := mkNode _ _ _ _).
  destruct (deepen_spec variant dateNow side deadline legalMoves
              (searchMaxDepth state mode) 0
              (mkDeepening (head legalMoves) NegInf 0
                           [(head legalMoves, NegInf)])
              (mkSearch root ∅ 0 (S (wTime w1))))
    as (d & st' & Hd & Hn & Hinv & Hrange & _); try done.
  { by left. }
  rewrite Hd.
  pose proof (deep_inv_best_scored variant dateNow side deadline legalMoves d
                Hinv) as Hbest.
  destruct (deep_inv_scored_legal side deadline legalMoves d _ Hinv Hne Hbest)
    as (mb & Hmb & Hmbin). cbn [fst] in Hmb.
  destruct (chosen_move_legal legalMoves (state_turn state) side _ mb
              Hne Hside Hmb Hmbin) as [Hb1 Hb2].
  assert (Hdepth : (deepReached d ≤ searchMaxDepth state mode)%nat) by lia.
  destruct (isAi && (1 <? Z.of_nat (length (scoredAtDepth d)))
            && (0 <? noise config)) eqn:Hnoisy;
    [|by eexists _, _].
  set (candidates := List.filter _ (scoredAtDepth d)).
  destruct (0 <? Z.of_nat (length candidates)) eqn:Hcand; [|by eexists _, _].
  destruct (lookup_lt_is_Some_2 candidates
              (randomIndex (wRandom (mkWorld (sTime st') (wRandom w1)))
                           (length candidates))) as [picked Hp].
  { apply randomIndex_in_range. apply Z.ltb_lt in Hcand. lia. }
  rewrite Hp. eexists _, _. split; [done|]. cbn [resMove depthReached].
  apply list_elem_of_lookup_2, elem_of_List_filter in Hp as [Hp1 _].
  destruct (deep_inv_scored_legal side deadline legalMoves d _ Hinv Hne Hp1)
    as (mp & Hmp & Hmpin).
  destruct (chosen_move_legal legalMoves (state_turn state) side _ mp
              Hne Hside Hmp Hmpin) as [H1 H2].
  split; [done|]. split; [done|lia].
Qed.

(** X17. [chooseBestMove] only ever proposes legal moves.  On every position
    of the grid it returns a result; the move of the result is null exactly
    when the position has no legal move or the side asked for is not the
    side to move; otherwise it is one of the legal moves of the position,
    whether it was drawn at random, found by the search, picked by the noise
    step, or is the first legal move because the time ran out; and the depth
    reported does not exceed the depth configured for the mode and the
    difficulty. *)
Theorem chooseBestMove_returns_legal_move (state : GameState) (side : Color)
  (mode : Mode) (w : World) :
  wf_state state →
  let legalMoves :=
    getLegalMoves (state_board state) (state_turn state)
                  (state_pendingCapture state) in
  ∃ res w',
    chooseBestMove variant dateNow randomBelow randomIndex state side mode w
    = (Ok res, w')
    ∧ (resMove res = None ↔ legalMoves = [] ∨ state_turn state ≠ side)
    ∧ (∀ m, resMove res = Some m → m ∈ legalMoves)
    ∧ (depthReached res ≤ searchMaxDepth state mode)%nat.
Proof. apply chooseBestMove_move. Qed.

End SearchOutcome.

Lemma chooseBestMove_returns_legal_move_witness :
  let state := stateInitialEasy in
  let legalMoves :=
    getLegalMoves (state_board state) (state_turn state)
                  (state_pendingCapture state) in
  ∃ res w',
    chooseBestMove Classic clockExpiring neverBelow lastIndex state W ModeAi
                   (mkWorld 0 0)
    = (Ok res, w')
    ∧ (resMove res = None ↔ legalMoves = [] ∨ state_turn state ≠ W)
    ∧ (∀ m, resMove res = Some m → m ∈ legalMoves)
    ∧ (depthReached res ≤ searchMaxDepth state ModeAi)%nat.
Proof.
  apply (chooseBestMove_returns_legal_move Classic clockExpiring neverBelow
           lastIndex).
  - intros n len Hlen. unfold lastIndex. lia.
  - split; [|by intros pc].
    split; [done|]. by vm_compute; repeat constructor.
Defined.



(** ** Pieces under attack *)

Lemma getManCaptures_elem (board : Board) (r0 c0 : Z) (piece : Piece)
  (m : Move) :
  m ∈ getManCaptures board r0 c0 piece ↔
  ∃ dr dc,
    (dr, dc) ∈ DIRECTIONS
    ∧ isInside (r0 + dr) (c0 + dc) = true
    ∧ isInside (r0 + dr * 2) (c0 + dc * 2) = true
    ∧ (∃ q, cell board (r0 + dr) (c0 + dc) = Some q ∧ color q ≠ color piece)
    ∧ cell board (r0 + dr * 2) (c0 + dc * 2) = None
    ∧ m = mkMove (mkCoords r0 c0) (mkCoords (r0 + dr * 2) (c0 + dc * 2))
                 [mkCoords (r0 + dr) (c0 + dc)].
Proof.
  split.
  - intros (dr & dc & Hd & -> & H1 & H2 & H3 & H4)%getManCaptures_dir.
    by exists dr, dc.
  - intros (dr & dc & Hd & H1 & H2 & (q & Hq & Hcol) & H3 & ->).
    unfold getManCaptures. apply list_elem_of_bind. exists (dr, dc).
    split; [|done]. cbn zeta. rewrite H1, H2, Hq, H3. cbn [negb orb].
    unfold color_eqb. rewrite bool_decide_false by done.
    rewrite bool_decide_false by (by intros [? ?]). cbn [negb andb]. left.
Qed.

Lemma isPotentialVictim_spec (board : Board) (r0 c0 : Z) (victimColor : Color) :
  isPotentialVictim board r0 c0 victimColor = true ↔
  ∃ dr dc,
    (dr, dc) ∈ DIRECTIONS
    ∧ isInside (r0 - dr) (c0 - dc) = true
    ∧ isInside (r0 + dr) (c0 + dc) = true
    ∧ (∃ a, cell board (r0 - dr) (c0 - dc) = Some a
            ∧ color a = opposite victimColor)
    ∧ cell board (r0 + dr) (c0 + dc) = None.
Proof.
  unfold isPotentialVictim. rewrite existsb_exists. split.
  - intros ([dr dc] & Hd%list_elem_of_In & H). exists dr, dc.
    split; [done|].
    destruct (isInside (r0 - dr) (c0 - dc)); [|done].
    destruct (isInside (r0 + dr) (c0 + dc)); [|done]. cbn [negb orb] in H.
    destruct (cell board (r0 - dr) (c0 - dc)) as [a|]; [|done].
    destruct (negb (color_eqb _ _)) eqn:Hcol; [done|].
    apply color_eqb_true in Hcol.
    apply negb_true_iff, bool_decide_eq_false in H.
    split; [done|]. split; [done|]. split; [by exists a|].
    destruct (cell board (r0 + dr) (c0 + dc)); [|done].
    exfalso. apply H. by eexists.
  - intros (dr & dc & Hd & H1 & H2 & (a & Ha & Hcol) & H3).
    exists (dr, dc). split; [by apply list_elem_of_In|].
    rewrite H1, H2, Ha, H3. cbn [negb orb].
    unfold color_eqb. rewrite bool_decide_true by done. cbn [negb].
    apply negb_true_iff, bool_decide_eq_false. by intros [? ?].
Qed.

Lemma isPotentialVictim_capturable (board : Board) (r0 c0 : Z)
  (victim : Piece) :
  wf_board board →
  cell board r0 c0 = Some victim →
  isPotentialVictim board r0 c0 (color victim) = true ↔
  ∃ ar ac attacker m,
    cell board ar ac = Some attacker
    ∧ color attacker ≠ color victim
    ∧ m ∈ getManCaptures board ar ac attacker
    ∧ captures m = [mkCoords r0 c0].
Proof.
  intros Hwf Hcell.
  pose proof (cell_Some_inside _ _ _ _ Hwf Hcell) as Hin.
  rewrite isPotentialVictim_spec. split.
  - intros (dr & dc & Hd & H1 & H2 & (a & Ha & Hcol) & H3).
    exists (r0 - dr), (c0 - dc), a,
      (mkMove (mkCoords (r0 - dr) (c0 - dc))
              (mkCoords (r0 - dr + dr * 2) (c0 - dc + dc * 2))
              [mkCoords (r0 - dr + dr) (c0 - dc + dc)]).
    split; [done|].
    split; [rewrite Hcol; by destruct (color victim)|].
    replace (r0 - dr + dr) with r0 by lia.
    replace (c0 - dc + dc) with c0 by lia.
    split; [|done]. apply getManCaptures_elem. exists dr, dc.
    replace (r0 - dr + dr) with r0 by lia.
    replace (c0 - dc + dc) with c0 by lia.
    replace (r0 - dr + dr * 2) with (r0 + dr) by lia.
    replace (c0 - dc + dc * 2) with (c0 + dc) by lia.
    split; [done|]. split; [done|]. split; [done|].
    split; [|done]. exists victim. split; [done|].
    rewrite Hcol. by destruct (color victim).
  - intros (ar & ac & attacker & m & Ha & Hcol & Hm & Hcap).
    apply getManCaptures_elem in Hm
      as (dr & dc & Hd & H1 & H2 & (q & Hq & Hqcol) & H3 & ->).
    cbn [captures] in Hcap. injection Hcap as <- <-.
    exists dr, dc. split; [done|].
    replace (ar + dr - dr) with ar by lia.
    replace (ac + dc - dc) with ac by lia.
    replace (ar + dr + dr) with (ar + dr * 2) by lia.
    replace (ac + dc + dc) with (ac + dc * 2) by lia.
    split; [by eapply cell_Some_inside|]. split; [done|].
    split; [|done]. exists attacker. split; [done|].
    by apply color_ne_opposite.
Qed.

(** X19. What the giveaway evaluation counts as a potential victim is a
    piece that can be captured at once: [isPotentialVictim] answers [true]
    for an occupied square exactly when some piece of the other colour,
    moving as a man, has a capture in [getManCaptures] that takes the piece
    on that square. *)
Theorem potential_victim_iff_capturable (board : Board) (r0 c0 : Z)
  (victim : Piece) :
  wf_board board →
  cell board r0 c0 = Some victim →
  isPotentialVictim board r0 c0 (color victim) = true ↔
  ∃ ar ac attacker m,
    cell board ar ac = Some attacker
    ∧ color attacker ≠ color victim
    ∧ m ∈ getManCaptures board ar ac attacker
    ∧ captures m = [mkCoords r0 c0].
Proof. apply isPotentialVictim_capturable. Qed.

Lemma potential_victim_iff_capturable_witness :
  wf_board boardBackwardCapture
  ∧ cell boardBackwardCapture 5 4 = Some darkMan
  ∧ (isPotentialVictim boardBackwardCapture 5 4 (color darkMan) = true ↔
     ∃ ar ac attacker m,
       cell boardBackwardCapture ar ac = Some attacker
       ∧ color attacker ≠ color darkMan
       ∧ m ∈ getManCaptures boardBackwardCapture ar ac attacker
       ∧ captures m = [mkCoords 5 4]).
Proof.
  assert (Hwf : wf_board boardBackwardCapture) by apply wf_place.
  assert (Hc : cell boardBackwardCapture 5 4 = Some darkMan) by reflexivity.
  split; [exact Hwf|]. split; [exact Hc|].
  exact (potential_victim_iff_capturable boardBackwardCapture 5 4 darkMan
           Hwf Hc).
Defined.

(** ** Cache keys *)

Lemma lxor_cancel_l (a x y : Z) : Z.lxor a x = Z.lxor a y → x = y.
Proof.
  intros H. apply (f_equal (Z.lxor a)) in H.
  by rewrite <- !Z.lxor_assoc, Z.lxor_nilpotent, !Z.lxor_0_l in H.
Qed.

Lemma NoDup_fmap_inj_on {A E} (f : A → E) (l : list A) (x y : A) :
  NoDup (f <$> l) → x ∈ l → y ∈ l → f x = f y → x = y.
Proof.
  induction l as [|z l IH]; [by intros _ ?%elem_of_nil|].
  cbn [fmap list_fmap]. intros [Hz Hnd]%NoDup_cons Hx Hy Heq.
  apply elem_of_cons in Hx as [->|Hx]; apply elem_of_cons in Hy as [->|Hy];
    try done.
  - exfalso. apply Hz. rewrite Heq. apply list_elem_of_fmap. by exists y.
  - exfalso. apply Hz. rewrite <- Heq. apply list_elem_of_fmap. by exists x.
  - by apply IH.
Qed.

Lemma contextTerm_NoDup : NoDup (contextTerm <$> cacheContexts).
Proof. apply (bool_decide_unpack _). by vm_compute. Qed.

Lemma cacheContexts_elem (t : Color) (p : option Coords) (v : Variant) :
  (∀ pc, p = Some pc → isInside (r pc) (c pc) = true) →
  (t, p, v) ∈ cacheContexts.
Proof.
  intros Hp. unfold cacheContexts.
  apply list_elem_of_bind. exists t. split; [|destruct t; set_solver].
  apply list_elem_of_bind. exists p. split.
  - apply list_elem_of_bind. exists v. split; [left|destruct v; set_solver].
  - destruct p as [pc|]; [|left]. right.
    apply list_elem_of_fmap. exists pc. split; [done|].
    apply list_elem_of_fmap. exists (r pc, c pc).
    split; [by destruct pc|]. apply isInside_squares. by apply Hp.
Qed.

(** X20. The cache key tells positions apart by everything but the board:
    two nodes with the same board hash, whose forced-continuation squares
    (if any) are on the grid, have the same [nodeCacheKey] only if they have
    the same side to move, the same forced-continuation square and the same
    variant.  An entry of the transposition table is therefore never read
    for the same board with another side to move, another pending capture
    or another variant. *)
Theorem nodeCacheKey_separates (v1 v2 : Variant) (n1 n2 : GameNode) :
  hash n1 = hash n2 →
  pendingOnGrid n1 → pendingOnGrid n2 →
  nodeCacheKey v1 n1 = nodeCacheKey v2 n2 →
  turn n1 = turn n2 ∧ pendingCapture n1 = pendingCapture n2 ∧ v1 = v2.
Proof.
  intros Hhash Hp1 Hp2 Hkey. unfold nodeCacheKey in Hkey. cbn zeta in Hkey.
  rewrite Hhash in Hkey. rewrite !Z.lxor_assoc in Hkey.
  apply lxor_cancel_l in Hkey. rewrite <- !Z.lxor_assoc in Hkey.
  assert (H : (turn n1, pendingCapture n1, v1)
              = (turn n2, pendingCapture n2, v2)).
  { apply (NoDup_fmap_inj_on contextTerm cacheContexts).
    - apply contextTerm_NoDup.
    - by apply cacheContexts_elem.
    - by apply cacheContexts_elem.
    - exact Hkey. }
  by injection H as -> -> ->.
Qed.

Lemma nodeCacheKey_separates_witness :
  let n1 := initialNode in
  let n2 := mkNode createEmptyBoard (hash initialNode) W None in
  hash n1 = hash n2
  ∧ pendingOnGrid n1 ∧ pendingOnGrid n2
  ∧ nodeCacheKey Classic n1 = nodeCacheKey Classic n2
  ∧ turn n1 = turn n2 ∧ pendingCapture n1 = pendingCapture n2
  ∧ Classic = Classic.
Proof.
  assert (H1 : pendingOnGrid initialNode) by (intros pc [=]).
  assert (H2 : pendingOnGrid (mkNode createEmptyBoard (hash initialNode) W None))
    by (intros pc [=]).
  assert (Hk : nodeCacheKey Classic initialNode
               = nodeCacheKey Classic
                   (mkNode createEmptyBoard (hash initialNode) W None))
    by reflexivity.
  split; [reflexivity|]. split; [exact H1|]. split; [exact H2|].
  split; [exact Hk|].
  exact (nodeCacheKey_separates Classic Classic initialNode
           (mkNode createEmptyBoard (hash initialNode) W None)
           eq_refl H1 H2 Hk).
Defined.

(** ** Board orientation *)

(** X21. Turning the board for the dark player loses nothing: for either
    human colour, a square of the grid is displayed on a square of the grid,
    reading the displayed square back gives the square itself (and the other
    way round), and dark squares are displayed on dark squares. *)
Theorem display_coords_roundtrip (humanColor : Color) (r0 c0 : Z) :
  isInside r0 c0 = true →
  let shown := getBoardToDisplayCoords humanColor r0 c0 in
  let read := getDisplayToBoardCoords humanColor r0 c0 in
  isInside (r shown) (c shown) = true
  ∧ getDisplayToBoardCoords humanColor (r shown) (c shown) = mkCoords r0 c0
  ∧ getBoardToDisplayCoords humanColor (r read) (c read) = mkCoords r0 c0
  ∧ isPlayableSquare (r shown) (c shown) = isPlayableSquare r0 c0.
Proof.
  intros [Hr Hc]%isInside_true. cbn zeta.
  unfold getBoardToDisplayCoords, getDisplayToBoardCoords, BOARD_SIZE.
  destruct (color_eqb humanColor W); cbn [r c].
  - split; [by apply isInside_true|]. done.
  - split; [apply isInside_true; lia|].
    split; [f_equal; lia|]. split; [f_equal; lia|].
    unfold isPlayableSquare.
    replace (8 - 1 - r0 + (8 - 1 - c0)) with (- (r0 + c0) + 7 * 2) by lia.
    rewrite Z.mod_add by done.
    replace (- (r0 + c0)) with ((r0 + c0) + (- (r0 + c0)) * 2) by lia.
    by rewrite Z.mod_add.
Qed.

Lemma display_coords_roundtrip_witness :
  let shown := getBoardToDisplayCoords B 2 3 in
  let read := getDisplayToBoardCoords B 2 3 in
  isInside 2 3 = true
  ∧ isInside (r shown) (c shown) = true
  ∧ getDisplayToBoardCoords B (r shown) (c shown) = mkCoords 2 3
  ∧ getBoardToDisplayCoords B (r read) (c read) = mkCoords 2 3
  ∧ isPlayableSquare (r shown) (c shown) = isPlayableSquare 2 3.
Proof.
  split; [reflexivity|].
  exact (display_coords_roundtrip B 2 3 eq_refl).
Defined.

(** ** Leaderboard score *)

Lemma speedRatio_le_half (d : Difficulty) (e : Z) :
  Qle_bool (inject_Z e / inject_Z (SCORE_PAR_TIME_MS d)) (1 # 2)
  = (2 * e <=? SCORE_PAR_TIME_MS d).
Proof.
  destruct d; unfold Qle_bool, Qdiv, Qmult, Qinv, inject_Z, SCORE_PAR_TIME_MS;
    cbn.

  all: match goal with
       | |- context [match ?x * 60000 with _ => _ end] =>
           let v := eval vm_compute in (x * 60000) in
           change (x * 60000) with v
       end; cbn;
    match goal with
    | |- (?a <=? ?b) = (?c <=? ?d) =>
        destruct (Z.leb_spec a b), (Z.leb_spec c d); lia
    end.
Qed.

Lemma speedRatio_le_par (d : Difficulty) (e : Z) :
  Qle_bool (inject_Z e / inject_Z (SCORE_PAR_TIME_MS d)) 1
  = (e <=? SCORE_PAR_TIME_MS d).
Proof.
  destruct d; unfold Qle_bool, Qdiv, Qmult, Qinv, inject_Z, SCORE_PAR_TIME_MS;
    cbn.
  all: match goal with
       | |- context [match ?x * 60000 with _ => _ end] =>
           let v := eval vm_compute in (x * 60000) in
           change (x * 60000) with v
       end; cbn;
    match goal with
    | |- (?a <=? ?b) = (?c <=? ?d) =>
        destruct (Z.leb_spec a b), (Z.leb_spec c d); lia
    end.
Qed.

Lemma computeLeaderboardScore_eq (result : GameOutcome) (d : Difficulty)
  (e h : Z) (wonOnTime : bool) :
  computeLeaderboardScore result d e h wonOnTime
  = clampScore
      (scaledBase result d (2 * e <=? SCORE_PAR_TIME_MS d)
                  (e <=? SCORE_PAR_TIME_MS d)
       + (if h =? 0 then 20 else - (Z.min 8 h * 10))
       + (if wonOnTime && match result with Win => true | Loss => false end
          then 10 else 0))
      (-300) 500.
Proof.
  unfold computeLeaderboardScore, scaledBase. cbn zeta.
  rewrite speedRatio_le_half, speedRatio_le_par. f_equal.
  destruct (h =? 0), (wonOnTime && _); lia.
Qed.

Lemma scaledBase_table (result : GameOutcome) (d : Difficulty)
  (half par : bool) :
  scaledBase result d half par
  = match result, d with
    | Win, Easy => if half then 200 else if par then 150 else 110
    | Win, Medium => if half then 280 else if par then 210 else 154
    | Win, Hard => if half then 380 else if par then 285 else 209
    | Loss, Easy => if half then -130 else if par then -90 else -60
    | Loss, Medium => if half then -182 else if par then -126 else -84
    | Loss, Hard => if half then -247 else if par then -171 else -114
    end.
Proof. by destruct result, d, half, par. Qed.

Ltac score_cases :=
  rewrite ?computeLeaderboardScore_eq, ?scaledBase_table;
  unfold clampScore, SCORE_PAR_TIME_MS;
  repeat match goal with
         | |- context [?a <=? ?b] => destruct (Z.leb_spec a b)
         | |- context [?a =? ?b] => destruct (Z.eqb_spec a b)
         end;
  cbn [andb]; try lia.

(** X22. The leaderboard score, for a whole number of milliseconds and of
    hints (none negative): it lies between -300 and 410; a win scores at
    least 30 and a loss at most -40, so every win ranks above every loss;
    asking for more hints never raises it; a slower win never scores more
    than a faster one, and a slower loss never scores less than a faster
    one. *)
Theorem leaderboard_score_properties (result : GameOutcome) (d : Difficulty)
  (e h : Z) (wonOnTime : bool) :
  0 <= h →
  let s := computeLeaderboardScore result d e h wonOnTime in
  -300 <= s <= 410
  ∧ match result with Win => 30 <= s | Loss => s <= -40 end
  ∧ (∀ h', h <= h' →
       computeLeaderboardScore result d e h' wonOnTime <= s)
  ∧ (∀ e', e <= e' →
       match result with
       | Win => computeLeaderboardScore result d e' h wonOnTime <= s
       | Loss => s <= computeLeaderboardScore result d e' h wonOnTime
       end).
Proof.
  intros Hh. cbn zeta. split; [|split; [|split]].
  - destruct result, d, wonOnTime; score_cases.
  - destruct result, d, wonOnTime; score_cases.
  - intros h' Hh'. destruct result, d, wonOnTime; score_cases.
  - intros e' He'. destruct result, d, wonOnTime; score_cases.
Qed.

Lemma leaderboard_score_properties_witness :
  let s := computeLeaderboardScore Loss Hard 120000 7 false in
  0 <= 7
  ∧ -300 <= s <= 410
  ∧ s <= -40
  ∧ (∀ h', 7 <= h' → computeLeaderboardScore Loss Hard 120000 h' false <= s)
  ∧ (∀ e', 120000 <= e' →
       s <= computeLeaderboardScore Loss Hard e' 7 false).
Proof.
  split; [lia|].
  exact (leaderboard_score_properties Loss Hard 120000 7 false ltac:(lia)).
Defined.

(** ** Choosing a move by a click *)

Lemma getLegalMoves_homogeneous (board : Board) (color0 : Color)
  (pending : option Coords) :
  (∀ m, m ∈ getLegalMoves board color0 pending → captures m = [])
  ∨ (∀ m, m ∈ getLegalMoves board color0 pending → captures m ≠ []).
Proof.
  destruct pending as [pc|].
  - right. intros m (r0 & c0 & piece & _ & _ & [H|[? _]])%getLegalMoves_origin;
      [|done].
    by eapply captures_nonempty.
  - rewrite getLegalMoves_scan.
    destruct (nonEmpty (allCaptureMoves board color0)).
    + right. intros m ([r0 c0] & H & _)%list_elem_of_bind.
      unfold capturesAt in H. cbn [fst snd] in H.
      destruct (cell board r0 c0) as [piece|]; [|by apply elem_of_nil in H].
      destruct (color_eqb _ _); [|by apply elem_of_nil in H].
      by eapply captures_nonempty.
    + left. intros m ([r0 c0] & H & _)%list_elem_of_bind.
      unfold quietAt in H. cbn [fst snd] in H.
      destruct (cell board r0 c0) as [piece|]; [|by apply elem_of_nil in H].
      destruct (color_eqb _ _); [|by apply elem_of_nil in H].
      by apply getSimpleMovesForPiece_shape in H as (_ & _ & _ & ?).
Qed.

Lemma ray_inj (r0 c0 dr1 dc1 dr2 dc2 : Z) (s1 s2 : nat) :
  (dr1, dc1) ∈ DIRECTIONS → (dr2, dc2) ∈ DIRECTIONS →
  (1 ≤ s1)%nat → (1 ≤ s2)%nat →
  ray r0 c0 dr1 dc1 s1 = ray r0 c0 dr2 dc2 s2 →
  dr1 = dr2 ∧ dc1 = dc2 ∧ s1 = s2.
Proof.
  intros [Hr1 Hc1]%DIRECTIONS_unit [Hr2 Hc2]%DIRECTIONS_unit Hs1 Hs2.
  unfold ray. intros [= Hr Hc].
  destruct Hr1 as [-> | ->], Hr2 as [-> | ->], Hc1 as [-> | ->],
    Hc2 as [-> | ->]; lia.
Qed.

Lemma capture_unique (board : Board) (r0 c0 : Z) (piece : Piece)
  (m1 m2 : Move) :
  m1 ∈ getCaptureMovesForPiece board r0 c0 piece →
  m2 ∈ getCaptureMovesForPiece board r0 c0 piece →
  to m1 = to m2 → m1 = m2.
Proof.
  unfold getCaptureMovesForPiece. destruct (king piece).
  - intros (dr1 & dc1 & j1 & s1 & Hd1 & Hj1 & Hjs1 & Hb1 & He1 & Ha1 & ->)
             %king_jumps_elem
           (dr2 & dc2 & j2 & s2 & Hd2 & Hj2 & Hjs2 & Hb2 & He2 & Ha2 & ->)
             %king_jumps_elem.
    cbn [to]. intros Hto.
    apply ray_inj in Hto as (-> & -> & ->); [|done|done|lia|lia].
    assert (j1 = j2) as ->; [|done].
    destruct He1 as [_ (q1 & Hq1 & _)]. destruct He2 as [_ (q2 & Hq2 & _)].
    destruct (lt_eq_lt_dec j1 j2) as [[Hlt|Heq]|Hgt]; [|done|].
    + destruct (Hb2 j1 Hj1 Hlt) as [_ Hnone]. congruence.
    + destruct (Hb1 j2 Hj2 Hgt) as [_ Hnone]. congruence.
  - intros (dr1 & dc1 & Hd1 & -> & _)%getManCaptures_dir
           (dr2 & dc2 & Hd2 & -> & _)%getManCaptures_dir.
    cbn [to]. intros [= Hr Hc].
    assert (dr1 = dr2) as -> by lia. assert (dc1 = dc2) as -> by lia. done.
Qed.

Lemma legal_move_unique (board : Board) (color0 : Color)
  (pending : option Coords) (m1 m2 : Move) :
  m1 ∈ getLegalMoves board color0 pending →
  m2 ∈ getLegalMoves board color0 pending →
  from m1 = from m2 → to m1 = to m2 → m1 = m2.
Proof.
  intros H1 H2 Hfrom Hto.
  destruct (getLegalMoves_homogeneous board color0 pending) as [Hq|Hc].
  - pose proof (Hq m1 H1). pose proof (Hq m2 H2).
    destruct m1, m2. cbn in *. congruence.
  - pose proof (Hc m1 H1) as Hc1. pose proof (Hc m2 H2) as Hc2.
    apply getLegalMoves_origin in H1
      as (r1 & c1 & p1 & Hcell1 & _ & [H1|[_ H1]]);
      [|by apply getSimpleMovesForPiece_shape in H1 as (_ & _ & _ & ?)].
    apply getLegalMoves_origin in H2
      as (r2 & c2 & p2 & Hcell2 & _ & [H2|[_ H2]]);
      [|by apply getSimpleMovesForPiece_shape in H2 as (_ & _ & _ & ?)].
    pose proof (getCaptureMovesForPiece_shape _ _ _ _ _ H1) as [Hf1 _].
    pose proof (getCaptureMovesForPiece_shape _ _ _ _ _ H2) as [Hf2 _].
    rewrite Hf1, Hf2 in Hfrom. injection Hfrom as -> ->.
    rewrite Hcell1 in Hcell2. injection Hcell2 as ->.
    by eapply capture_unique.
Qed.

(** X23. A click plays a legal move and there is no doubt which: the move
    [onSquareClick] chooses for a selected square and a clicked square is a
    legal move between these two squares, and every legal move is chosen by
    selecting its source and clicking its destination, because a legal move
    is determined by its two ends (the captured square is the only piece
    between them). *)
Theorem click_chooses_the_legal_move (board : Board) (color0 : Color)
  (pending : option Coords) (selected : Coords) (r0 c0 : Z) (m : Move) :
  let allMoves := getLegalMoves board color0 pending in
  clickedMove allMoves selected r0 c0 = Some m
  ↔ m ∈ allMoves ∧ from m = selected ∧ to m = mkCoords r0 c0.
Proof.
  cbn zeta. unfold clickedMove. split.
  - intros [Hin Hto]%find_some.
    apply list_elem_of_In, elem_of_List_filter in Hin as [Hin Hfrom].
    apply andb_true_iff in Hto as [?%Z.eqb_eq ?%Z.eqb_eq].
    apply andb_true_iff in Hfrom as [?%Z.eqb_eq ?%Z.eqb_eq].
    split; [done|]. destruct m as [[fr fc] [tr tc] caps], selected.
    cbn in *. by subst.
  - intros (Hin & Hfrom & Hto).
    match goal with |- find ?f ?l = _ => destruct (find f l) as [m'|] eqn:Hf end.
    + f_equal. apply find_some in Hf as [Hin' Hto'].
      apply list_elem_of_In, elem_of_List_filter in Hin' as [Hin' Hfrom'].
      apply andb_true_iff in Hto' as [?%Z.eqb_eq ?%Z.eqb_eq].
      apply andb_true_iff in Hfrom' as [?%Z.eqb_eq ?%Z.eqb_eq].
      apply (legal_move_unique board color0 pending); try done.
      * rewrite Hfrom. destruct (from m'), selected. cbn in *. by subst.
      * rewrite Hto. destruct (to m'). cbn in *. by subst.
    + exfalso. eapply find_none in Hf.
      2:{ apply list_elem_of_In, elem_of_List_filter. split; [exact Hin|].
          rewrite Hfrom. by rewrite !Z.eqb_refl. }
      cbn beta in Hf. rewrite Hto in Hf. cbn [r c] in Hf.
      by rewrite !Z.eqb_refl in Hf.
Qed.

(** ** The moves of a man, exactly *)

(** X24. A man's moves, exactly.  Its non-capturing moves are the steps to
    the two squares diagonally in front of it (toward row 0 for white,
    toward row 7 for dark) that are on the grid and empty; its captures are
    the jumps, in any of the four diagonal directions, over an adjacent
    piece of the other colour to the empty square of the grid right behind
    it.  Every such move is generated, and no other. *)
Theorem man_moves_exact (board : Board) (r0 c0 : Z) (col : Color) (m : Move) :
  let man := mkPiece col false in
  let forward := match col with W => -1 | B => 1 end in
  (m ∈ getSimpleMovesForPiece board r0 c0 man ↔
   ∃ dc, (dc = -1 ∨ dc = 1)
     ∧ emptyAt board (r0 + forward) (c0 + dc)
     ∧ m = mkMove (mkCoords r0 c0) (mkCoords (r0 + forward) (c0 + dc)) [])
  ∧ (m ∈ getCaptureMovesForPiece board r0 c0 man ↔
     ∃ dr dc, (dr, dc) ∈ DIRECTIONS
       ∧ enemySquareOf board man (ray r0 c0 dr dc 1)
       ∧ emptySquare board (ray r0 c0 dr dc 2)
       ∧ m = mkMove (mkCoords r0 c0) (ray r0 c0 dr dc 2) [ray r0 c0 dr dc 1]).
Proof.
  cbn zeta. split.
  - unfold getSimpleMovesForPiece, emptyAt. cbn [king color negb].
    rewrite list_elem_of_bind. split.
    + intros (dc & H & Hdc). exists dc.
      split; [set_unfold; tauto|].
      destruct (isInside _ _) eqn:Hin; [|by apply elem_of_nil in H].
      destruct (cell board _ _) eqn:Hc.
      { rewrite bool_decide_true in H by (by eexists).
        by apply elem_of_nil in H. }
      rewrite bool_decide_false in H by (by intros [? ?]).
      apply list_elem_of_singleton in H. done.
    + intros (dc & Hdc & [Hin Hc] & ->). exists dc.
      split; [|set_unfold; tauto].
      rewrite Hin, Hc. rewrite bool_decide_false by (by intros [? ?]). left.
  - unfold getCaptureMovesForPiece. cbn [king].
    rewrite getManCaptures_elem. unfold enemySquareOf, emptySquare, emptyAt.
    split.
    + intros (dr & dc & Hd & H1 & H2 & Hq & H3 & ->). exists dr, dc.
      rewrite ray_one, ray_two. cbn [r c]. done.
    + intros (dr & dc & Hd & H). exists dr, dc.
      rewrite ray_one, ray_two in H. cbn [r c] in H.
      destruct H as ([H1 Hq] & [H2 H3] & ->). done.
Qed.

(** ** The scores the search returns *)

Lemma evaluateGiveawayPosition_bounded (node : GameNode) (persp : Color)
  (legalMoves : list Move) :
  (length legalMoves ≤ 2048)%nat →
  - WIN_SCORE <= evaluateGiveawayPosition node persp legalMoves <= WIN_SCORE.
Proof.
  intros Hlen. unfold evaluateGiveawayPosition.
  pose proof (giveaway_fold_bounded (board node) persp squares
                (mkCounts 0 0 0 0 0 0 0 0) 0 squares_inside) as Hb.
  rewrite squares_length in Hb.
  set (k := foldl _ _ squares) in *. cbn zeta.
  unfold counts_bounded in Hb. cbn [myMen myKings oppMen oppKings myProgress
    oppProgress myVictims oppVictims] in Hb.
  unfold WIN_SCORE.
  destruct (myMen k + myKings k =? 0); [lia|].
  destruct (oppMen k + oppKings k =? 0); [lia|].
  destruct ((myMen k =? 0) && (0 <? myKings k)),
    ((oppMen k =? 0) && (0 <? oppKings k)),
    (color_eqb (turn node) persp); lia.
Qed.

Lemma evaluatePosition_bounded (variant : Variant) (node : GameNode)
  (persp : Color) (legalMoves : option (list Move)) :
  movesOfNode node legalMoves →
  - WIN_SCORE <= evaluatePosition variant node persp legalMoves <= WIN_SCORE.
Proof.
  intros Hmoves. unfold evaluatePosition.
  rewrite (movesOfNode_available node legalMoves Hmoves). cbn zeta.
  pose proof (getLegalMoves_length (board node) (turn node)
                (pendingCapture node)) as Hlen.
  destruct (Z.of_nat (length _) =? 0).
  { unfold terminalScore, WIN_SCORE.
    destruct (if isGiveawayVariant variant then _ else _); lia. }
  destruct variant; cbn [isGiveawayVariant];
    [|by apply evaluateGiveawayPosition_bounded].
  pose proof (classic_fold_counts (board node) persp) as Hc.
  destruct (foldl (classicSquare (board node) persp) _ squares) as [[s m] o].
  destruct Hc as (-> & -> & Hs).
  pose proof (count_total_bounded (board node) persp) as Htotal.
  pose proof (countPieces_nonneg (board node) persp).
  pose proof (countPieces_nonneg (board node) (opposite persp)).
  unfold WIN_SCORE.
  destruct (countPieces (board node) persp =? 0); [lia|].
  destruct (countPieces (board node) (opposite persp) =? 0); [lia|].
  destruct (color_eqb (turn node) persp); lia.
Qed.

Lemma ttProbe_inl (depth : nat) (alpha beta : Score) (cached : option TTEntry)
  (s : Score) :
  ttProbe depth alpha beta cached = inl s →
  ∃ entry, cached = Some entry ∧ s = ttScore entry.
Proof.
  unfold ttProbe. destruct cached as [entry|]; [|done].
  destruct (depth <=? ttDepth entry)%nat; [|done].
  destruct (ttFlag entry); [| |];
    repeat match goal with
           | |- context [if ?b then _ else _] => destruct b
           end; intros [= <-] || done; by exists entry.
Qed.

Section SearchRange.

Variable variant : Variant.
Variable dateNow : nat → Z.

Lemma checkSearchDeadline_table (deadline : Z) (st : SearchState) :
  sTable (checkSearchDeadline dateNow deadline st).2 = sTable st.
Proof.
  unfold checkSearchDeadline. destruct (negb _); [done|].
  by destruct (deadline <=? _).
Qed.

Lemma minimax_unfold (rootColor : Color) (deadline : Z) (depth' : nat)
  (alpha beta : Score) (st : SearchState) :
  minimax variant dateNow rootColor deadline (S depth') alpha beta st
  = match checkSearchDeadline dateNow deadline st with
    | (Throw e, st) => (Throw e, st)
    | (Ok _, st) =>
        let node := sNode st in
        let legalMoves :=
          getLegalMoves (board node) (turn node) (pendingCapture node) in
        if Z.of_nat (length legalMoves) =? 0 then
          (Ok (Fin (terminalScore variant (turn node) rootColor
                      (Z.of_nat (S depth')))), st)
        else
          let cacheKey := nodeCacheKey variant node in
          match ttProbe (S depth') alpha beta (sTable st !! cacheKey) with
          | inl score => (Ok score, st)
          | inr (alpha0, beta0, preferredMove) =>
              let maximizing := color_eqb (turn node) rootColor in
              let ordered :=
                orderMoves (board node) legalMoves preferredMove in
              match minimaxMoves
                      (minimax variant dateNow rootColor deadline depth')
                      maximizing ordered
                      (mkLoop alpha0 beta0
                              (if maximizing then NegInf else PosInf)
                              (head ordered)) st with
              | (Throw e, st') => (Throw e, st')
              | (Ok ls, st') =>
                  (Ok (lBestScore ls),
                   mkSearch (sNode st')
                     (<[cacheKey :=
                          mkTT (S depth') (lBestScore ls) (lBestMove ls)
                               (if score_leb (lBestScore ls) alpha then Upper
                                else if score_leb beta (lBestScore ls)
                                     then Lower else Exact)]>
                        (sTable st'))
                     (sNodes st') (sTime st'))
              end
          end
    end.
Proof. reflexivity. Qed.

Lemma minimaxMoves_range
  (search : Score → Score → SearchState → js Score * SearchState)
  (maximizing : bool) (moves : list Move) (ls : LoopState) (st : SearchState) :
  (∀ a b, restores (search a b)) →
  (∀ a b st', wf_board (board (sNode st')) → tableInRange (sTable st') →
              tableInRange (sTable (search a b st').2)
              ∧ ∀ s, (search a b st').1 = Ok s → scoreInRange s) →
  wf_board (board (sNode st)) →
  (∀ m, m ∈ moves →
        m ∈ getLegalMoves (board (sNode st)) (turn (sNode st))
              (pendingCapture (sNode st))) →
  tableInRange (sTable st) →
  tableInRange (sTable (minimaxMoves search maximizing moves ls st).2)
  ∧ ∀ ls', (minimaxMoves search maximizing moves ls st).1 = Ok ls' →
      (scoreInRange (lBestScore ls) → scoreInRange (lBestScore ls'))
      ∧ (moves ≠ [] →
         lBestScore ls = (if maximizing then NegInf else PosInf) →
         scoreInRange (lBestScore ls')).
Proof.
  intros Hrestores Hsearch. revert ls st.
  induction moves as [|m rest IH]; intros ls st Hwf Hlegal Htable.
  { cbn [minimaxMoves fst snd]. split; [done|].
    intros ls' [= <-]. split; done. }
  cbn [minimaxMoves].
  destruct (applyMoveMutable_undo (sNode st) m Hwf) as (undo & node1 & Ha & Hu).
  { apply Hlegal. left. }
  rewrite Ha.
  assert (Hwf1 : wf_board (board (sNode (setNode st node1)))).
  { cbn [setNode sNode]. replace node1 with (applyMoveMutable (sNode st) m).2
      by (by rewrite Ha). by apply applyMoveMutable_wf. }
  destruct (Hrestores (lAlpha ls) (lBeta ls) (setNode st node1) Hwf1)
    as [Hn _].
  destruct (Hsearch (lAlpha ls) (lBeta ls) (setNode st node1) Hwf1 Htable)
    as [Ht1 Hs1].
  destruct (search (lAlpha ls) (lBeta ls) (setNode st node1)) as [res st1].
  cbn [fst snd setNode sNode] in Hn, Ht1, Hs1. rewrite Hn, Hu.
  destruct res as [childScore|e]; [|by split].
  specialize (Hs1 childScore eq_refl).
  set (ls1 := if maximizing then _ else _).
  assert (Hbest1 :
    (scoreInRange (lBestScore ls) → scoreInRange (lBestScore ls1))
    ∧ (lBestScore ls = (if maximizing then NegInf else PosInf) →
       scoreInRange (lBestScore ls1))).
  { subst ls1. destruct Hs1 as (z & -> & Hz).
    destruct maximizing; cbn [lBestScore]; split.
    - intros Hin. by destruct (score_ltb _ _); [exists z|].
    - intros ->. cbn [score_ltb]. by exists z.
    - intros Hin. by destruct (score_ltb _ _); [exists z|].
    - intros ->. cbn [score_ltb]. by exists z. }
  destruct Hbest1 as [Hkeep Hfirst].
  destruct (score_leb (lBeta ls1) (lAlpha ls1)).
  { cbn [fst snd setNode sTable]. split; [done|].
    intros ls' [= <-]. split; [done|]. by intros _. }
  destruct (IH ls1 (setNode st1 (sNode st))) as [IHt IHs].
  { done. }
  { intros m' Hm'. apply Hlegal. by right. }
  { done. }
  split; [done|]. intros ls' Hls'. destruct (IHs ls' Hls') as [IH1 _].
  split; [by intros ?; apply IH1, Hkeep|].
  intros _ Hinit. by apply IH1, Hfirst.
Qed.

Lemma minimax_range (rootColor : Color) (deadline : Z) (depth : nat)
  (alpha beta : Score) (st : SearchState) :
  wf_board (board (sNode st)) →
  tableInRange (sTable st) →
  Z.of_nat depth <= WIN_SCORE →
  tableInRange
    (sTable (minimax variant dateNow rootColor deadline depth alpha beta st).2)
  ∧ ∀ s, (minimax variant dateNow rootColor deadline depth alpha beta st).1
         = Ok s → scoreInRange s.
Proof.
  revert alpha beta st.
  induction depth as [|depth IH]; intros alpha beta st Hwf Htable Hdepth.
  - cbn [minimax].
    pose proof (checkSearchDeadline_table deadline st) as Ht.
    destruct (checkSearchDeadline dateNow deadline st) as [[[]|e] st0];
      cbn [fst snd] in *; [|by rewrite Ht].
    destruct (Z.of_nat (length _) =? 0); cbn [fst snd];
      (split; [by rewrite Ht|]); intros s [= <-]; eexists; (split; [done|]).
    + unfold terminalScore, WIN_SCORE.
      destruct (if isGiveawayVariant variant then _ else _); lia.
    + apply evaluatePosition_bounded. by intros ms [= <-].
  - rewrite minimax_unfold.
    pose proof (checkSearchDeadline_table deadline st) as Ht.
    destruct (checkSearchDeadline_restores dateNow deadline st Hwf) as [Hn _].
    destruct (checkSearchDeadline dateNow deadline st) as [[[]|e] st0];
      cbn [fst snd] in *; [|by rewrite Ht].
    rewrite <- Ht in Htable. rewrite <- Hn in Hwf. clear Ht Hn. cbn zeta.
    destruct (Z.of_nat (length _) =? 0) eqn:Hlen.
    { cbn [fst snd]. split; [done|]. intros s [= <-]. eexists.
      split; [done|]. unfold terminalScore, WIN_SCORE in *.
      destruct (if isGiveawayVariant variant then _ else _); lia. }
    destruct (ttProbe _ _ _ _) as [score|[[alpha0 beta0] preferredMove]]
      eqn:Hprobe.
    { cbn [fst snd]. split; [done|]. intros s [= <-].
      apply ttProbe_inl in Hprobe as (entry & Hentry & ->).
      by eapply Htable. }
    set (legalMoves := getLegalMoves _ _ _) in *.
    set (ordered := orderMoves _ legalMoves preferredMove).
    set (maximizing := color_eqb _ _).
    destruct (minimaxMoves_range
                (minimax variant dateNow rootColor deadline depth)
                maximizing ordered
                (mkLoop alpha0 beta0 (if maximizing then NegInf else PosInf)
                        (head ordered)) st0) as [Ht' Hs'].
    { intros a b. apply minimax_restores. }
    { intros a b st' Hwf' Ht'. apply IH; [done|done|lia]. }
    { done. }
    { intros m Hm. by apply orderMoves_elem in Hm. }
    { done. }
    destruct (minimaxMoves _ _ _ _ st0) as [[ls|e] st']; cbn [fst snd] in *;
      [|done].
    destruct (Hs' ls eq_refl) as [_ Hfirst].
    assert (Hbest : scoreInRange (lBestScore ls)).
    { apply Hfirst; [|done]. intros Hnil.
      assert (Hperm : ordered ≡ₚ legalMoves) by apply orderMoves_perm.
      rewrite Hnil in Hperm.
      apply Permutation_nil in Hperm. rewrite Hperm in Hlen. done. }
    split.
    + intros key entry. cbn [sTable].
      destruct (decide (key = nodeCacheKey variant (sNode st0))) as [->|Hne].
      * rewrite lookup_insert_eq. intros [= <-]. done.
      * rewrite lookup_insert_ne by done. apply Ht'.
    + by intros s [= <-].
Qed.

End SearchRange.

(** X25. The scores of the search stay finite and within the win scores:
    started on a grid with a transposition table whose entries hold scores
    between [-WIN_SCORE] and [WIN_SCORE] (the empty table that
    [chooseBestMove] starts with is one), at a depth up to [WIN_SCORE],
    [minimax] returns, when it returns, a finite score between [-WIN_SCORE]
    and [WIN_SCORE], never an infinite window bound, and it leaves a table
    of the same kind, whatever the window and whether or not it was cut by
    the deadline. *)
Theorem minimax_score_in_range (variant : Variant) (dateNow : nat → Z)
  (rootColor : Color) (deadline : Z) (depth : nat) (alpha beta : Score)
  (st : SearchState) :
  wf_board (board (sNode st)) →
  tableInRange (sTable st) →
  Z.of_nat depth <= WIN_SCORE →
  let out := minimax variant dateNow rootColor deadline depth alpha beta st in
  tableInRange (sTable out.2) ∧ ∀ s, out.1 = Ok s → scoreInRange s.
Proof. apply minimax_range. Qed.

Lemma minimax_score_in_range_witness :
  let st := mkSearch initialNode ∅ 0 0 in
  let out := minimax Classic clockStopped W 500 2 NegInf PosInf st in
  wf_board (board (sNode st))
  ∧ tableInRange (sTable st)
  ∧ Z.of_nat 2 <= WIN_SCORE
  ∧ tableInRange (sTable out.2)
  ∧ ∀ s, out.1 = Ok s → scoreInRange s.
Proof.
  assert (Hwf : wf_board (board (sNode (mkSearch initialNode ∅ 0 0))))
    by apply position_ok_initial.
  assert (Ht : tableInRange (sTable (mkSearch initialNode ∅ 0 0)))
    by (intros key entry [=]).
  assert (Hd : Z.of_nat 2 <= WIN_SCORE) by (by vm_compute).
  split; [exact Hwf|]. split; [exact Ht|]. split; [exact Hd|].
  exact (minimax_score_in_range Classic clockStopped W 500 2 NegInf PosInf
           (mkSearch initialNode ∅ 0 0) Hwf Ht Hd).
Defined.

(** ** A search that is not cut short *)

Section SearchCompletes.

Variable variant : Variant.
Variable dateNow : nat → Z.
Variable deadline : Z.

Hypothesis clock_early : ∀ n, dateNow n < deadline.

Lemma checkSearchDeadline_early (st : SearchState) :
  (checkSearchDeadline dateNow deadline st).1 = Ok ().
Proof.
  unfold checkSearchDeadline. destruct (negb _); [done|].
  cbn [sTime]. pose proof (clock_early (sTime st)).
  destruct (Z.leb_spec deadline (dateNow (sTime st))); [lia|done].
Qed.

Lemma minimaxMoves_early
  (search : Score → Score → SearchState → js Score * SearchState)
  (maximizing : bool) (moves : list Move) (ls : LoopState) (st : SearchState) :
  (∀ a b, restores (search a b)) →
  (∀ a b st', wf_board (board (sNode st')) →
              ∃ s, (search a b st').1 = Ok s) →
  wf_board (board (sNode st)) →
  (∀ m, m ∈ moves →
        m ∈ getLegalMoves (board (sNode st)) (turn (sNode st))
              (pendingCapture (sNode st))) →
  ∃ ls', (minimaxMoves search maximizing moves ls st).1 = Ok ls'.
Proof.
  intros Hrestores Hsearch. revert ls st.
  induction moves as [|m rest IH]; intros ls st Hwf Hlegal.
  { by exists ls. }
  cbn [minimaxMoves].
  destruct (applyMoveMutable_undo (sNode st) m Hwf) as (undo & node1 & Ha & Hu).
  { apply Hlegal. left. }
  rewrite Ha.
  assert (Hwf1 : wf_board (board (sNode (setNode st node1)))).
  { cbn [setNode sNode]. replace node1 with (applyMoveMutable (sNode st) m).2
      by (by rewrite Ha). by apply applyMoveMutable_wf. }
  destruct (Hrestores (lAlpha ls) (lBeta ls) (setNode st node1) Hwf1)
    as [Hn _].
  destruct (Hsearch (lAlpha ls) (lBeta ls) (setNode st node1) Hwf1)
    as [childScore Hs].
  destruct (search (lAlpha ls) (lBeta ls) (setNode st node1)) as [res st1].
  cbn [fst snd setNode sNode] in Hn, Hs. rewrite Hn, Hu. subst res.
  match goal with |- context [if ?b then (Ok ?l, _) else _] =>
    destruct b; [by eexists|] end.
  apply IH; [done|]. intros m' Hm'. apply Hlegal. by right.
Qed.

Lemma minimax_early (rootColor : Color) (depth : nat) (alpha beta : Score)
  (st : SearchState) :
  wf_board (board (sNode st)) →
  ∃ s, (minimax variant dateNow rootColor deadline depth alpha beta st).1
       = Ok s.
Proof.
  revert alpha beta st.
  induction depth as [|depth IH]; intros alpha beta st Hwf.
  - cbn [minimax]. pose proof (checkSearchDeadline_early st) as Hc.
    destruct (checkSearchDeadline dateNow deadline st) as [[[]|e] st0];
      [|done].
    destruct (Z.of_nat (length _) =? 0); by eexists.
  - rewrite minimax_unfold. pose proof (checkSearchDeadline_early st) as Hc.
    destruct (checkSearchDeadline_restores dateNow deadline st Hwf) as [Hn _].
    destruct (checkSearchDeadline dateNow deadline st) as [[[]|e] st0];
      [|done].
    cbn [fst snd] in Hn. rewrite <- Hn in Hwf. cbn zeta.
    destruct (Z.of_nat (length _) =? 0); [by eexists|].
    destruct (ttProbe _ _ _ _) as [score|[[alpha0 beta0] preferredMove]];
      [by eexists|].
    match goal with
    | |- context [minimaxMoves ?f ?mx ?mv ?l ?s] =>
        destruct (minimaxMoves_early f mx mv l s) as [ls Hls]
    end.
    { intros a b. apply minimax_restores. }
    { intros a b st' Hwf'. by apply IH. }
    { done. }
    { intros m Hm. by apply orderMoves_elem in Hm. }
    destruct (minimaxMoves _ _ _ _ st0) as [res st']. cbn [fst] in Hls.
    subst res. by eexists.
Qed.

Lemma rootMoves_early (side : Color) (depth' : nat) (moves : list Move)
  (rl : RootLoop) (st : SearchState) :
  wf_board (board (sNode st)) →
  (∀ m, m ∈ moves →
        m ∈ getLegalMoves (board (sNode st)) (turn (sNode st))
              (pendingCapture (sNode st))) →
  ∃ rl', (rootMoves variant dateNow side deadline depth' moves rl st).1
         = Ok rl'.
Proof.
  revert rl st. induction moves as [|m rest IH]; intros rl st Hwf Hlegal.
  { by exists rl. }
  cbn [rootMoves]. cbn zeta. pose proof (clock_early (sTime st)).
  destruct (Z.leb_spec deadline (dateNow (sTime st))); [lia|].
  cbn [sNode].
  destruct (applyMoveMutable_undo (sNode st) m Hwf) as (undo & node1 & Ha & Hu).
  { apply Hlegal. left. }
  rewrite Ha.
  match goal with
  | |- context [minimax ?v ?dn ?sd ?dl ?dp ?a ?b ?s] =>
      assert (Hwf1 : wf_board (board (sNode s)));
      [|destruct (minimax_restores v dn sd dl dp a b s Hwf1) as [Hn _];
        destruct (minimax_early sd dp a b s Hwf1) as [score Hs];
        destruct (minimax v dn sd dl dp a b s) as [res st1]]
  end.
  { cbn [setNode sNode]. replace node1 with (applyMoveMutable (sNode st) m).2
      by (by rewrite Ha). by apply applyMoveMutable_wf. }
  cbn [fst snd setNode sNode] in Hn, Hs. subst res. rewrite Hn, Hu.
  apply IH; [done|]. intros m' Hm'. apply Hlegal. by right.
Qed.

Lemma searchDepth_early (side : Color) (legalMoves : list Move) (depth : nat)
  (hint : option Move) (st : SearchState) :
  wf_board (board (sNode st)) →
  legalMoves = getLegalMoves (board (sNode st)) (turn (sNode st))
                 (pendingCapture (sNode st)) →
  ∃ rl, (searchDepth variant dateNow side deadline legalMoves depth hint st).1
        = Ok rl.
Proof.
  intros Hwf ->. unfold searchDepth. apply rootMoves_early; [done|].
  intros m Hm. by apply orderMoves_elem in Hm.
Qed.

Lemma not_interrupted (side : Color) (legalMoves : list Move)
  (root : GameNode) (d : Deepening) :
  wf_board (board root) →
  legalMoves = getLegalMoves (board root) (turn root) (pendingCapture root) →
  ¬ interrupted variant dateNow side deadline legalMoves root d.
Proof.
  intros Hwf Hlegal (st & Hroot & [Hlate|Hthrow]).
  - pose proof (clock_early (sTime st)). lia.
  - destruct (searchDepth_early side legalMoves (S (deepReached d))
                (bestMove d)
                (mkSearch (sNode st) (sTable st) (sNodes st) (S (sTime st))))
      as [rl Hrl].
    + cbn [sNode]. by rewrite Hroot.
    + cbn [sNode]. by rewrite Hroot.
    + rewrite Hrl in Hthrow. done.
Qed.

End SearchCompletes.

Section SearchFullDepth.

Variable variant : Variant.
Variable dateNow : nat → Z.
Variable randomBelow : nat → Q → bool.
Variable randomIndex : nat → nat → nat.

Hypothesis randomIndex_below :
  ∀ n len, (0 < len)%nat → (randomIndex n len < len)%nat.

Lemma chooseBestMove_depth (state : GameState) (side : Color) (mode : Mode)
  (w : World) :
  wf_state state →
  getLegalMoves (state_board state) (state_turn state)
                (state_pendingCapture state) ≠ [] →
  state_turn state = side →
  shortCircuits randomBelow state mode w = false →
  (∀ n, dateNow n < dateNow (wTime w) + searchTimeMs state mode) →
  ∃ res w',
    chooseBestMove variant dateNow randomBelow randomIndex state side mode w
    = (Ok res, w')
    ∧ depthReached res = searchMaxDepth state mode.
Proof.
  intros [Hwf _] Hne Hside Hsc Hclock. unfold chooseBestMove.
  cbn [board turn pendingCapture].
  set (legalMoves := getLegalMoves _ _ _) in *.
  destruct (Z.of_nat (length legalMoves) =? 0) eqn:Hlen.
  { apply Z.eqb_eq in Hlen. destruct legalMoves; [done|].
    cbn [length] in Hlen. lia. }
  unfold color_eqb. rewrite bool_decide_true by done. cbn [negb].
  fold (searchConfig state mode).
  set (config := searchConfig state mode).
  set (isAi := match mode with ModeAi => true | ModeHint => false end).
  assert (Hshort :
    isAi && negb (Qle_bool (randomChance config) 0)
    && randomBelow (wRandom w) (randomChance config)
    = shortCircuits randomBelow state mode w).
  { unfold shortCircuits, isAi. fold config. by destruct mode. }
  rewrite Hshort, Hsc. clear Hshort.
  set (w1 := if isAi && negb (Qle_bool (randomChance config) 0)
             then mkWorld (wTime w) (S (wRandom w)) else w).
  assert (Hw1 : wTime w1 = wTime w).
  { subst w1.
    destruct (isAi && negb (Qle_bool (randomChance config) 0));
      reflexivity. }
  rewrite Hw1.
  replace (if isAi then maxDepth config else hintDepth config)
    with (searchMaxDepth state mode)
    by (unfold searchMaxDepth, isAi; fold config; by destruct mode).
  replace (if isAi then timeMs config else hintTimeMs config)
    with (searchTimeMs state mode)
    by (unfold searchTimeMs, isAi; fold config; by destruct mode).
  set (deadline := dateNow (wTime w) + searchTimeMs state mode) in *.
  set (root := mkNode _ _ _ _).
  destruct (deepen_spec variant dateNow side deadline legalMoves
              (searchMaxDepth state mode) 0
              (mkDeepening (head legalMoves) NegInf 0
                           [(head legalMoves, NegInf)])
              (mkSearch root ∅ 0 (S (wTime w))))
    as (d & st' & Hd & Hn & Hinv & Hrange & Hint); try done.
  { by left. }
  rewrite Hd. cbn [sNode] in Hint.
  assert (Hfull : deepReached d = searchMaxDepth state mode).
  { destruct (decide (deepReached d < 0 + searchMaxDepth state mode)%nat)
      as [Hlt|Hge]; [|lia].
    exfalso.
    apply (not_interrupted variant dateNow deadline Hclock side legalMoves
             root d Hwf eq_refl). by apply Hint. }
  destruct (isAi && (1 <? Z.of_nat (length (scoredAtDepth d)))
            && (0 <? noise config)); [|by eexists _, _].
  set (candidates := List.filter _ (scoredAtDepth d)).
  destruct (0 <? Z.of_nat (length candidates)) eqn:Hcand; [|by eexists _, _].
  destruct (lookup_lt_is_Some_2 candidates
              (randomIndex (wRandom (mkWorld (sTime st') (wRandom w1)))
                           (length candidates))) as [picked Hp].
  { apply randomIndex_below. apply Z.ltb_lt in Hcand. lia. }
  rewrite Hp. by eexists _, _.
Qed.

(** X26. A search that is not cut short runs to the configured depth: on a
    position of the grid where the side asked for is to move and has a legal
    move, if no random move is drawn and the clock stays before the deadline
    (the clock reading at the start plus the time of the mode and
    difficulty), [chooseBestMove] returns a result whose depth is the
    maximum depth configured for the mode and the difficulty. *)
Theorem chooseBestMove_full_depth (state : GameState) (side : Color)
  (mode : Mode) (w : World) :
  wf_state state →
  getLegalMoves (state_board state) (state_turn state)
                (state_pendingCapture state) ≠ [] →
  state_turn state = side →
  shortCircuits randomBelow state mode w = false →
  (∀ n, dateNow n < dateNow (wTime w) + searchTimeMs state mode) →
  ∃ res w',
    chooseBestMove variant dateNow randomBelow randomIndex state side mode w
    = (Ok res, w')
    ∧ depthReached res = searchMaxDepth state mode.
Proof. apply chooseBestMove_depth. Qed.

End SearchFullDepth.

Lemma chooseBestMove_full_depth_witness :
  let state := mkState boardLastMan W None Hard in
  ∃ res w',
    chooseBestMove Classic clockStopped neverBelow firstIndex state W ModeAi
                   (mkWorld 0 0)
    = (Ok res, w')
    ∧ depthReached res = searchMaxDepth state ModeAi.
Proof.
  apply (chooseBestMove_full_depth Classic clockStopped neverBelow firstIndex).
  - intros n len Hlen. unfold firstIndex. lia.
  - split; [apply wf_place|by intros pc].
  - by vm_compute.
  - reflexivity.
  - reflexivity.
  - intros n. by vm_compute.
Defined.

(** ** The turn after a move *)

Lemma applyMoveMutable_next_turn (node : GameNode) (m : Move) :
  wf_board (board node) →
  m ∈ getLegalMoves (board node) (turn node) (pendingCapture node) →
  ∃ undo node',
    applyMoveMutable node m = (Ok undo, node')
    ∧ (turn node' = turn node ↔ pendingCapture node' = Some (to m))
    ∧ (turn node' = opposite (turn node) ↔ pendingCapture node' = None)
    ∧ (turn node' = turn node →
       length (captures m) = 1%nat
       ∧ countPieces (board node') (opposite (turn node))
         = countPieces (board node) (opposite (turn node)) - 1).
Proof.
  intros Hwf Hm.
  destruct (applyMoveMutable_counts node m Hwf Hm)
    as (undo & node' & Happly & _ & Hcount).
  exists undo, node'. split; [done|].
  apply getLegalMoves_sound in Hm as (piece & Hcell & Hcol & Hshape).
  assert (Hto : isInside (r (to m)) (c (to m)) = true)
    by (destruct Hshape as [(_ & ? & _)|(_ & ? & _)]; done).
  destruct (applyMoveMutable_turn node m piece Hwf Hto Hcell)
    as (undo1 & node1 & Happly1 & _ & Hquiet & Hcapture).
  rewrite Happly in Happly1. injection Happly1 as <- <-.
  assert (Hopp : opposite (turn node) ≠ turn node)
    by (by destruct (turn node)).
  destruct Hshape as [(_ & _ & _ & Hcap)|(_ & _ & _ & cap & q & Hcap & _)].
  - destruct (Hquiet Hcap) as [Ht Hp]. rewrite Ht, Hp.
    split; [split; done|]. split; [split; done|]. done.
  - rewrite Hcap in Hcount. cbn [length] in Hcount.
    assert (Hne : captures m ≠ []) by (by rewrite Hcap).
    specialize (Hcapture Hne).
    destruct (nonEmpty _); destruct Hcapture as [Ht Hp]; rewrite Ht, Hp.
    + split; [split; done|]. split; [split; [by intros ?|done]|].
      intros _. rewrite Hcap. split; [done|lia].
    + split; [split; done|]. split; [split; done|]. done.
Qed.

(** X27. The same side moves again only to continue a capture: after a
    legal move the side to move is unchanged exactly when a capture is
    pending on the square where the move ended, and has changed exactly when
    no capture is pending; when the side is unchanged the move captured one
    piece, so the other side has one piece less.  A side therefore never
    makes more moves in a row than the other side has pieces. *)
Theorem same_side_again_only_after_capture (node : GameNode) (m : Move) :
  wf_board (board node) →
  m ∈ getLegalMoves (board node) (turn node) (pendingCapture node) →
  ∃ undo node',
    applyMoveMutable node m = (Ok undo, node')
    ∧ (turn node' = turn node ↔ pendingCapture node' = Some (to m))
    ∧ (turn node' = opposite (turn node) ↔ pendingCapture node' = None)
    ∧ (turn node' = turn node →
       length (captures m) = 1%nat
       ∧ countPieces (board node') (opposite (turn node))
         = countPieces (board node) (opposite (turn node)) - 1).
Proof. apply applyMoveMutable_next_turn. Qed.

Lemma same_side_again_only_after_capture_witness :
  let node := default initialNode
                (playLegal initialNode (take 3 openingWithDoubleCapture)) in
  let m := mkMove (mkCoords 3 0) (mkCoords 5 2) [mkCoords 4 1] in
  wf_board (board node)
  ∧ m ∈ getLegalMoves (board node) (turn node) (pendingCapture node)
  ∧ ∃ undo node',
      applyMoveMutable node m = (Ok undo, node')
      ∧ (turn node' = turn node ↔ pendingCapture node' = Some (to m))
      ∧ (turn node' = opposite (turn node) ↔ pendingCapture node' = None)
      ∧ (turn node' = turn node →
         length (captures m) = 1%nat
         ∧ countPieces (board node') (opposite (turn node))
           = countPieces (board node) (opposite (turn node)) - 1).
Proof.
  set (node := default initialNode
                 (playLegal initialNode (take 3 openingWithDoubleCapture))).
  assert (Hwf : wf_board (board node)).
  { split; [done|]. apply (bool_decide_unpack _). by vm_compute. }
  assert (H : mkMove (mkCoords 3 0) (mkCoords 5 2) [mkCoords 4 1]
              ∈ getLegalMoves (board node) (turn node) (pendingCapture node))
    by (apply (bool_decide_unpack _); vm_compute; reflexivity).
  split; [exact Hwf|]. split; [exact H|].
  exact (same_side_again_only_after_capture node _ Hwf H).
Defined.

(** ** One square, one hash term *)

Lemma valueTerm_NoDup :
  Forall (λ sq, NoDup (valueTerm sq <$> allContents)) squares.
Proof. apply (bool_decide_unpack _). by vm_compute. Qed.

Lemma allContents_elem (v : option Piece) : v ∈ allContents.
Proof.
  unfold allContents. destruct v as [[[] []]|]; set_solver.
Qed.

Lemma valueTerm_inj (r0 c0 : Z) (v1 v2 : option Piece) :
  isInside r0 c0 = true →
  valueTerm (r0, c0) v1 = valueTerm (r0, c0) v2 → v1 = v2.
Proof.
  intros Hin%isInside_squares Heq.
  pose proof (proj1 (Forall_forall _ _) valueTerm_NoDup _ Hin) as Hnd.
  apply (NoDup_fmap_inj_on (valueTerm (r0, c0)) allContents);
    auto using allContents_elem.
Qed.

Lemma computeBoardHash_changes (board : Board) (r0 c0 : Z) (v : option Piece) :
  wf_board board → isInside r0 c0 = true →
  v ≠ cell board r0 c0 →
  computeBoardHash (setCell board r0 c0 v) ≠ computeBoardHash board.
Proof.
  intros Hwf Hin Hne Heq. rewrite computeBoardHash_setCell in Heq by done.
  apply Hne. apply (valueTerm_inj r0 c0); [done|].
  rewrite Z.lxor_assoc in Heq.
  rewrite <- (Z.lxor_0_r (computeBoardHash board)) in Heq at 2.
  apply lxor_cancel_l in Heq. apply Z.lxor_eq in Heq. done.
Qed.

(** X28. No single square goes unnoticed by the hash: on a grid, writing to
    one square something other than what it holds (placing, removing,
    recolouring or crowning a piece) always changes [computeBoardHash]; the
    Zobrist terms of a square are pairwise different and none is zero. *)
Theorem one_square_changes_the_hash (board : Board) (r0 c0 : Z)
  (v : option Piece) :
  wf_board board → isInside r0 c0 = true →
  v ≠ cell board r0 c0 →
  computeBoardHash (setCell board r0 c0 v) ≠ computeBoardHash board.
Proof. apply computeBoardHash_changes. Qed.

Lemma one_square_changes_the_hash_witness :
  wf_board createInitialBoard
  ∧ isInside 5 0 = true
  ∧ Some whiteKing ≠ cell createInitialBoard 5 0
  ∧ computeBoardHash (setCell createInitialBoard 5 0 (Some whiteKing))
    ≠ computeBoardHash createInitialBoard.
Proof.
  assert (Hwf : wf_board createInitialBoard) by apply position_ok_initial.
  assert (Hne : Some whiteKing ≠ cell createInitialBoard 5 0)
    by (vm_compute; intros [=]).
  split; [exact Hwf|]. split; [reflexivity|]. split; [exact Hne|].
  exact (one_square_changes_the_hash createInitialBoard 5 0 (Some whiteKing)
           Hwf eq_refl Hne).
Defined.
